(** * BeamStrctSim: the analysis engine over exact arithmetic

    A shallow embedding of the structural-mechanics core of the
    repository (section properties, closed-form beam fields, support
    reactions, the numeric shear/moment sweep, the piecewise polynomial
    builder and the bearing load distribution) and of the logic of its
    panels and editors, with the properties of its specification, and
    further properties of the code, stated and proved over it.

    Numbers.  The source computes with IEEE-754 doubles.  The beam part
    is embedded over the rationals [Q]: every operation the beam code
    uses ([+], [-], [*], [/], [Math.abs], [Math.max], [Math.min],
    [Math.pow] with a literal integer exponent, comparisons) is rational,
    so the embedding is executable and exact; decimal literals stand for
    their decimal value and the rounding of sums and products is not
    modelled.  The comparisons of the numeric sweep are the exception: a
    rounding can move a station across a threshold, so they are embedded
    on binary64 doubles as well, beside their exact reading.  [Q] is a setoid:
    numeric equality is [==].  Division is total on [Q] ([x / 0 == 0])
    where a double gives an infinity or NaN, so a statement describes the
    source where the divisors it meets are not zero: the divisor of the
    reaction solver is proved non-zero, the quotients of a triangular
    load are taken for [x1 < x2] only, and the field solver divides by
    [E], [I], [L] and the mesh densities, positive in the data model.
    The bearing part needs [cos], [sqrt] and a fractional power and is
    embedded over [R]. *)

From Stdlib Require Import QArith Qabs Qminmax Qpower Qreduction.
From Stdlib Require Import ZArith List Bool Lia Lqa.
From Stdlib Require Import Setoid Morphisms SetoidList Sorted.
From Stdlib Require Import Reals Lra.
From Stdlib Require PrimFloat.
Import ListNotations.

Open Scope Q_scope.

(** ** Numeric helpers: the JavaScript operators the code uses *)

(** [x < y] as a boolean. *)
Definition Qlt_bool (x y : Q) : bool := negb (Qle_bool y x).

(** [Math.max], [Math.min], [Math.abs]. *)
Definition Math_max (a b : Q) : Q := Qmax a b.
Definition Math_min (a b : Q) : Q := Qmin a b.
Definition Math_abs (a : Q) : Q := Qabs a.

(** [Math.pow(x, k)] for the literal exponents 2, 3 and 4 of the beam code. *)
Definition Math_pow (x : Q) (k : Z) : Q := Qpower x k.

(** [Math.PI] is the double nearest to pi, a rational number. *)
Definition Math_PI : Q := 884279719003555 # 281474976710656.

(** ** types.ts *)

Inductive BeamType := cantilever | simplySupported | overhanging.
Inductive SectionType := rectangular | circular | ibeam.
Inductive LoadType := P | U | T | M.
Inductive PeakSide := peak_left | peak_right.

(** [LoadDefinition]: the optional fields [x], [x1], [x2], [peak] are
    options ([None] is JavaScript's [undefined]); [l_id] is the [id]
    string, kept as a number: the ids are time stamps printed in decimal
    and the code only compares them. *)
Record LoadDefinition := mkLoad {
  l_id : nat;
  l_type : LoadType;
  l_val : Q;
  l_x : option Q;
  l_x1 : option Q;
  l_x2 : option Q;
  l_peak : option PeakSide
}.

(** [SimulationParams], beam fields.  The mesh densities are loop bounds
    and are natural numbers. *)
Record SimulationParams := mkParams {
  length : Q;
  height : Q;
  force : Q;
  youngsModulus : Q;
  yieldStrength : Q;
  meshDensityX : nat;
  meshDensityY : nat;
  deformationScale : Q;
  beamType : BeamType;
  loadPosition : Q;
  supportA : Q;
  supportB : Q;
  customLoads : list LoadDefinition;
  sectionType : SectionType;
  sectionWidth : Q;
  flangeWidth : Q;
  flangeThickness : Q;
  webThickness : Q
}.

Record NodePoint := mkNode {
  n_id : nat * nat;
  n_x : Q;
  n_y : Q;
  n_dx : Q;
  n_dy : Q;
  n_stress : Q
}.

Record MeshElement := mkElement {
  el_id : nat * nat;
  el_nodes : list NodePoint;
  el_avgStress : Q
}.

Definition BeamType_eqb (a b : BeamType) : bool :=
  match a, b with
  | cantilever, cantilever => true
  | simplySupported, simplySupported => true
  | overhanging, overhanging => true
  | _, _ => false
  end.

(** ** physics.ts: section properties *)

Record SectionProperties := mkSection { sec_I : Q; sec_area : Q }.

Definition calculateSectionProperties (params : SimulationParams) : SectionProperties :=
  let H := height params in
  let B_rect := sectionWidth params in
  let B_flange := flangeWidth params in
  let tf := flangeThickness params in
  let tw := webThickness params in
  match sectionType params with
  | rectangular =>
      mkSection ((B_rect * Math_pow H 3) / 12) (B_rect * H)
  | circular =>
      mkSection ((Math_PI * Math_pow H 4) / 64) (Math_PI * Math_pow (H / 2) 2)
  | ibeam =>
      let innerH := H - 2 * tf in
      let innerB := B_flange - tw in
      if Qlt_bool 0 innerH && Qlt_bool 0 innerB then
        mkSection (((B_flange * Math_pow H 3) - (innerB * Math_pow innerH 3)) / 12)
                  ((2 * B_flange * tf) + (tw * innerH))
      else
        mkSection ((B_flange * Math_pow H 3) / 12) 0
  end.

(** ** physics.ts: the beam field solver *)

(** The clamped load position [safeA] of [calculateBeamPhysics]. *)
Definition safeA (params : SimulationParams) : Q :=
  Math_max 0 (Math_min (loadPosition params) (length params)).

(** [deformationScale || 1]: zero is falsy. *)
Definition scaleOf (params : SimulationParams) : Q :=
  if Qeq_bool (deformationScale params) 0 then 1 else deformationScale params.

(** The three fields [v], [theta], [M] that [getNode] computes at the
    station [xOriginal]. *)
Record NodeField := mkField { f_v : Q; f_theta : Q; f_M : Q }.

Definition nodeField (params : SimulationParams) (xOriginal : Q) : NodeField :=
  let L := length params in
  let Pf := force params in
  let E := youngsModulus params in
  let I := sec_I (calculateSectionProperties params) in
  let a := safeA params in
  let b := L - a in
  match beamType params with
  | cantilever =>
      if Qle_bool xOriginal a then
        mkField ((Pf * Math_pow xOriginal 2 * (3 * a - xOriginal)) / (6 * E * I))
                ((Pf * xOriginal * (2 * a - xOriginal)) / (2 * E * I))
                (Pf * (xOriginal - a))
      else
        let v_a := (Pf * Math_pow a 3) / (3 * E * I) in
        let theta_a := (Pf * Math_pow a 2) / (2 * E * I) in
        mkField (v_a + theta_a * (xOriginal - a)) theta_a 0
  | simplySupported =>
      if Qle_bool xOriginal a then
        mkField ((Pf * b * xOriginal) / (6 * L * E * I)
                   * (Math_pow L 2 - Math_pow b 2 - Math_pow xOriginal 2))
                ((Pf * b) / (6 * L * E * I)
                   * (Math_pow L 2 - Math_pow b 2 - 3 * Math_pow xOriginal 2))
                ((Pf * b * xOriginal) / L)
      else
        let xFromRight := L - xOriginal in
        let term := Math_pow L 2 - Math_pow a 2 - 3 * Math_pow xFromRight 2 in
        let thetaFromRight := (Pf * a) / (6 * L * E * I) * term in
        mkField ((Pf * a * xFromRight) / (6 * L * E * I)
                   * (Math_pow L 2 - Math_pow a 2 - Math_pow xFromRight 2))
                (- thetaFromRight)
                ((Pf * a * (L - xOriginal)) / L)
  | overhanging => mkField 0 0 0
  end.

Definition getNode (params : SimulationParams) (i j : nat) : NodePoint :=
  let h := height params in
  let I := sec_I (calculateSectionProperties params) in
  let dxStep := length params / inject_Z (Z.of_nat (meshDensityX params)) in
  let dyStep := h / inject_Z (Z.of_nat (meshDensityY params)) in
  let scale := scaleOf params in
  let xOriginal := inject_Z (Z.of_nat i) * dxStep in
  let yOriginal := (inject_Z (Z.of_nat j) * dyStep) - (h / 2) in
  let fld := nodeField params xOriginal in
  let u := - yOriginal * f_theta fld in
  let stress := - (f_M fld * yOriginal) / I in
  mkNode (i, j) xOriginal yOriginal
         (xOriginal + (u * scale)) (yOriginal + (f_v fld * scale)) stress.

(** The four corners of cell [(i, j)], in the order the code lists them. *)
Definition cellCorners (i j : nat) : list (nat * nat) :=
  [(i, j); (S i, j); (S i, S j); (i, S j)].

Definition meshCell (params : SimulationParams) (i j : nat) : MeshElement :=
  let p1 := getNode params i j in
  let p2 := getNode params (S i) j in
  let p3 := getNode params (S i) (S j) in
  let p4 := getNode params i (S j) in
  mkElement (i, j) [p1; p2; p3; p4]
            ((n_stress p1 + n_stress p2 + n_stress p3 + n_stress p4) / 4).

Definition calculateBeamPhysics (params : SimulationParams) : list MeshElement :=
  flat_map (fun i => map (fun j => meshCell params i j) (seq 0 (meshDensityY params)))
           (seq 0 (meshDensityX params)).

(** ** physics.ts: statistics *)

Record BeamStats := mkStats { maxStress : Q; maxDeflection : Q }.

Definition statsNode (acc : BeamStats) (n : NodePoint) : BeamStats :=
  let stressAbs := Math_abs (n_stress n) in
  let deflection := Math_abs (n_dy n - n_y n) in
  mkStats (if Qlt_bool (maxStress acc) stressAbs then stressAbs else maxStress acc)
          (if Qlt_bool (maxDeflection acc) deflection then deflection else maxDeflection acc).

Definition calculateBeamStats (elements : list MeshElement) : BeamStats :=
  fold_left (fun acc el => fold_left statsNode (el_nodes el) acc) elements (mkStats 0 0).

(** ** structuralAnalysis.ts: reactions and the numeric sweep *)

Record Reactions := mkReactions { Ra : Q; Rb : Q; Ma : Q }.

Record DiagramData := mkDiagram {
  xs : list Q;
  Vs : list Q;
  Ms : list Q;
  reactions : Reactions
}.

(** [checkStep] on exact numbers; [checkStep64] below is the same test
    on doubles. *)
Definition checkStep (x target dx : Q) : bool :=
  Qle_bool target x && Qlt_bool x (target + dx).

(** The load list every function of the module resolves first: the custom
    loads, or the base point load [|force|] at [loadPosition] when there
    are none. *)
Definition defaultLoad (params : SimulationParams) : LoadDefinition :=
  mkLoad 0 P (Math_abs (force params)) (Some (loadPosition params)) None None None.

Definition loadsOf (params : SimulationParams) : list LoadDefinition :=
  match customLoads params with
  | [] => [defaultLoad params]
  | _ :: _ => customLoads params
  end.

(** [l.peak === 'right'] *)
Definition peakRight (l : LoadDefinition) : bool :=
  match l_peak l with Some peak_right => true | _ => false end.

(** Support positions as [calculateAnalyticalDiagrams] resolves them. *)
Definition diagSupA (params : SimulationParams) : Q :=
  match beamType params with
  | cantilever => 0
  | simplySupported => 0
  | overhanging => supportA params
  end.

Definition diagSupB (params : SimulationParams) : Q :=
  match beamType params with
  | cantilever => 0
  | simplySupported => length params
  | overhanging => supportB params
  end.

(** One iteration of the first [loads.forEach]: the running pair
    [(sumFy, sumMa)]. *)
Definition accumLoad (supA : Q) (acc : Q * Q) (l : LoadDefinition) : Q * Q :=
  let (sumFy, sumMa) := acc in
  match l_type l with
  | P =>
      match l_x l with
      | Some x => (sumFy - l_val l, sumMa - l_val l * (x - supA))
      | None => acc
      end
  | M => (sumFy, sumMa + l_val l)
  | U =>
      match l_x1 l, l_x2 l with
      | Some x1, Some x2 =>
          let f := l_val l * (x2 - x1) in
          (sumFy - f, sumMa - f * ((x1 + x2) / 2 - supA))
      | _, _ => acc
      end
  | T =>
      match l_x1 l, l_x2 l with
      | Some x1, Some x2 =>
          let f := (1 # 2) * l_val l * (x2 - x1) in
          let d := if peakRight l then (2 / 3) * (x2 - x1) else (1 / 3) * (x2 - x1) in
          (sumFy - f, sumMa - f * (x1 + d - supA))
      | _, _ => acc
      end
  end.

Definition loadSums (supA : Q) (loads : list LoadDefinition) : Q * Q :=
  fold_left (accumLoad supA) loads (0, 0).

(** The divisor of [Rb]: the span, or 1 when the supports coincide. *)
Definition effectiveSpan (supA supB : Q) : Q :=
  let span := supB - supA in
  if Qlt_bool (Math_abs span) (1 # 1000000) then 1 else span.

Definition solveReactions (params : SimulationParams) : Reactions :=
  let supA := diagSupA params in
  let supB := diagSupB params in
  let (sumFy, sumMa) := loadSums supA (loadsOf params) in
  match beamType params with
  | cantilever => mkReactions (- sumFy) 0 (- sumMa)
  | _ =>
      let span := effectiveSpan supA supB in
      let rb := - sumMa / span in
      mkReactions (- sumFy - rb) rb 0
  end.

(** The sample count of the sweep, [const n = 400]. *)
Definition nSamples : nat := 400.

Definition isCantilever (params : SimulationParams) : bool :=
  BeamType_eqb (beamType params) cantilever.

(** Point-load shear at a station. *)
Definition pointShear (x dx : Q) (V : Q) (l : LoadDefinition) : Q :=
  match l_type l, l_x l with
  | P, Some lx => if checkStep x lx dx then V - l_val l else V
  | _, _ => V
  end.

(** Distributed-load intensity at a station. *)
Definition intensity (x : Q) (q : Q) (l : LoadDefinition) : Q :=
  match l_x1 l, l_x2 l with
  | Some x1, Some x2 =>
      if Qle_bool x1 x && Qle_bool x x2 then
        match l_type l with
        | U => q + l_val l
        | T =>
            let r := (x - x1) / (x2 - x1) in
            q + (if peakRight l then r else (1 - r)) * l_val l
        | _ => q
        end
      else q
  | _, _ => q
  end.

(** Applied-moment jump at a station. *)
Definition pointMoment (x dx : Q) (Mo : Q) (l : LoadDefinition) : Q :=
  match l_type l, l_x l with
  | M, Some lx => if checkStep x lx dx then Mo - l_val l else Mo
  | _, _ => Mo
  end.

(** The body of the [for] loop: from the running [(V, M)] before station
    [i] to the pair pushed at station [i]. *)
Definition sweepStep (params : SimulationParams) (r : Reactions)
    (loads : list LoadDefinition) (dx : Q) (st : Q * Q) (i : nat) : Q * Q :=
  let (V, Mo) := st in
  let supA := diagSupA params in
  let supB := diagSupB params in
  let x := inject_Z (Z.of_nat i) * dx in
  let V1 :=
    if negb (isCantilever params) then
      let Va := if checkStep x supA dx then V + Ra r else V in
      if checkStep x supB dx then Va + Rb r else Va
    else if checkStep x 0 dx then V + Ra r else V in
  let V2 := fold_left (pointShear x dx) loads V1 in
  let q := fold_left (intensity x) loads 0 in
  let V3 := V2 - q * dx in
  let M1 := Mo + V3 * dx in
  let M2 := if isCantilever params && checkStep x 0 dx then M1 + - Ma r else M1 in
  let M3 := fold_left (pointMoment x dx) loads M2 in
  (V3, M3).

(** The pairs pushed at the given stations, in order. *)
Fixpoint sweep (step : Q * Q -> nat -> Q * Q) (st : Q * Q) (stations : list nat)
    : list (Q * Q) :=
  match stations with
  | [] => []
  | i :: rest => let st' := step st i in st' :: sweep step st' rest
  end.

Definition stepSize (params : SimulationParams) : Q :=
  length params / inject_Z (Z.of_nat nSamples).

Definition calculateAnalyticalDiagrams (params : SimulationParams) : DiagramData :=
  let r := solveReactions params in
  let dx := stepSize params in
  let stations := seq 0 (S nSamples) in
  let trace := sweep (sweepStep params r (loadsOf params) dx) (0, 0) stations in
  mkDiagram (map (fun i => inject_Z (Z.of_nat i) * dx) stations)
            (map fst trace) (map snd trace) r.

(** ** structuralAnalysis.ts: the piecewise polynomial builder *)

Record PolyCoeffs := mkPoly {
  m3 : Q; m2 : Q; m1 : Q; m0 : Q;
  v2 : Q; v1 : Q; v0 : Q
}.

Definition polyZero : PolyCoeffs := mkPoly 0 0 0 0 0 0 0.

(** The [+=] / [-=] updates of the code add a group of terms to the
    running coefficients; [polyAdd c d] is [c] after the updates [d]. *)
Definition polyAdd (c d : PolyCoeffs) : PolyCoeffs :=
  mkPoly (m3 c + m3 d) (m2 c + m2 d) (m1 c + m1 d) (m0 c + m0 d)
         (v2 c + v2 d) (v1 c + v1 d) (v0 c + v0 d).

(** A force [F] acting at [at_]: [v0 += F; m1 += F; m0 -= F * at_]. *)
Definition forceTerms (F at_ : Q) : PolyCoeffs :=
  mkPoly 0 0 F (- (F * at_)) 0 0 F.

(** Support positions as [getPolynomial] resolves them. *)
Definition polySupA (params : SimulationParams) : Q :=
  match beamType params with overhanging => supportA params | _ => 0 end.

Definition polySupB (params : SimulationParams) : Q :=
  match beamType params with overhanging => supportB params | _ => length params end.

(** "Reactions contributions". *)
Definition reactionTerms (xA : Q) (params : SimulationParams) (r : Reactions) : PolyCoeffs :=
  if isCantilever params then
    mkPoly 0 0 (Ra r) (- Ma r) 0 0 (Ra r)
  else
    let ca := if Qle_bool (polySupA params) xA
              then forceTerms (Ra r) (polySupA params) else polyZero in
    let cb := if Qle_bool (polySupB params) xA
              then forceTerms (Rb r) (polySupB params) else polyZero in
    polyAdd ca cb.

(** "Loads contributions": the updates one load makes on [xA, xB). *)
Definition loadTerms (xA xB : Q) (l : LoadDefinition) : PolyCoeffs :=
  match l_type l with
  | P =>
      match l_x l with
      | Some x => if Qle_bool x xA then mkPoly 0 0 (- l_val l) (l_val l * x) 0 0 (- l_val l)
                  else polyZero
      | None => polyZero
      end
  | M =>
      match l_x l with
      | Some x => if Qle_bool x xA then mkPoly 0 0 0 (- l_val l) 0 0 0 else polyZero
      | None => polyZero
      end
  | U =>
      match l_x1 l, l_x2 l with
      | Some x1, Some x2 =>
          if Qle_bool x2 xA then
            let F := l_val l * (x2 - x1) in
            let cent := (x1 + x2) / 2 in
            mkPoly 0 0 (- F) (F * cent) 0 0 (- F)
          else if Qle_bool x1 xA && Qle_bool xB x2 then
            mkPoly 0 (- ((1 # 2) * l_val l)) (l_val l * x1)
                   (- ((1 # 2) * l_val l * x1 * x1))
                   0 (- l_val l) (l_val l * x1)
          else polyZero
      | _, _ => polyZero
      end
  | T =>
      match l_x1 l, l_x2 l with
      | Some x1, Some x2 =>
          if Qle_bool x2 xA then
            let F := (1 # 2) * l_val l * (x2 - x1) in
            let dist := if peakRight l then (x2 - x1) / 3 else 2 * (x2 - x1) / 3 in
            let cent := x2 - dist in
            mkPoly 0 0 (- F) (F * cent) 0 0 (- F)
          else if Qle_bool x1 xA && Qle_bool xB x2 then
            let w := l_val l in
            let L := x2 - x1 in
            let k := w / (6 * L) in
            let kv := w / (2 * L) in
            if peakRight l then
              mkPoly (- k) (3 * k * x1) (- (3 * k * x1 * x1)) (k * x1 * x1 * x1)
                     (- kv) (2 * kv * x1) (- (kv * x1 * x1))
            else
              mkPoly k
                     (- ((1 # 2) * w) + - (3 * k * x1))
                     (w * x1 + 3 * k * x1 * x1)
                     (- ((1 # 2) * w * x1 * x1) + - (k * x1 * x1 * x1))
                     kv
                     (- w + - (2 * kv * x1))
                     (w * x1 + kv * x1 * x1)
          else polyZero
      | _, _ => polyZero
      end
  end.

Definition getPolynomial (xA xB : Q) (params : SimulationParams) (r : Reactions)
    : PolyCoeffs :=
  fold_left (fun c l => polyAdd c (loadTerms xA xB l)) (loadsOf params)
            (polyAdd polyZero (reactionTerms xA params r)).

(** The polynomials a coefficient set denotes. *)
Definition evalV (c : PolyCoeffs) (x : Q) : Q :=
  v2 c * x * x + v1 c * x + v0 c.

Definition evalM (c : PolyCoeffs) (x : Q) : Q :=
  m3 c * x * x * x + m2 c * x * x + m1 c * x + m0 c.

(** [formatPoly] prints the terms whose magnitude exceeds 0.001, highest
    power first; [shownTerms] is that list of (power, coefficient), the
    content of the printed string. *)
Definition shownTerms (terms : list (nat * Q)) : list (nat * Q) :=
  filter (fun t => Qlt_bool (1 # 1000) (Math_abs (snd t))) terms.

Definition formatPolyV (c : PolyCoeffs) : list (nat * Q) :=
  shownTerms [(2%nat, v2 c); (1%nat, v1 c); (0%nat, v0 c)].

Definition formatPolyM (c : PolyCoeffs) : list (nat * Q) :=
  shownTerms [(3%nat, m3 c); (2%nat, m2 c); (1%nat, m1 c); (0%nat, m0 c)].

(** ** structuralAnalysis.ts: the segment list *)

(** A [StepResult]: the interval and the polynomial of the segment; the
    [eq] and [int] strings of the source are renderings of [s_poly]
    through [formatPoly]. *)
Record StepResult := mkStep {
  s_poly : PolyCoeffs;
  s_xA : Q;
  s_xB : Q
}.

(** The points one load pushes on [pts]. *)
Definition loadPoints (l : LoadDefinition) : list Q :=
  match l_type l with
  | P | M => match l_x l with Some x => [x] | None => [] end
  | U | T =>
      match l_x1 l, l_x2 l with
      | Some x1, Some x2 => [x1; x2]
      | _, _ => []
      end
  end.

Definition rawPoints (params : SimulationParams) : list Q :=
  [0; length params]
    ++ (match beamType params with
        | overhanging => [supportA params; supportB params]
        | _ => []
        end)
    ++ flat_map loadPoints (loadsOf params).

(** [[...new Set(pts)]]: first occurrences, in insertion order. *)
Fixpoint uniqueQ (l : list Q) : list Q :=
  match l with
  | [] => []
  | a :: rest => a :: filter (fun b => negb (Qeq_bool a b)) (uniqueQ rest)
  end.

(** [.sort((a, b) => a - b)]: ascending order. *)
Fixpoint insertQ (a : Q) (l : list Q) : list Q :=
  match l with
  | [] => [a]
  | b :: rest => if Qle_bool a b then a :: l else b :: insertQ a rest
  end.

Fixpoint sortQ (l : list Q) : list Q :=
  match l with
  | [] => []
  | a :: rest => insertQ a (sortQ rest)
  end.

Definition breakpoints (params : SimulationParams) : list Q :=
  sortQ (uniqueQ (rawPoints params)).

(** The loop over consecutive points: intervals shorter than 0.01 are
    skipped. *)
Fixpoint segmentsOf (params : SimulationParams) (r : Reactions) (pts : list Q)
    : list StepResult :=
  match pts with
  | xA :: (xB :: _) as rest =>
      if Qlt_bool (Math_abs (xA - xB)) (1 # 100) then segmentsOf params r rest
      else mkStep (getPolynomial xA xB params r) xA xB :: segmentsOf params r rest
  | _ => []
  end.

Definition generateDetailedSteps (params : SimulationParams) (r : Reactions)
    : list StepResult :=
  segmentsOf params r (breakpoints params).

(** ** bearingPhysics.ts: the bearing load distribution, over the reals *)

Section BearingModel.
Local Open Scope R_scope.

Record BearingParams := mkBearing {
  outerRadius : R;
  innerRadius : R;
  ballCount : nat;
  radialLoad : R;
  rotationSpeed : R;
  contactAngle : R
}.

Record BearingElement := mkBall {
  be_angle : R;
  be_load : R;
  be_maxStress : R;
  be_deformation : R;
  be_x : R;
  be_y : R;
  be_radius : R
}.

(** [Math.pow(x, y)] with a fractional exponent [y > 0]: [x^y] for a
    positive base and 0 for a zero base.  A negative base gives NaN in
    the source; the code never reaches it ([bearing_pow_base_pos]). *)
Definition Math_powR (x y : R) : R :=
  if Rlt_dec 0 x then Rpower x y else 0.

Definition stribeckFactor : R := 5.

Definition maxBallLoad (params : BearingParams) : R :=
  (radialLoad params * stribeckFactor) / Rmax 1 (INR (ballCount params)).

Definition loadVectorAngle : R := 3 * PI / 2.

(** [theta] of ball [i]. *)
Definition ballAngle (params : BearingParams) (i : nat) : R :=
  (2 * PI * INR i) / INR (ballCount params).

(** [angleDiff] of ball [i]: the distance to the load vector, wrapped. *)
Definition angleDiff (params : BearingParams) (i : nat) : R :=
  let d := Rabs (ballAngle params i - loadVectorAngle) in
  if Rgt_dec d PI then 2 * PI - d else d.

Definition ballLoad (params : BearingParams) (i : nat) : R :=
  if Rlt_dec (angleDiff params i) (PI / 2)
  then maxBallLoad params * Math_powR (cos (angleDiff params i)) (3 / 2)
  else 0.

Definition ballElement (params : BearingParams) (i : nat) : BearingElement :=
  let pitchRadius := (outerRadius params + innerRadius params) / 2 in
  let ballDiameter := outerRadius params - innerRadius params in
  let ballRadius := ballDiameter / 2 in
  let theta := ballAngle params i in
  let q := ballLoad params i in
  mkBall theta q
         (if Rgt_dec q 0 then 50 * sqrt (q / ballDiameter) else 0)
         (if Rgt_dec q 0 then (1 / 1000) * Math_powR q (2 / 3) else 0)
         (pitchRadius * cos theta) (pitchRadius * sin theta) ballRadius.

Definition calculateBearingPhysics (params : BearingParams) : list BearingElement :=
  map (ballElement params) (seq 0 (ballCount params)).

(** Scenario C: a 12-ball bearing under a 5 kN radial load. *)
Definition scenarioC : BearingParams := mkBearing 100 60 12 5000 0 0.

End BearingModel.

(** ** Statics of a load list

    The resultants the equilibrium property speaks of, written from
    statics and not from the solver: forces are positive upwards,
    moments positive counter-clockwise, a load magnitude [val] acts
    downwards and an applied moment [val] counter-clockwise.  A record
    without its position fields describes no load. *)

Definition sumQ (l : list Q) : Q := fold_right Qplus 0 l.

(** The centroid of a triangular load: a third of the span from the
    peak end. *)
Definition triangleCentroid (l : LoadDefinition) (x1 x2 : Q) : Q :=
  if peakRight l then x2 - (x2 - x1) / 3 else x1 + (x2 - x1) / 3.

Definition loadForce (l : LoadDefinition) : Q :=
  match l_type l with
  | P => match l_x l with Some _ => - l_val l | None => 0 end
  | M => 0
  | U =>
      match l_x1 l, l_x2 l with
      | Some x1, Some x2 => - (l_val l * (x2 - x1))
      | _, _ => 0
      end
  | T =>
      match l_x1 l, l_x2 l with
      | Some x1, Some x2 => - ((1 # 2) * l_val l * (x2 - x1))
      | _, _ => 0
      end
  end.

Definition loadMoment (pivot : Q) (l : LoadDefinition) : Q :=
  match l_type l with
  | P => match l_x l with Some x => - l_val l * (x - pivot) | None => 0 end
  | M => l_val l
  | U =>
      match l_x1 l, l_x2 l with
      | Some x1, Some x2 => - (l_val l * (x2 - x1)) * ((x1 + x2) / 2 - pivot)
      | _, _ => 0
      end
  | T =>
      match l_x1 l, l_x2 l with
      | Some x1, Some x2 =>
          - ((1 # 2) * l_val l * (x2 - x1)) * (triangleCentroid l x1 x2 - pivot)
      | _, _ => 0
      end
  end.

(** Sum of the vertical forces on the beam: reactions and loads. *)
Definition totalForce (params : SimulationParams) (r : Reactions) : Q :=
  Ra r + Rb r + sumQ (map loadForce (loadsOf params)).

(** Sum of the moments about [pivot]: the reactions at their supports,
    the wall moment, and the loads. *)
Definition totalMoment (params : SimulationParams) (r : Reactions) (pivot : Q) : Q :=
  Ra r * (diagSupA params - pivot) + Rb r * (diagSupB params - pivot) + Ma r
  + sumQ (map (loadMoment pivot) (loadsOf params)).

(** ** Coincident supports *)

(** The supports of a two-support beam are distinct for the solver when
    they are at least 1e-6 apart. *)
Definition supportsApart (params : SimulationParams) : Prop :=
  (1 # 1000000) <= Qabs (diagSupB params - diagSupA params).

(** The supports of a two-support beam coincide for the solver when they
    are less than 1e-6 apart. *)
Definition coincidentSupports (params : SimulationParams) : Prop :=
  Qabs (diagSupB params - diagSupA params) < (1 # 1000000).

(** What it takes for the result to flag degenerate configurations to the
    caller: some reading [flagged] of the returned record that is set
    exactly for the two-support configurations with coincident supports. *)
Definition flagsDegenerate (flagged : DiagramData -> bool) : Prop :=
  forall params, beamType params <> cantilever ->
    (flagged (calculateAnalyticalDiagrams params) = true <-> coincidentSupports params).

(** ** Deflection over the mesh *)

(** The largest magnitude of a list of values. *)
Definition maxAbsQ (l : list Q) : Q :=
  fold_right (fun v m => Qmax (Qabs v) m) 0 l.

(** The node indices the statistics visit: the four corners of every
    cell, in mesh order. *)
Definition meshIndices (params : SimulationParams) : list (nat * nat) :=
  flat_map (fun i => flat_map (fun j => cellCorners i j) (seq 0 (meshDensityY params)))
           (seq 0 (meshDensityX params)).

(** The physical deflection [v] at mesh node [(i, j)]. *)
Definition nodeDeflection (params : SimulationParams) (ij : nat * nat) : Q :=
  f_v (nodeField params
         (inject_Z (Z.of_nat (fst ij))
          * (length params / inject_Z (Z.of_nat (meshDensityX params))))).

(** The maximum physical deflection, max |v| over the mesh nodes. *)
Definition maxPhysicalDeflection (params : SimulationParams) : Q :=
  maxAbsQ (map (nodeDeflection params) (meshIndices params)).

(** ** Shape of a segment list *)

(** Each segment ends where the next one starts. *)
Definition contiguous (segs : list StepResult) : Prop :=
  Sorted (fun s1 s2 => s_xB s1 == s_xA s2) segs.

(** Every segment lies to the left of all later ones: ascending and
    non-overlapping. *)
Definition ascending (segs : list StepResult) : Prop :=
  StronglySorted (fun s1 s2 => s_xB s1 <= s_xA s2) segs.

(** The half-open intervals of [segs] have union [[a, b)]. *)
Definition covers (segs : list StepResult) (a b : Q) : Prop :=
  forall x, a <= x < b <-> exists s, In s segs /\ s_xA s <= x < s_xB s.

(** All break points lie on the beam, and distinct break points are at
    least 0.01 apart. *)
Definition wellSpaced (params : SimulationParams) : Prop :=
  (forall a, In a (rawPoints params) -> 0 <= a <= length params)
  /\ (forall a b, In a (rawPoints params) -> In b (rawPoints params) ->
        a == b \/ (1 # 100) <= Qabs (a - b)).

(** No break point lies strictly between [a] and [b]. *)
Definition gapFree (params : SimulationParams) (a b : Q) : Prop :=
  forall p, In p (rawPoints params) -> p <= a \/ b <= p.

(** [a] and [b] are neighbours in [pts]. *)
Definition consecutive (a b : Q) (pts : list Q) : Prop :=
  exists l1 l2, pts = l1 ++ a :: b :: l2.

(** Neighbouring break points at least 0.01 apart. *)
Definition spaced (a b : Q) : Prop := (1 # 100) <= b - a.

(** The last element of [x0 :: pts]. *)
Definition lastFrom (x0 : Q) (pts : list Q) : Q := fold_left (fun _ y => y) pts x0.

(** ** Jumps of the exact diagrams

    The point actions located at [b]: a point load of magnitude [val]
    lowers the shear by [val], an applied moment [val] lowers the bending
    moment by [val], and on a two-support beam a support at [b] raises
    the shear by its reaction. *)

Definition loadJumpV (b : Q) (l : LoadDefinition) : Q :=
  match l_type l, l_x l with
  | P, Some x => if Qeq_bool x b then - l_val l else 0
  | _, _ => 0
  end.

Definition loadJumpM (b : Q) (l : LoadDefinition) : Q :=
  match l_type l, l_x l with
  | M, Some x => if Qeq_bool x b then - l_val l else 0
  | _, _ => 0
  end.

Definition supportJump (params : SimulationParams) (r : Reactions) (b : Q) : Q :=
  if isCantilever params then 0
  else (if Qeq_bool (polySupA params) b then Ra r else 0)
       + (if Qeq_bool (polySupB params) b then Rb r else 0).

Definition shearJumpAt (params : SimulationParams) (r : Reactions) (b : Q) : Q :=
  supportJump params r b + sumQ (map (loadJumpV b) (loadsOf params)).

Definition momentJumpAt (params : SimulationParams) (b : Q) : Q :=
  sumQ (map (loadJumpM b) (loadsOf params)).

(** A distributed load runs from [x1] to [x2] with [x1 <= x2]. *)
Definition rangeOrdered (l : LoadDefinition) : Prop :=
  match l_type l, l_x1 l, l_x2 l with
  | U, Some x1, Some x2 => x1 <= x2
  | T, Some x1, Some x2 => x1 <= x2
  | _, _, _ => True
  end.

(** No point load, applied moment or support acts at [b]. *)
Definition noPointLoadAt (params : SimulationParams) (b : Q) : Prop :=
  forall l x, In l (loadsOf params) -> l_type l = P -> l_x l = Some x -> ~ x == b.

Definition noMomentAt (params : SimulationParams) (b : Q) : Prop :=
  forall l x, In l (loadsOf params) -> l_type l = M -> l_x l = Some x -> ~ x == b.

Definition noSupportAt (params : SimulationParams) (b : Q) : Prop :=
  isCantilever params = true
  \/ (~ polySupA params == b /\ ~ polySupB params == b).

(** ** The sweep as a sum of sources

    The loop body adds to the running shear the point actions that fall
    on the station and takes off the load intensity times [dx], then
    adds the new shear times [dx] and the moment jumps to the running
    moment.  [advance] is that update for one group of actions;
    [runInc] iterates it over the stations 0 .. i. *)

Record Increment := mkInc { inc_v : Q; inc_q : Q; inc_m : Q }.

Definition incZero : Increment := mkInc 0 0 0.

Definition incAdd (a b : Increment) : Increment :=
  mkInc (inc_v a + inc_v b) (inc_q a + inc_q b) (inc_m a + inc_m b).

Definition advance (dx : Q) (st : Q * Q) (c : Increment) : Q * Q :=
  let v := fst st + inc_v c - inc_q c * dx in
  (v, snd st + v * dx + inc_m c).

Fixpoint runInc (dx : Q) (inc : nat -> Increment) (i : nat) : Q * Q :=
  match i with
  | O => advance dx (0, 0) (inc O)
  | S k => advance dx (runInc dx inc k) (inc i)
  end.

(** Station [i] of the sweep. *)
Definition station (dx : Q) (i : nat) : Q := inject_Z (Z.of_nat i) * dx.

(** The running pair [(V, M)] pushed at station [i]. *)
Fixpoint sweepState (step : Q * Q -> nat -> Q * Q) (i : nat) : Q * Q :=
  match i with
  | O => step (0, 0) O
  | S k => step (sweepState step k) i
  end.

(** What one load contributes at station [i]. *)
Definition loadInc (dx : Q) (l : LoadDefinition) (i : nat) : Increment :=
  let x := station dx i in
  mkInc (pointShear x dx 0 l) (intensity x 0 l) (pointMoment x dx 0 l).

(** What the reactions contribute at station [i]. *)
Definition reactionInc (params : SimulationParams) (r : Reactions) (dx : Q) (i : nat)
    : Increment :=
  let x := station dx i in
  if isCantilever params then
    if checkStep x 0 dx then mkInc (Ra r) 0 (- Ma r) else incZero
  else
    incAdd (if checkStep x (diagSupA params) dx then mkInc (Ra r) 0 0 else incZero)
           (if checkStep x (diagSupB params) dx then mkInc (Rb r) 0 0 else incZero).

(** The three kinds of source: a point action at [t] (a force [F] and a
    moment jump [J]), a uniform intensity [w] on [[x1, x2]], and a ramp
    rising from 0 at [x1] to [w] at [x2]. *)
Definition impulseInc (dx t F J : Q) (i : nat) : Increment :=
  if checkStep (station dx i) t dx then mkInc F 0 J else incZero.

Definition uniformInc (dx w x1 x2 : Q) (i : nat) : Increment :=
  if Qle_bool x1 (station dx i) && Qle_bool (station dx i) x2
  then mkInc 0 w 0 else incZero.

Definition rampInc (dx w x1 x2 : Q) (i : nat) : Increment :=
  if Qle_bool x1 (station dx i) && Qle_bool (station dx i) x2
  then mkInc 0 ((station dx i - x1) / (x2 - x1) * w) 0 else incZero.

(** The state a point action has produced at position [x]: nothing
    before [t]; from [t] on the shear [F] and the moment of [F] with an
    arm that is too long by at most one step. *)
Definition impulseInv (dx t F J x v m : Q) : Prop :=
  (x < t /\ v == 0 /\ m == 0)
  \/ (t <= x /\ v == F /\ exists u, 0 <= u <= dx /\ m == F * (x - t + u) + J).

(** The state a uniform load has produced at [x].  Inside the span the
    sweep has counted a length [D = x - x1 + u] that exceeds the true
    one by [u <= dx]; beyond the span the counted length [y + u] stays
    within [dx] of the true length. *)
Definition uniformInv (dx w x1 x2 x v m : Q) : Prop :=
  (x < x1 /\ v == 0 /\ m == 0)
  \/ (x1 <= x <= x2 /\ exists u, 0 <= u <= dx /\ dx <= x - x1 + u
       /\ v == - w * (x - x1 + u)
       /\ m == - w * ((x - x1 + u) * (x - x1 + u + dx) / 2))
  \/ (x2 < x /\ exists y u, 0 <= u <= dx /\ 0 <= y /\ x2 - x1 - dx < y <= x2 - x1
       /\ y <= x - x1
       /\ v == - w * (y + u)
       /\ m == - w * ((y + u) * (y + u + dx) / 2 + (y + u) * (x - x1 - y))).

(** The sums a ramp accumulates over a counted length [D] with excess
    [u]: [rampV] for the shear and [rampM] for the moment, both to be
    scaled by [- w / (x2 - x1)]. *)
Definition rampV (dx D u : Q) : Q := D * (D + dx) / 2 - D * u.

Definition rampM (dx D u : Q) : Q :=
  D * (D + dx) * (D + 2 * dx) / 6 - u * D * (D + dx) / 2.

Definition rampInv (dx w x1 x2 x v m : Q) : Prop :=
  (x < x1 /\ v == 0 /\ m == 0)
  \/ (x1 <= x <= x2 /\ exists u, 0 <= u <= dx /\ dx <= x - x1 + u
       /\ v == - (w / (x2 - x1)) * rampV dx (x - x1 + u) u
       /\ m == - (w / (x2 - x1)) * rampM dx (x - x1 + u) u)
  \/ (x2 < x /\ exists y u, 0 <= u <= dx /\ 0 <= y /\ x2 - x1 - dx < y <= x2 - x1
       /\ y <= x - x1
       /\ ((y == 0 /\ u == 0) \/ dx <= y + u)
       /\ v == - (w / (x2 - x1)) * rampV dx (y + u) u
       /\ m == - (w / (x2 - x1))
                 * (rampM dx (y + u) u + (x - x1 - y) * rampV dx (y + u) u)).

(** ** Tolerances of the sweep

    How far the sweep can be from the exact diagrams, per unit of step:
    each distributed load can shift the shear by one step of its
    intensity, each point force can shift the moment by one step of its
    arm, and each distributed load by a multiple of its intensity times
    the length swept. *)

(** A distributed load runs from [x1] to [x2] with [x1 < x2]. *)
Definition rangeStrict (l : LoadDefinition) : Prop :=
  match l_type l, l_x1 l, l_x2 l with
  | U, Some x1, Some x2 => x1 < x2
  | T, Some x1, Some x2 => x1 < x2
  | _, _, _ => True
  end.

Definition shearTol (l : LoadDefinition) : Q :=
  match l_type l, l_x1 l, l_x2 l with
  | U, Some _, Some _ => Qabs (l_val l)
  | T, Some _, Some _ => if peakRight l then Qabs (l_val l) else 2 * Qabs (l_val l)
  | _, _, _ => 0
  end.

Definition momentTol (reach : Q) (l : LoadDefinition) : Q :=
  match l_type l with
  | P => match l_x l with Some _ => Qabs (l_val l) | None => 0 end
  | M => 0
  | U =>
      match l_x1 l, l_x2 l with
      | Some _, Some _ => 2 * (Qabs (l_val l) * reach)
      | _, _ => 0
      end
  | T =>
      match l_x1 l, l_x2 l with
      | Some _, Some _ =>
          if peakRight l then Qabs (l_val l) * reach else 3 * (Qabs (l_val l) * reach)
      | _, _ => 0
      end
  end.

(** The length swept, with three steps of slack. *)
Definition reach (params : SimulationParams) : Q :=
  length params + 3 * stepSize params.

Definition shearTolerance (params : SimulationParams) : Q :=
  sumQ (map shearTol (loadsOf params)).

Definition momentTolerance (params : SimulationParams) (r : Reactions) : Q :=
  Qabs (Ra r) + Qabs (Rb r) + sumQ (map (momentTol (reach params)) (loadsOf params)).

(** Agreement to within 1% of the local magnitude. *)
Definition withinOnePercent (numeric exact : Q) : Prop :=
  Qabs (numeric - exact) <= (1 # 100) * Qabs exact.

(** The same load as a uniform load, and as a triangular load peaking on
    the right. *)
Definition asUniform (l : LoadDefinition) : LoadDefinition :=
  mkLoad (l_id l) U (l_val l) (l_x l) (l_x1 l) (l_x2 l) (l_peak l).

Definition asRamp (l : LoadDefinition) : LoadDefinition :=
  mkLoad (l_id l) T (l_val l) (l_x l) (l_x1 l) (l_x2 l) (Some peak_right).

(** ** The sweep as the source compares

    The comparisons of the loop are made on doubles: the station is the
    product [i * dx] rounded, the step is the quotient [L / n] rounded,
    and [checkStep] compares the station with the rounded sum
    [target + dx].  A rounding can move a station across one of these
    thresholds, so the tests are embedded in binary64 as the source
    evaluates them; the running sums stay exact. *)

(** A number as the source receives it: the double nearest to the
    rational (numerator and denominator below 2^53, converted without
    error, and one correctly rounded division). *)
Fixpoint P2F (p : positive) : PrimFloat.float :=
  match p with
  | xH => PrimFloat.one
  | xO p' => PrimFloat.mul PrimFloat.two (P2F p')
  | xI p' => PrimFloat.add (PrimFloat.mul PrimFloat.two (P2F p')) PrimFloat.one
  end.

Definition Z2F (z : Z) : PrimFloat.float :=
  match z with
  | Z0 => PrimFloat.zero
  | Zpos p => P2F p
  | Zneg p => PrimFloat.opp (P2F p)
  end.

Definition Q2F (q : Q) : PrimFloat.float :=
  PrimFloat.div (Z2F (Qnum q)) (P2F (Qden q)).

(** [x >= target && x < target + dx] on doubles. *)
Definition checkStep64 (x target dx : PrimFloat.float) : bool :=
  PrimFloat.leb target x && PrimFloat.ltb x (PrimFloat.add target dx).

(** [const dx = L / n] and [let x = i * dx] on doubles. *)
Definition stepSize64 (params : SimulationParams) : PrimFloat.float :=
  PrimFloat.div (Q2F (length params)) (Z2F (Z.of_nat nSamples)).

Definition station64 (dx : PrimFloat.float) (i : nat) : PrimFloat.float :=
  PrimFloat.mul (Z2F (Z.of_nat i)) dx.

Definition pointShear64 (xf dxf : PrimFloat.float) (V : Q) (l : LoadDefinition) : Q :=
  match l_type l, l_x l with
  | P, Some lx => if checkStep64 xf (Q2F lx) dxf then V - l_val l else V
  | _, _ => V
  end.

Definition intensity64 (xf : PrimFloat.float) (x : Q) (q : Q) (l : LoadDefinition) : Q :=
  match l_x1 l, l_x2 l with
  | Some x1, Some x2 =>
      if PrimFloat.leb (Q2F x1) xf && PrimFloat.leb xf (Q2F x2) then
        match l_type l with
        | U => q + l_val l
        | T =>
            let r := (x - x1) / (x2 - x1) in
            q + (if peakRight l then r else (1 - r)) * l_val l
        | _ => q
        end
      else q
  | _, _ => q
  end.

Definition pointMoment64 (xf dxf : PrimFloat.float) (Mo : Q) (l : LoadDefinition) : Q :=
  match l_type l, l_x l with
  | M, Some lx => if checkStep64 xf (Q2F lx) dxf then Mo - l_val l else Mo
  | _, _ => Mo
  end.

(** The body of the [for] loop with its tests on doubles. *)
Definition sweepStep64 (params : SimulationParams) (r : Reactions)
    (loads : list LoadDefinition) (dx : Q) (dxf : PrimFloat.float)
    (st : Q * Q) (i : nat) : Q * Q :=
  let (V, Mo) := st in
  let supA := Q2F (diagSupA params) in
  let supB := Q2F (diagSupB params) in
  let x := inject_Z (Z.of_nat i) * dx in
  let xf := station64 dxf i in
  let V1 :=
    if negb (isCantilever params) then
      let Va := if checkStep64 xf supA dxf then V + Ra r else V in
      if checkStep64 xf supB dxf then Va + Rb r else Va
    else if checkStep64 xf (Q2F 0) dxf then V + Ra r else V in
  let V2 := fold_left (pointShear64 xf dxf) loads V1 in
  let q := fold_left (intensity64 xf x) loads 0 in
  let V3 := V2 - q * dx in
  let M1 := Mo + V3 * dx in
  let M2 := if isCantilever params && checkStep64 xf (Q2F 0) dxf then M1 + - Ma r else M1 in
  let M3 := fold_left (pointMoment64 xf dxf) loads M2 in
  (V3, M3).

(** [calculateAnalyticalDiagrams] with the tests of its loop on doubles. *)
Definition calculateAnalyticalDiagrams64 (params : SimulationParams) : DiagramData :=
  let r := solveReactions params in
  let dx := stepSize params in
  let stations := seq 0 (S nSamples) in
  let trace :=
    sweep (sweepStep64 params r (loadsOf params) dx (stepSize64 params)) (0, 0) stations in
  mkDiagram (map (fun i => inject_Z (Z.of_nat i) * dx) stations)
            (map fst trace) (map snd trace) r.

(** The positions a station is compared with: the supports and the
    break points of the loads. *)
Definition sweepPoints (params : SimulationParams) : list Q :=
  0 :: diagSupA params :: diagSupB params :: rawPoints params.

(** At station [i] the roundings move nothing: against every position
    [p] the tests [checkStep(x, p, dx)], [p <= x] and [x <= p] come out on
    doubles as they do on the exact station. *)
Definition stationExact (params : SimulationParams) (i : nat) : bool :=
  let dx := stepSize params in
  let dxf := stepSize64 params in
  let x := station dx i in
  let xf := station64 dxf i in
  forallb (fun p => Bool.eqb (checkStep64 xf (Q2F p) dxf) (checkStep x p dx)
                    && Bool.eqb (PrimFloat.leb (Q2F p) xf) (Qle_bool p x)
                    && Bool.eqb (PrimFloat.leb xf (Q2F p)) (Qle_bool x p))
          (sweepPoints params).

(** The roundings move no station of the sweep. *)
Definition stationsExact (params : SimulationParams) : bool :=
  forallb (stationExact params) (seq 0 (S nSamples)).

(** ** Clamping *)

(** The load position clamped into [0, L]: [min(max(position, 0), L)]. *)
Definition clampPosition (params : SimulationParams) : Q :=
  Qmin (Qmax (loadPosition params) 0) (length params).

(** ** Sample configurations *)

(** The application's initial beam (App.tsx): an 8 m simply supported
    beam, rectangular section 0.2 x 0.5, a 50 kN load at mid-span; taken
    here on a 40 x 10 mesh and with a 10 mm web for its I-beam variant. *)
Definition defaultParams : SimulationParams :=
  mkParams 8 (1 # 2) (-50000) 200000000000 250000000 40 10 50
           simplySupported 4 1 7 [] rectangular (1 # 5) (3 # 10) (1 # 50) (1 # 100).

Definition withSection (params : SimulationParams) (s : SectionType) : SimulationParams :=
  mkParams (length params) (height params) (force params) (youngsModulus params)
           (yieldStrength params) (meshDensityX params) (meshDensityY params)
           (deformationScale params) (beamType params) (loadPosition params)
           (supportA params) (supportB params) (customLoads params) s
           (sectionWidth params) (flangeWidth params) (flangeThickness params)
           (webThickness params).

Definition withBeam (params : SimulationParams) (b : BeamType) (sA sB : Q)
    : SimulationParams :=
  mkParams (length params) (height params) (force params) (youngsModulus params)
           (yieldStrength params) (meshDensityX params) (meshDensityY params)
           (deformationScale params) b (loadPosition params)
           sA sB (customLoads params) (sectionType params)
           (sectionWidth params) (flangeWidth params) (flangeThickness params)
           (webThickness params).

Definition withLoadPosition (params : SimulationParams) (a : Q) : SimulationParams :=
  mkParams (length params) (height params) (force params) (youngsModulus params)
           (yieldStrength params) (meshDensityX params) (meshDensityY params)
           (deformationScale params) (beamType params) a
           (supportA params) (supportB params) (customLoads params) (sectionType params)
           (sectionWidth params) (flangeWidth params) (flangeThickness params)
           (webThickness params).

Definition withScale (params : SimulationParams) (s : Q) : SimulationParams :=
  mkParams (length params) (height params) (force params) (youngsModulus params)
           (yieldStrength params) (meshDensityX params) (meshDensityY params)
           s (beamType params) (loadPosition params)
           (supportA params) (supportB params) (customLoads params) (sectionType params)
           (sectionWidth params) (flangeWidth params) (flangeThickness params)
           (webThickness params).

Definition withLoads (params : SimulationParams) (ls : list LoadDefinition)
    : SimulationParams :=
  mkParams (length params) (height params) (force params) (youngsModulus params)
           (yieldStrength params) (meshDensityX params) (meshDensityY params)
           (deformationScale params) (beamType params) (loadPosition params)
           (supportA params) (supportB params) ls (sectionType params)
           (sectionWidth params) (flangeWidth params) (flangeThickness params)
           (webThickness params).

Definition ibeamExample : SimulationParams := withSection defaultParams ibeam.

(** Two supports half a micrometre apart, the load two metres to their
    right. *)
Definition closeSupports : SimulationParams :=
  withLoadPosition (withBeam defaultParams overhanging 4 (4 + (1 # 2000000))) 6.

(** Both supports at x = 4 under the load, and the same beam with the
    right support moved to x = 5. *)
Definition coincidentAtLoad : SimulationParams :=
  withBeam defaultParams overhanging 4 4.

Definition apartAtLoad : SimulationParams :=
  withBeam defaultParams overhanging 4 5.

(** The base load placed two metres beyond the right end of the beam. *)
Definition loadBeyondEnd : SimulationParams :=
  withLoadPosition defaultParams 10.

(** A cantilever of the same section with the load at its free end. *)
Definition cantileverTip : SimulationParams :=
  withLoadPosition (withBeam defaultParams cantilever 1 7) 8.

Definition withMesh (params : SimulationParams) (nx ny : nat) : SimulationParams :=
  mkParams (length params) (height params) (force params) (youngsModulus params)
           (yieldStrength params) nx ny
           (deformationScale params) (beamType params) (loadPosition params)
           (supportA params) (supportB params) (customLoads params) (sectionType params)
           (sectionWidth params) (flangeWidth params) (flangeThickness params)
           (webThickness params).

(** The default beam on a 4 x 2 mesh with the deformation scale set to 0. *)
Definition zeroScale : SimulationParams := withScale (withMesh defaultParams 4 2) 0.

(** The default beam on a 4 x 2 mesh, deformation scale 50. *)
Definition smallMesh : SimulationParams := withMesh defaultParams 4 2.

(** The base load 5 mm from the left end. *)
Definition nearEndLoad : SimulationParams := withLoadPosition defaultParams (1 # 200).

(** The default beam on interior supports at x = 1 and x = 7. *)
Definition overhangDefault : SimulationParams := withBeam defaultParams overhanging 1 7.

Definition overhangSegments : list StepResult :=
  generateDetailedSteps overhangDefault (solveReactions overhangDefault).

Definition noSegment : StepResult := mkStep polyZero 0 0.

(** A beam carrying one load of each kind: a point load at 2, a uniform
    load on [2, 6], a triangular load on [4, 8] peaking on the right and
    an applied moment at 6. *)
Definition mixedLoads : SimulationParams :=
  withLoads defaultParams
    [ mkLoad 1 P 1000 (Some 2) None None None;
      mkLoad 2 U 500 None (Some 2) (Some 6) None;
      mkLoad 3 T 300 None (Some 4) (Some 8) (Some peak_right);
      mkLoad 4 M 200 (Some 6) None None None ].

Definition mixedSegments : list StepResult :=
  generateDetailedSteps mixedLoads (solveReactions mixedLoads).

Definition defaultSegments : list StepResult :=
  generateDetailedSteps defaultParams (solveReactions defaultParams).

(** The base load at the slider value 0.1, the fifth station of the
    sweep. *)
Definition loadOnStation : SimulationParams := withLoadPosition defaultParams (1 # 10).

Definition loadOnStationSegments : list StepResult :=
  generateDetailedSteps loadOnStation (solveReactions loadOnStation).

(** ** ControlPanel.tsx: parameter edits *)

(** The [(key, value)] pairs of [handleChange], one constructor per beam
    field.  (The [mode] and [bearing] keys do not touch the beam fields.) *)
Inductive ParamChange :=
| set_length (value : Q)
| set_height (value : Q)
| set_force (value : Q)
| set_youngsModulus (value : Q)
| set_yieldStrength (value : Q)
| set_meshDensityX (value : nat)
| set_meshDensityY (value : nat)
| set_deformationScale (value : Q)
| set_beamType (value : BeamType)
| set_loadPosition (value : Q)
| set_supportA (value : Q)
| set_supportB (value : Q)
| set_customLoads (value : list LoadDefinition)
| set_sectionType (value : SectionType)
| set_sectionWidth (value : Q)
| set_flangeWidth (value : Q)
| set_flangeThickness (value : Q)
| set_webThickness (value : Q).

(** The object spread [{ ...params, [key]: value }]. *)
Definition spread (params : SimulationParams) (c : ParamChange) : SimulationParams :=
  mkParams
    (match c with set_length v => v | _ => length params end)
    (match c with set_height v => v | _ => height params end)
    (match c with set_force v => v | _ => force params end)
    (match c with set_youngsModulus v => v | _ => youngsModulus params end)
    (match c with set_yieldStrength v => v | _ => yieldStrength params end)
    (match c with set_meshDensityX v => v | _ => meshDensityX params end)
    (match c with set_meshDensityY v => v | _ => meshDensityY params end)
    (match c with set_deformationScale v => v | _ => deformationScale params end)
    (match c with set_beamType v => v | _ => beamType params end)
    (match c with set_loadPosition v => v | _ => loadPosition params end)
    (match c with set_supportA v => v | _ => supportA params end)
    (match c with set_supportB v => v | _ => supportB params end)
    (match c with set_customLoads v => v | _ => customLoads params end)
    (match c with set_sectionType v => v | _ => sectionType params end)
    (match c with set_sectionWidth v => v | _ => sectionWidth params end)
    (match c with set_flangeWidth v => v | _ => flangeWidth params end)
    (match c with set_flangeThickness v => v | _ => flangeThickness params end)
    (match c with set_webThickness v => v | _ => webThickness params end).

(** [handleChange]: the spread, and when the length is set below the
    load position the load position is set to the new length. *)
Definition handleChange (params : SimulationParams) (c : ParamChange) : SimulationParams :=
  let newParams := spread params c in
  match c with
  | set_length value =>
      if Qlt_bool value (loadPosition params)
      then withLoadPosition newParams value else newParams
  | _ => newParams
  end.

Inductive Material := steel | aluminum | wood.

(** [applyMaterial]: Young's modulus and yield strength of the preset. *)
Definition applyMaterial (params : SimulationParams) (type : Material) : SimulationParams :=
  let E := match type with
           | steel => 200000000000 | aluminum => 70000000000 | wood => 11000000000
           end in
  let Yield := match type with
               | steel => 250000000 | aluminum => 95000000 | wood => 40000000
               end in
  spread (spread params (set_youngsModulus E)) (set_yieldStrength Yield).

(** ** AnalysisOverlay.tsx, RightPanel.tsx: the result panel *)

(** [yieldStrength / Math.max(1, Math.abs(maxStress))] *)
Definition safetyFactor (params : SimulationParams) (stress : Q) : Q :=
  yieldStrength params / Math_max 1 (Math_abs stress).

Inductive SafetyColor := text_red | text_yellow | text_emerald.

Definition getSafetyColor (sf : Q) : SafetyColor :=
  if Qlt_bool sf 1 then text_red
  else if Qlt_bool sf (3 # 2) then text_yellow
  else text_emerald.

(** The stress bar is red when [maxStress > params.yieldStrength]. *)
Definition stressBarRed (params : SimulationParams) (stress : Q) : bool :=
  Qlt_bool (yieldStrength params) stress.

(** The width of the stress bar, in percent. *)
Definition stressBarWidth (params : SimulationParams) (stress : Q) : Q :=
  Math_min 100 ((stress / yieldStrength params) * 100).

(** The reactions the panel prints: [R1], [R2], [M1]. *)
Record PanelReactions := mkPanel { R1 : Q; R2 : Q; M1 : Q }.

Definition panelReactions (params : SimulationParams) : PanelReactions :=
  match beamType params with
  | cantilever =>
      mkPanel (Math_abs (force params)) 0
              (Math_abs (force params * loadPosition params))
  | _ =>
      let L := length params in
      let a := loadPosition params in
      let b := L - a in
      mkPanel (Math_abs (force params * b / L)) (Math_abs (force params * a / L)) 0
  end.

(** ** AIAssistant.tsx: the figures of the simulation context *)

(** [yieldStrength / Math.max(1, stats.maxStress)] *)
Definition contextSafetyFactor (params : SimulationParams) (stats : BeamStats) : Q :=
  yieldStrength params / Math_max 1 (maxStress stats).

(** [length / Math.max(0.0001, stats.maxDeflection)] *)
Definition deflectionRatio (params : SimulationParams) (stats : BeamStats) : Q :=
  length params / Math_max (1 # 10000) (maxDeflection stats).

(** ** BeamVisualizer.tsx: colour range *)

(** The domain [[minStress, maxStress]] of the colour scale. *)
Definition stressRange (stats : BeamStats) : Q * Q :=
  let absMax := Math_max (maxStress stats) 100 in
  (- absMax, absMax).

(** ** CrossSectionVisualizer.tsx: the colour of the top fibre *)

Definition isTopTension (params : SimulationParams) : bool :=
  match beamType params with
  | cantilever => Qlt_bool (force params) 0
  | _ => Qlt_bool 0 (force params)
  end.

(** ** Preconditions of the field solver *)

(** The divisors of [calculateBeamPhysics] are positive: the length,
    Young's modulus, the moment of inertia and both mesh densities. *)
Definition solvable (params : SimulationParams) : Prop :=
  0 < length params
  /\ 0 < youngsModulus params
  /\ 0 < sec_I (calculateSectionProperties params)
  /\ (0 < meshDensityX params)%nat
  /\ (0 < meshDensityY params)%nat.

(** ** Shape of the segment polynomials *)

(** The shear coefficients are, term by term, the derivative of the
    moment coefficients. *)
Definition shearIsMomentSlope (c : PolyCoeffs) : Prop :=
  3 * m3 c == v2 c /\ 2 * m2 c == v1 c /\ m1 c == v0 c.

(** The slope of the shear polynomial at [x]. *)
Definition slopeV (c : PolyCoeffs) (x : Q) : Q := 2 * v2 c * x + v1 c.

(** A point, uniform or triangular load whose record lacks a position
    field that its kind needs. *)
Definition unplaced (l : LoadDefinition) : Prop :=
  match l_type l with
  | P => l_x l = None
  | M => False
  | U | T => l_x1 l = None \/ l_x2 l = None
  end.

(** An applied moment carries its position. *)
Definition momentPlaced (l : LoadDefinition) : Prop :=
  l_type l = M -> l_x l <> None.

(** ** DiagramView.tsx: the load manager *)

(** [addLoad]: the new record takes its fields from the input boxes;
    [id] is the time stamp. *)
Definition addLoad (params : SimulationParams) (id : nat) (selectedLoadType : LoadType)
    (inputVal inputX inputX2 : Q) (inputPeak : PeakSide) : SimulationParams :=
  let newLoad := mkLoad id selectedLoadType inputVal
                        (Some inputX) (Some inputX) (Some inputX2) (Some inputPeak) in
  spread params (set_customLoads (customLoads params ++ [newLoad])).

Definition removeLoad (params : SimulationParams) (id : nat) : SimulationParams :=
  spread params
    (set_customLoads (filter (fun l => negb (Nat.eqb (l_id l) id)) (customLoads params))).

Definition clearLoads (params : SimulationParams) : SimulationParams :=
  spread params (set_customLoads []).

(** ** DiagramView.tsx: the scaling of [drawGraph] *)

(** [Math.max(...data.map(Math.abs), 0.1)] *)
Definition graphMaxVal (data : list Q) : Q :=
  fold_right (fun v m => Math_max (Math_abs v) m) (1 # 10) data.

(** The height [v * sY] at which the value [v] is drawn, with [h = 80]. *)
Definition graphHeight (data : list Q) (v : Q) : Q :=
  let h := 80 in
  let sY := (h / 2) / graphMaxVal data in
  v * sY.

(** The abscissa of sample [i] on a canvas of width [W]. *)
Definition graphX (W pad : Q) (data : list Q) (i : nat) : Q :=
  pad + (inject_Z (Z.of_nat i) / inject_Z (Z.of_nat (List.length data - 1))) * (W - 2 * pad).

(** ** App.tsx: the list of simulations *)

(** The name of a case: ['Design Case 1'] or [`Case ${n}`]. *)
Inductive SimName := DesignCase1 | CaseN (n : nat).

(** A [SimulationInstance].  The [id] is ['1'] or a time stamp printed
    in decimal; only equality of ids is ever tested, so the number
    stands for its string. *)
Record SimulationInstance := mkSim {
  sim_id : nat;
  sim_name : SimName;
  sim_params : SimulationParams
}.

(** The state of [App]: the list and the id being edited. *)
Record AppState := mkApp {
  simulations : list SimulationInstance;
  activeId : nat
}.

(** [defaultParams] of App.tsx, beam fields. *)
Definition initialParams : SimulationParams :=
  mkParams 8 (1 # 2) (-50000) 200000000000 250000000 40 8 50
           simplySupported 4 1 7 [] rectangular (1 # 5) (3 # 10) (1 # 50) (3 # 200).

Definition initialApp : AppState :=
  mkApp [mkSim 1 DesignCase1 initialParams] 1.

(** [simulations.find(s => s.id === activeId) || simulations[0]];
    [None] stands for [undefined]. *)
Definition activeSim (st : AppState) : option SimulationInstance :=
  match find (fun s => Nat.eqb (sim_id s) (activeId st)) (simulations st) with
  | Some s => Some s
  | None => hd_error (simulations st)
  end.

(** [handleParamChange] *)
Definition handleParamChange (st : AppState) (newParams : SimulationParams) : AppState :=
  mkApp (map (fun sim => if Nat.eqb (sim_id sim) (activeId st)
                         then mkSim (sim_id sim) (sim_name sim) newParams else sim)
             (simulations st))
        (activeId st).

(** [addSimulation]; [now] is the reading of the clock.  With no
    simulation to clone the source stops with a TypeError ([None]). *)
Definition addSimulation (st : AppState) (now : nat) : option AppState :=
  match activeSim st with
  | None => None
  | Some active =>
      let newId := now in
      let newName := CaseN (List.length (simulations st) + 1) in
      Some (mkApp (simulations st ++ [mkSim newId newName (sim_params active)]) newId)
  end.

(** The last element, [newSims[newSims.length - 1]]. *)
Definition lastSim (l : list SimulationInstance) : option SimulationInstance :=
  nth_error l (List.length l - 1).

(** [removeSimulation]; reading the id of the last element of an empty
    list is a TypeError ([None]). *)
Definition removeSimulation (st : AppState) (id : nat) : option AppState :=
  if Nat.leb (List.length (simulations st)) 1 then Some st
  else
    let newSims := filter (fun s => negb (Nat.eqb (sim_id s) id)) (simulations st) in
    if Nat.eqb (activeId st) id then
      match lastSim newSims with
      | Some s => Some (mkApp newSims (sim_id s))
      | None => None
      end
    else Some (mkApp newSims (activeId st)).

(** ** bearingPhysics.ts: the mesh of a ball; BearingVisualizer.tsx *)

Section BallMesh.
Local Open Scope R_scope.

Record MeshPoint := mkPoint { pt_x : R; pt_y : R; pt_stress : R }.

(** [r === 0 ? 1 : r * 6] *)
Definition ringCount (r : nat) : nat :=
  match r with O => 1%nat | _ => (r * 6)%nat end.

(** The point pushed for ring [r] and position [a]. *)
Definition ballMeshPoint (element : BearingElement) (meshResolution r a : nat) : MeshPoint :=
  let cx := be_x element in
  let cy := be_y element in
  let radius := be_radius element in
  let maxStress := be_maxStress element in
  let dist := (INR r / INR meshResolution) * radius in
  let angle := (2 * PI * INR a) / INR (ringCount r) in
  let px := cx + dist * cos angle in
  let py := cy + dist * sin angle in
  let bearingAngle := be_angle element in
  let contact1X := cx + radius * cos bearingAngle in
  let contact1Y := cy + radius * sin bearingAngle in
  let contact2X := cx - radius * cos bearingAngle in
  let contact2Y := cy - radius * sin bearingAngle in
  let d1 := sqrt ((px - contact1X) ^ 2 + (py - contact1Y) ^ 2) in
  let d2 := sqrt ((px - contact2X) ^ 2 + (py - contact2Y) ^ 2) in
  let minD := Rmin d1 d2 in
  let localStress := maxStress * exp (- 2 * (minD / radius)) in
  mkPoint px py localStress.

Definition generateBallMesh (element : BearingElement) (meshResolution : nat)
    : list MeshPoint :=
  flat_map (fun r => map (fun a => ballMeshPoint element meshResolution r a)
                         (seq 0 (ringCount r)))
           (seq 0 (S meshResolution)).

(** [Math.max(...elements.map(e => e.maxStress), 10)] *)
Definition globalMaxStress (elements : list BearingElement) : R :=
  fold_right Rmax 10 (map be_maxStress elements).

(** The mesh resolution [BearingVisualizer] asks for. *)
Definition visualizerResolution : nat := 6.

(** A ball of radius 20 on the pitch circle of Scenario C, carrying a
    contact stress of 125. *)
Definition sampleBall : BearingElement := mkBall 0 100 125 (1 / 10) 80 0 20.

End BallMesh.

(** ** More sample configurations *)

(** The small mesh carried by interior supports at x = 1 and x = 7. *)
Definition overhangSmall : SimulationParams := withBeam smallMesh overhanging 1 7.

(** The cantilever on the small mesh with the load at its free end. *)
Definition cantileverSmall : SimulationParams :=
  withLoadPosition (withBeam smallMesh cantilever 1 7) 8.

(** A point load and an applied moment whose records carry no position. *)
Definition strayLoad : LoadDefinition := mkLoad 5 P 700 None None None None.

Definition strayMoment : LoadDefinition := mkLoad 6 M 900 None None None None.

(** Two cases, the first one being edited. *)
Definition twoCases : AppState :=
  mkApp [mkSim 1 DesignCase1 defaultParams; mkSim 2 (CaseN 2) cantileverTip] 1.

(** A short record of shear values. *)
Definition sampleData : list Q := [0; 25000; 25000; -25000; -25000; 0].

(** * Properties *)

(** ** Arithmetic helpers *)

Lemma Qlt_bool_iff (x y : Q) : Qlt_bool x y = true <-> x < y.
Proof.
  unfold Qlt_bool. rewrite negb_true_iff. split; intro H.
  - apply Qnot_le_lt. intro H1. apply Qle_bool_iff in H1. congruence.
  - destruct (Qle_bool y x) eqn:E; auto. apply Qle_bool_iff in E. Lqa.lra.
Qed.

Lemma Qlt_bool_false (x y : Q) : Qlt_bool x y = false <-> y <= x.
Proof.
  unfold Qlt_bool. rewrite negb_false_iff. apply Qle_bool_iff.
Qed.

Lemma Qle_bool_false (x y : Q) : Qle_bool x y = false <-> y < x.
Proof.
  split; intro H.
  - apply Qnot_le_lt. intro H1. apply Qle_bool_iff in H1. congruence.
  - destruct (Qle_bool x y) eqn:E; auto. apply Qle_bool_iff in E. Lqa.lra.
Qed.

Lemma Math_pow_2 (x : Q) : Math_pow x 2 == x * x.
Proof. unfold Math_pow. simpl. ring. Qed.

Lemma Math_pow_3 (x : Q) : Math_pow x 3 == x * x * x.
Proof. unfold Math_pow. simpl. ring. Qed.

Lemma cube_mono (a b : Q) : 0 <= a -> a <= b -> a * a * a <= b * b * b.
Proof.
  intros Ha Hab.
  assert (H2 : a * a <= b * b) by Lqa.nra.
  assert (H3 : 0 <= a * a) by Lqa.nra.
  assert (H4 : a * a * a <= a * a * b) by Lqa.nra.
  assert (H5 : a * a * b <= b * b * b) by Lqa.nra.
  Lqa.lra.
Qed.

(** ** Section properties *)

(** C6. For an I-beam section the inertia is the outer box minus the
    inner cut-out, [(B H^3 - (B - tw) (H - 2 tf)^3) / 12], when both inner
    dimensions are positive, and the solid outer box [B H^3 / 12]
    otherwise; with positive outer dimensions and non-negative
    thicknesses it is never negative. *)
Theorem ibeam_inertia (params : SimulationParams) :
  sectionType params = ibeam ->
  let H := height params in
  let B := flangeWidth params in
  let tf := flangeThickness params in
  let tw := webThickness params in
  let I := sec_I (calculateSectionProperties params) in
  (0 < H - 2 * tf /\ 0 < B - tw ->
     I == (B * (H * H * H) - (B - tw) * ((H - 2 * tf) * (H - 2 * tf) * (H - 2 * tf))) / 12)
  /\ (H - 2 * tf <= 0 \/ B - tw <= 0 -> I == (B * (H * H * H)) / 12)
  /\ (0 < H -> 0 < B -> 0 <= tf -> 0 <= tw -> 0 <= I).
Proof.
  intros Hsec H B tf tw I. subst I.
  unfold calculateSectionProperties. rewrite Hsec.
  fold H B tf tw.
  destruct (Qlt_bool 0 (H - 2 * tf)) eqn:E1; destruct (Qlt_bool 0 (B - tw)) eqn:E2;
    cbn [andb sec_I];
    rewrite ?Qlt_bool_iff, ?Qlt_bool_false in *;
    rewrite ?Math_pow_3.
  - split; [intros _; reflexivity|]. split; [intros [Hc|Hc]; Lqa.lra|].
    intros HH HB Htf Htw.
    pose proof (cube_mono (H - 2 * tf) H ltac:(Lqa.lra) ltac:(Lqa.lra)) as Hc.
    pose proof (cube_mono 0 (H - 2 * tf) ltac:(Lqa.lra) ltac:(Lqa.lra)) as Hc0.
    apply Qle_shift_div_l; [reflexivity|].
    set (c := (H - 2 * tf) * (H - 2 * tf) * (H - 2 * tf)) in *.
    set (C := H * H * H) in *. Lqa.nra.
  - split; [intros [_ Hc]; Lqa.lra|]. split; [intros _; reflexivity|].
    intros HH HB Htf Htw.
    pose proof (cube_mono 0 H ltac:(Lqa.lra) ltac:(Lqa.lra)) as Hc0.
    apply Qle_shift_div_l; [reflexivity|].
    set (C := H * H * H) in *. Lqa.nra.
  - split; [intros [Hc _]; Lqa.lra|]. split; [intros _; reflexivity|].
    intros HH HB Htf Htw.
    pose proof (cube_mono 0 H ltac:(Lqa.lra) ltac:(Lqa.lra)) as Hc0.
    apply Qle_shift_div_l; [reflexivity|].
    set (C := H * H * H) in *. Lqa.nra.
  - split; [intros [Hc _]; Lqa.lra|]. split; [intros _; reflexivity|].
    intros HH HB Htf Htw.
    pose proof (cube_mono 0 H ltac:(Lqa.lra) ltac:(Lqa.lra)) as Hc0.
    apply Qle_shift_div_l; [reflexivity|].
    set (C := H * H * H) in *. Lqa.nra.
Qed.

Lemma ibeam_inertia_witness :
  sectionType ibeamExample = ibeam /\
  0 <= sec_I (calculateSectionProperties ibeamExample).
Proof.
  split; [reflexivity|].
  apply (ibeam_inertia ibeamExample eq_refl); vm_compute; congruence.
Defined.

(** ** Reactions and equilibrium *)

Lemma accumLoad_spec (s : Q) (acc : Q * Q) (l : LoadDefinition) :
  fst (accumLoad s acc l) == fst acc + loadForce l /\
  snd (accumLoad s acc l) == snd acc + loadMoment s l.
Proof.
  destruct acc as [f m]. unfold accumLoad, loadForce, loadMoment, triangleCentroid.
  destruct (l_type l); destruct (l_x l); destruct (l_x1 l); destruct (l_x2 l);
    destruct (peakRight l); cbn [fst snd]; split; try ring; field.
Qed.

Lemma fold_accumLoad (s : Q) (loads : list LoadDefinition) (acc : Q * Q) :
  fst (fold_left (accumLoad s) loads acc) == fst acc + sumQ (map loadForce loads) /\
  snd (fold_left (accumLoad s) loads acc) == snd acc + sumQ (map (loadMoment s) loads).
Proof.
  revert acc. induction loads as [|l loads IH]; intros acc; cbn [fold_left map sumQ fold_right].
  - split; ring.
  - destruct (IH (accumLoad s acc l)) as [IHf IHm].
    destruct (accumLoad_spec s acc l) as [Hf Hm].
    fold (sumQ (map loadForce loads)). fold (sumQ (map (loadMoment s) loads)).
    rewrite IHf, IHm, Hf, Hm. split; ring.
Qed.

Lemma loadSums_spec (s : Q) (loads : list LoadDefinition) :
  fst (loadSums s loads) == sumQ (map loadForce loads) /\
  snd (loadSums s loads) == sumQ (map (loadMoment s) loads).
Proof.
  unfold loadSums. destruct (fold_accumLoad s loads (0, 0)) as [Hf Hm].
  cbn [fst snd] in *. rewrite Hf, Hm. split; ring.
Qed.

(** Moving the pivot: the moment of a load about [p] from its moment
    about [s]. *)
Lemma loadMoment_shift (s p : Q) (l : LoadDefinition) :
  loadMoment p l == loadMoment s l + (s - p) * loadForce l.
Proof.
  unfold loadMoment, loadForce.
  destruct (l_type l); destruct (l_x l); destruct (l_x1 l); destruct (l_x2 l); ring.
Qed.

Lemma sum_loadMoment_shift (s p : Q) (loads : list LoadDefinition) :
  sumQ (map (loadMoment p) loads)
  == sumQ (map (loadMoment s) loads) + (s - p) * sumQ (map loadForce loads).
Proof.
  induction loads as [|l loads IH]; cbn [map sumQ fold_right].
  - ring.
  - fold (sumQ (map (loadMoment p) loads)). fold (sumQ (map (loadMoment s) loads)).
    fold (sumQ (map loadForce loads)).
    rewrite IH, (loadMoment_shift s p l). ring.
Qed.

Lemma effectiveSpan_apart (a b : Q) :
  (1 # 1000000) <= Qabs (b - a) -> effectiveSpan a b = b - a.
Proof.
  intro H. unfold effectiveSpan, Math_abs.
  destruct (Qlt_bool (Qabs (b - a)) (1 # 1000000)) eqn:E; auto.
  apply Qlt_bool_iff in E. Lqa.lra.
Qed.

Lemma effectiveSpan_close (a b : Q) :
  Qabs (b - a) < (1 # 1000000) -> effectiveSpan a b = 1.
Proof.
  intro H. unfold effectiveSpan, Math_abs.
  apply Qlt_bool_iff in H. now rewrite H.
Qed.

Lemma effectiveSpan_nonzero (a b : Q) : ~ effectiveSpan a b == 0.
Proof.
  unfold effectiveSpan, Math_abs.
  destruct (Qlt_bool (Qabs (b - a)) (1 # 1000000)) eqn:E.
  - intro H. Lqa.lra.
  - apply Qlt_bool_false in E. intro H. rewrite H in E.
    revert E. vm_compute. intro E. apply E. reflexivity.
Qed.

Lemma supportsApart_ne (params : SimulationParams) :
  supportsApart params -> ~ diagSupB params - diagSupA params == 0.
Proof.
  unfold supportsApart. intros Hap Hz. rewrite Hz in Hap.
  revert Hap. vm_compute. intro E. apply E. reflexivity.
Qed.

Lemma solveReactions_cantilever (params : SimulationParams) :
  beamType params = cantilever ->
  let sums := loadSums (diagSupA params) (loadsOf params) in
  solveReactions params = mkReactions (- fst sums) 0 (- snd sums).
Proof.
  intros Hb sums. subst sums. unfold solveReactions.
  destruct (loadSums (diagSupA params) (loadsOf params)) as [f m].
  rewrite Hb. reflexivity.
Qed.

Lemma solveReactions_supported (params : SimulationParams) :
  beamType params <> cantilever ->
  let sums := loadSums (diagSupA params) (loadsOf params) in
  let rb := - snd sums / effectiveSpan (diagSupA params) (diagSupB params) in
  solveReactions params = mkReactions (- fst sums - rb) rb 0.
Proof.
  intros Hb sums rb. subst rb sums. unfold solveReactions.
  destruct (loadSums (diagSupA params) (loadsOf params)) as [f m].
  destruct (beamType params); [congruence | reflexivity | reflexivity].
Qed.

(** C1 (as amended). For a cantilever, and for a two-support beam whose
    supports are at least 1e-6 apart, the reactions of
    [calculateAnalyticalDiagrams] balance the loads: the vertical forces
    sum to zero and the moments about any pivot sum to zero. *)
Theorem reactions_equilibrium (params : SimulationParams) (pivot : Q) :
  beamType params = cantilever \/ supportsApart params ->
  let r := reactions (calculateAnalyticalDiagrams params) in
  totalForce params r == 0 /\ totalMoment params r pivot == 0.
Proof.
  intros Hcfg r. subst r. cbn [calculateAnalyticalDiagrams reactions].
  unfold totalForce, totalMoment.
  destruct (loadSums_spec (diagSupA params) (loadsOf params)) as [Hf Hm].
  rewrite (sum_loadMoment_shift (diagSupA params) pivot).
  set (F := sumQ (map loadForce (loadsOf params))) in *.
  set (Mo := sumQ (map (loadMoment (diagSupA params)) (loadsOf params))) in *.
  destruct (beamType params) eqn:Hb.
  - rewrite (solveReactions_cantilever params Hb). cbn [Ra Rb Ma].
    rewrite Hf, Hm. unfold diagSupA, diagSupB. rewrite Hb. split; ring.
  - destruct Hcfg as [Hc|Hap]; [discriminate|].
    rewrite (solveReactions_supported params) by congruence. cbn [Ra Rb Ma].
    rewrite (effectiveSpan_apart _ _ Hap). rewrite Hf, Hm.
    pose proof (supportsApart_ne params Hap) as Hne.
    split; field; exact Hne.
  - destruct Hcfg as [Hc|Hap]; [discriminate|].
    rewrite (solveReactions_supported params) by congruence. cbn [Ra Rb Ma].
    rewrite (effectiveSpan_apart _ _ Hap). rewrite Hf, Hm.
    pose proof (supportsApart_ne params Hap) as Hne.
    split; field; exact Hne.
Qed.

Lemma reactions_equilibrium_witness :
  supportsApart defaultParams /\
  totalForce defaultParams (reactions (calculateAnalyticalDiagrams defaultParams)) == 0 /\
  totalMoment defaultParams (reactions (calculateAnalyticalDiagrams defaultParams)) 3 == 0.
Proof.
  assert (H : supportsApart defaultParams) by (vm_compute; congruence).
  split; [exact H|].
  exact (reactions_equilibrium defaultParams 3 (or_intror H)).
Defined.

(** C1, the counterexample: with the supports 5e-7 apart (a
    configuration that satisfies [0 <= supportA < supportB <= L]) the
    solver divides by 1 instead of the span and the moments about the
    left support do not balance. *)
Lemma equilibrium_fails_close_supports :
  ~ (totalMoment closeSupports (reactions (calculateAnalyticalDiagrams closeSupports)) 4 == 0).
Proof.
  cbn [calculateAnalyticalDiagrams reactions]. vm_compute. congruence.
Qed.

(** C8 (as amended). When the supports of a two-support beam coincide
    (span below 1e-6 in magnitude) the solver divides by 1: the divisor is
    not zero, [Rb] is minus the moment sum of the loads about support A,
    [Ra] is minus the force sum minus [Rb], and there is no wall moment. *)
Theorem coincident_supports_span_one (params : SimulationParams) :
  beamType params <> cantilever ->
  coincidentSupports params ->
  let r := reactions (calculateAnalyticalDiagrams params) in
  let loads := loadsOf params in
  effectiveSpan (diagSupA params) (diagSupB params) = 1
  /\ ~ effectiveSpan (diagSupA params) (diagSupB params) == 0
  /\ Rb r == - sumQ (map (loadMoment (diagSupA params)) loads) / 1
  /\ Ra r == - sumQ (map loadForce loads) - Rb r
  /\ Ma r == 0.
Proof.
  intros Hb Hco r loads. subst r loads.
  cbn [calculateAnalyticalDiagrams reactions].
  rewrite (solveReactions_supported params Hb). cbn [Ra Rb Ma].
  destruct (loadSums_spec (diagSupA params) (loadsOf params)) as [Hf Hm].
  rewrite (effectiveSpan_close _ _ Hco), Hf, Hm.
  split; [reflexivity|]. split; [intro H; Lqa.lra|].
  split; [reflexivity|]. split; [field | reflexivity].
Qed.

Lemma coincident_supports_span_one_witness :
  coincidentSupports coincidentAtLoad /\
  Ma (reactions (calculateAnalyticalDiagrams coincidentAtLoad)) == 0.
Proof.
  assert (H : coincidentSupports coincidentAtLoad) by (vm_compute; reflexivity).
  split; [exact H|].
  pose proof (coincident_supports_span_one coincidentAtLoad ltac:(discriminate) H) as W.
  cbv zeta in W. apply W.
Defined.

Lemma Qplus_zero_r_eq (q : Q) : q + (0 # 1) = q.
Proof.
  destruct q as [n d]. unfold Qplus. cbn [Qnum Qden].
  rewrite Z.mul_0_l, Z.add_0_r, Z.mul_1_r, Pos.mul_1_r. reflexivity.
Qed.

Lemma sweep_ext (f g : Q * Q -> nat -> Q * Q) (stations : list nat) (st : Q * Q) :
  (forall s i, f s i = g s i) -> sweep f st stations = sweep g st stations.
Proof.
  intro Hfg. revert st. induction stations as [|i rest IH]; intro st; cbn [sweep].
  - reflexivity.
  - rewrite (Hfg st i). f_equal. apply IH.
Qed.

(** C8, the counterexample: a beam with coincident supports and a beam
    with supports one metre apart return the same record, so nothing in
    the result tells the caller that the first is degenerate. *)
Lemma degenerate_not_flagged :
  coincidentSupports coincidentAtLoad
  /\ ~ coincidentSupports apartAtLoad
  /\ calculateAnalyticalDiagrams coincidentAtLoad = calculateAnalyticalDiagrams apartAtLoad
  /\ ~ exists flagged, flagsDegenerate flagged.
Proof.
  assert (H1 : coincidentSupports coincidentAtLoad) by (vm_compute; reflexivity).
  assert (H2 : ~ coincidentSupports apartAtLoad) by (vm_compute; discriminate).
  assert (Hr : solveReactions coincidentAtLoad = mkReactions 50000 (0 # 1) 0)
    by (vm_compute; reflexivity).
  assert (Hr' : solveReactions apartAtLoad = mkReactions 50000 (0 # 1) 0)
    by (vm_compute; reflexivity).
  assert (H3 : calculateAnalyticalDiagrams coincidentAtLoad
               = calculateAnalyticalDiagrams apartAtLoad).
  { unfold calculateAnalyticalDiagrams. rewrite Hr, Hr'.
    change (stepSize apartAtLoad) with (stepSize coincidentAtLoad).
    change (loadsOf apartAtLoad) with (loadsOf coincidentAtLoad).
    rewrite (sweep_ext
               (sweepStep coincidentAtLoad (mkReactions 50000 (0 # 1) 0)
                          (loadsOf coincidentAtLoad) (stepSize coincidentAtLoad))
               (sweepStep apartAtLoad (mkReactions 50000 (0 # 1) 0)
                          (loadsOf coincidentAtLoad) (stepSize coincidentAtLoad))).
    - reflexivity.
    - intros [V Mo] i. unfold sweepStep.
      change (isCantilever coincidentAtLoad) with false.
      change (isCantilever apartAtLoad) with false.
      change (diagSupA apartAtLoad) with (diagSupA coincidentAtLoad).
      cbn [negb andb Ra Rb Ma].
      rewrite !Qplus_zero_r_eq.
      destruct (checkStep _ (diagSupB coincidentAtLoad) _);
        destruct (checkStep _ (diagSupB apartAtLoad) _); reflexivity. }
  split; [exact H1 | split; [exact H2 | split; [exact H3 |]]].
  intros [flagged Hfl].
  apply H2. apply (Hfl apartAtLoad); [discriminate|].
  rewrite <- H3. apply (Hfl coincidentAtLoad); [discriminate | exact H1].
Qed.

(** ** Load position clamping *)

Ltac no_match t :=
  lazymatch t with
  | context [match _ with Eq => _ | Lt => _ | Gt => _ end] => fail
  | _ => idtac
  end.

(** Case analysis on the comparisons of a [Qmax] / [Qmin] expression,
    innermost first. *)
Ltac split_compare :=
  repeat match goal with
  | |- context [?x ?= ?y] =>
      no_match x; no_match y;
      let E := fresh "E" in
      destruct (x ?= y) eqn:E;
      [apply Qeq_alt in E | apply Qlt_alt in E | apply Qgt_alt in E]
  end.

Lemma clamp_twice (a L : Q) :
  Qmax 0 (Qmin (Qmin (Qmax a 0) L) L) = Qmax 0 (Qmin a L).
Proof.
  unfold Qmax, Qmin, GenericMinMax.gmax, GenericMinMax.gmin.
  split_compare; try reflexivity; exfalso; Lqa.lra.
Qed.

Lemma safeA_clamped (params : SimulationParams) :
  safeA (withLoadPosition params (clampPosition params)) = safeA params.
Proof.
  unfold safeA, clampPosition, Math_max, Math_min. cbn [loadPosition length withLoadPosition].
  apply clamp_twice.
Qed.

Lemma safeA_range (params : SimulationParams) :
  0 <= length params -> 0 <= safeA params <= length params.
Proof.
  intro HL. unfold safeA, Math_max, Math_min.
  destruct (Q.max_spec 0 (Qmin (loadPosition params) (length params))) as [[H1 H2]|[H1 H2]];
    destruct (Q.min_spec (loadPosition params) (length params)) as [[H3 H4]|[H3 H4]];
    rewrite H2; try rewrite H4 in *; split; Lqa.lra.
Qed.

Lemma nodeField_clamped (params : SimulationParams) (x : Q) :
  nodeField (withLoadPosition params (clampPosition params)) x = nodeField params x.
Proof.
  unfold nodeField. rewrite safeA_clamped. reflexivity.
Qed.

Lemma getNode_clamped (params : SimulationParams) (i j : nat) :
  getNode (withLoadPosition params (clampPosition params)) i j = getNode params i j.
Proof.
  unfold getNode. rewrite nodeField_clamped. reflexivity.
Qed.

(** The field solver clamps: replacing the load position by its clamped
    value leaves the whole mesh unchanged. *)
Lemma field_solver_clamps (params : SimulationParams) :
  calculateBeamPhysics (withLoadPosition params (clampPosition params))
  = calculateBeamPhysics params.
Proof.
  unfold calculateBeamPhysics, meshCell. cbn [meshDensityX meshDensityY withLoadPosition].
  apply flat_map_ext. intro i. apply map_ext. intro j.
  rewrite !getNode_clamped. reflexivity.
Qed.

(** C9, at the failing input: with the base load at x = 10 on the 8 m
    beam and no custom loads, the diagram solver uses x = 10 as it is;
    the reactions are not those of the load clamped to x = 8. *)
Theorem diagram_solver_does_not_clamp :
  clampPosition loadBeyondEnd == 8
  /\ Rb (reactions (calculateAnalyticalDiagrams loadBeyondEnd)) == 62500
  /\ Ra (reactions (calculateAnalyticalDiagrams loadBeyondEnd)) == -12500
  /\ Rb (reactions (calculateAnalyticalDiagrams
                      (withLoadPosition loadBeyondEnd (clampPosition loadBeyondEnd))))
     == 50000
  /\ Ra (reactions (calculateAnalyticalDiagrams
                      (withLoadPosition loadBeyondEnd (clampPosition loadBeyondEnd))))
     == 0.
Proof.
  cbn [calculateAnalyticalDiagrams reactions].
  split; [vm_compute; reflexivity|].
  split; [vm_compute; reflexivity|].
  split; [vm_compute; reflexivity|].
  split; vm_compute; reflexivity.
Qed.

(** ** Sign of the bending stress *)

Lemma Qdiv_pos (a b : Q) : 0 < a -> 0 < b -> 0 < a / b.
Proof.
  intros Ha Hb. apply Qlt_shift_div_l; [exact Hb|]. Lqa.lra.
Qed.

Lemma Qdiv_neg (a b : Q) : a < 0 -> 0 < b -> a / b < 0.
Proof.
  intros Ha Hb. apply Qlt_shift_div_r; [exact Hb|]. Lqa.lra.
Qed.

(** With a downward (negative) force on a simply supported beam the
    solver's moment is negative left of the load, so its stress
    [-(M y) / I] is positive, tensile, on the upper side [y > 0]. *)
Lemma simplySupported_upper_stress (params : SimulationParams) (x y : Q) :
  beamType params = simplySupported ->
  force params < 0 ->
  0 < loadPosition params < length params ->
  0 < sec_I (calculateSectionProperties params) ->
  0 < x <= loadPosition params ->
  0 < y ->
  0 < - (f_M (nodeField params x) * y) / sec_I (calculateSectionProperties params).
Proof.
  intros Hb HP Ha HI Hx Hy.
  assert (Hsafe : safeA params == loadPosition params).
  { unfold safeA, Math_max, Math_min.
    rewrite Q.min_l by Lqa.lra. rewrite Q.max_r by Lqa.lra. reflexivity. }
  unfold nodeField. rewrite Hb.
  assert (Hle : Qle_bool x (safeA params) = true).
  { apply Qle_bool_iff. rewrite Hsafe. Lqa.lra. }
  rewrite Hle. cbn [f_M].
  apply Qdiv_pos; [|exact HI].
  assert (HM : force params * (length params - safeA params) * x / length params < 0).
  { apply Qdiv_neg; [|Lqa.lra]. rewrite Hsafe.
    assert (0 < (length params - loadPosition params) * x) by Lqa.nra. Lqa.nra. }
  Lqa.nra.
Qed.

(** C2, at the failing inputs.  On the default simply supported beam
    (force -50000, downward, at mid-span) the stress at the mid-span top
    fiber is +1.2e7, tensile, and at the bottom fiber -1.2e7, compressive;
    on the cantilever with the same downward load at its free end the top
    fiber at the wall carries -4.8e7, compressive. *)
Theorem stress_sign_reversed :
  force defaultParams < 0
  /\ n_x (getNode defaultParams 20 10) == 4
  /\ n_y (getNode defaultParams 20 10) == 1 # 4
  /\ n_stress (getNode defaultParams 20 10) == 12000000
  /\ n_y (getNode defaultParams 20 0) == - (1 # 4)
  /\ n_stress (getNode defaultParams 20 0) == -12000000
  /\ n_x (getNode cantileverTip 0 10) == 0
  /\ n_y (getNode cantileverTip 0 10) == 1 # 4
  /\ n_stress (getNode cantileverTip 0 10) == -48000000.
Proof.
  repeat (split; [vm_compute; reflexivity|]). vm_compute; reflexivity.
Qed.

(** ** Mesh statistics *)

Lemma fold_left_flat_map {A B C : Type} (f : A -> C -> A) (g : B -> list C)
    (l : list B) (a : A) :
  fold_left (fun acc x => fold_left f (g x) acc) l a = fold_left f (flat_map g l) a.
Proof.
  revert a. induction l as [|x l IH]; intro a; cbn [fold_left flat_map].
  - reflexivity.
  - rewrite fold_left_app. apply IH.
Qed.

Lemma rowNodes_indices (params : SimulationParams) (i : nat) (lj : list nat) :
  flat_map el_nodes (map (fun j => meshCell params i j) lj)
  = map (fun ij => getNode params (fst ij) (snd ij))
        (flat_map (fun j => cellCorners i j) lj).
Proof.
  induction lj as [|j lj IHj]; cbn [flat_map map].
  - reflexivity.
  - rewrite map_app, IHj. reflexivity.
Qed.

Lemma meshNodes_indices (params : SimulationParams) :
  flat_map el_nodes (calculateBeamPhysics params)
  = map (fun ij => getNode params (fst ij) (snd ij)) (meshIndices params).
Proof.
  unfold calculateBeamPhysics, meshIndices.
  induction (seq 0 (meshDensityX params)) as [|i li IHi]; cbn [flat_map map].
  - reflexivity.
  - rewrite flat_map_app, map_app, IHi, rowNodes_indices. reflexivity.
Qed.

Lemma max_if (m d : Q) : (if Qlt_bool m d then d else m) == Qmax m d.
Proof.
  destruct (Qlt_bool m d) eqn:E.
  - apply Qlt_bool_iff in E. rewrite Q.max_r; [reflexivity | Lqa.lra].
  - apply Qlt_bool_false in E. rewrite Q.max_l; [reflexivity | exact E].
Qed.

Lemma maxAbsQ_nonneg (l : list Q) : 0 <= maxAbsQ l.
Proof.
  induction l as [|v l IH]; cbn [maxAbsQ fold_right].
  - Lqa.lra.
  - fold (maxAbsQ l). pose proof (Q.le_max_r (Qabs v) (maxAbsQ l)). Lqa.lra.
Qed.

Lemma fold_statsNode_deflection (ns : list NodePoint) (acc : BeamStats) :
  0 <= maxDeflection acc ->
  maxDeflection (fold_left statsNode ns acc)
  == Qmax (maxDeflection acc) (maxAbsQ (map (fun n => n_dy n - n_y n) ns)).
Proof.
  revert acc. induction ns as [|n ns IH]; intros acc Hacc;
    cbn [fold_left map maxAbsQ fold_right].
  - rewrite Q.max_l; [reflexivity | exact Hacc].
  - fold (maxAbsQ (map (fun n => n_dy n - n_y n) ns)).
    assert (Hstep : maxDeflection (statsNode acc n)
                    == Qmax (maxDeflection acc) (Qabs (n_dy n - n_y n))).
    { unfold statsNode. cbn [maxDeflection]. apply max_if. }
    rewrite IH.
    + rewrite Hstep. symmetry. apply Q.max_assoc.
    + rewrite Hstep. pose proof (Q.le_max_l (maxDeflection acc) (Qabs (n_dy n - n_y n))).
      Lqa.lra.
Qed.

Lemma Qmax_scale (c a b : Q) : 0 <= c -> Qmax (c * a) (c * b) == c * Qmax a b.
Proof.
  intro Hc. destruct (Qlt_le_dec a b) as [Hab|Hab].
  - rewrite (Q.max_r a b) by Lqa.lra. apply Q.max_r. Lqa.nra.
  - rewrite (Q.max_l a b) by Lqa.lra. apply Q.max_l. Lqa.nra.
Qed.

Lemma maxAbsQ_scale (s : Q) (vs : list Q) :
  maxAbsQ (map (fun v => v * s) vs) == Qabs s * maxAbsQ vs.
Proof.
  induction vs as [|v vs IH]; cbn [map maxAbsQ fold_right].
  - ring.
  - fold (maxAbsQ (map (fun v => v * s) vs)). fold (maxAbsQ vs).
    rewrite IH, Qabs_Qmult, (Qmult_comm (Qabs v)).
    apply Qmax_scale. apply Qabs_nonneg.
Qed.

Lemma maxAbsQ_ext {A : Type} (f g : A -> Q) (ns : list A) :
  (forall n, In n ns -> f n == g n) ->
  maxAbsQ (map f ns) == maxAbsQ (map g ns).
Proof.
  induction ns as [|n ns IH]; intro H; cbn [map maxAbsQ fold_right].
  - reflexivity.
  - fold (maxAbsQ (map f ns)). fold (maxAbsQ (map g ns)).
    rewrite IH by (intros; apply H; now right).
    rewrite (H n) by now left. reflexivity.
Qed.

Lemma scaleOf_nonzero (params : SimulationParams) :
  ~ deformationScale params == 0 -> scaleOf params = deformationScale params.
Proof.
  intro H. unfold scaleOf. destruct (Qeq_bool (deformationScale params) 0) eqn:E; auto.
  apply Qeq_bool_iff in E. contradiction.
Qed.

Lemma scaleOf_zero (params : SimulationParams) :
  deformationScale params == 0 -> scaleOf params = 1.
Proof.
  intro H. unfold scaleOf. apply Qeq_bool_iff in H. now rewrite H.
Qed.

Lemma getNode_displacement (params : SimulationParams) (ij : nat * nat) :
  n_dy (getNode params (fst ij) (snd ij)) - n_y (getNode params (fst ij) (snd ij))
  == nodeDeflection params ij * scaleOf params.
Proof.
  unfold getNode, nodeDeflection. cbn [n_dy n_y]. ring.
Qed.

Lemma maxDeflection_mesh (params : SimulationParams) :
  maxDeflection (calculateBeamStats (calculateBeamPhysics params))
  == Qabs (scaleOf params) * maxPhysicalDeflection params.
Proof.
  unfold calculateBeamStats. rewrite fold_left_flat_map, meshNodes_indices.
  rewrite fold_statsNode_deflection by (cbn; Lqa.lra).
  cbn [maxDeflection]. rewrite Q.max_r by apply maxAbsQ_nonneg.
  rewrite map_map.
  rewrite (maxAbsQ_ext _ (fun ij => nodeDeflection params ij * scaleOf params))
    by (intros; apply getNode_displacement).
  rewrite <- (map_map (nodeDeflection params) (fun v => v * scaleOf params)).
  apply maxAbsQ_scale.
Qed.

(** C10 (as amended). The reported [maxDeflection] is the display
    deflection: [|s|] times the largest physical deflection [|v|] over the
    mesh nodes, where [s] is the deformation scale, or 1 when the
    deformation scale is 0.  For a positive scale it is the scale times
    max [|v|], and multiplying a non-zero scale by [k <> 0] multiplies the
    statistic by [|k|]. *)
Theorem maxDeflection_is_scaled (params : SimulationParams) :
  maxDeflection (calculateBeamStats (calculateBeamPhysics params))
    == Qabs (scaleOf params) * maxPhysicalDeflection params
  /\ (0 < deformationScale params ->
      maxDeflection (calculateBeamStats (calculateBeamPhysics params))
        == deformationScale params * maxPhysicalDeflection params)
  /\ (forall k : Q, ~ k == 0 -> ~ deformationScale params == 0 ->
      maxDeflection (calculateBeamStats
                       (calculateBeamPhysics (withScale params (k * deformationScale params))))
        == Qabs k * maxDeflection (calculateBeamStats (calculateBeamPhysics params))).
Proof.
  split; [apply maxDeflection_mesh|]. split.
  - intro Hs. rewrite maxDeflection_mesh, scaleOf_nonzero by Lqa.lra.
    rewrite Qabs_pos by Lqa.lra. reflexivity.
  - intros k Hk Hs. rewrite !maxDeflection_mesh.
    change (maxPhysicalDeflection (withScale params (k * deformationScale params)))
      with (maxPhysicalDeflection params).
    rewrite (scaleOf_nonzero params Hs).
    rewrite scaleOf_nonzero.
    + cbn [deformationScale withScale]. rewrite Qabs_Qmult. ring.
    + cbn [deformationScale withScale]. intro H. apply Qmult_integral in H. tauto.
Qed.

Lemma maxDeflection_is_scaled_witness :
  0 < deformationScale smallMesh /\
  maxDeflection (calculateBeamStats (calculateBeamPhysics smallMesh))
    == deformationScale smallMesh * maxPhysicalDeflection smallMesh.
Proof.
  assert (H : 0 < deformationScale smallMesh) by (vm_compute; reflexivity).
  split; [exact H|].
  exact (proj1 (proj2 (maxDeflection_is_scaled smallMesh)) H).
Defined.

(** C10, the counterexample: with the deformation scale set to 0 the
    solver scales by 1, and the statistic is max [|v|] = 0.00128, not
    0 times max [|v|]. *)
Lemma maxDeflection_zero_scale :
  deformationScale zeroScale == 0
  /\ maxDeflection (calculateBeamStats (calculateBeamPhysics zeroScale)) == 4 # 3125
  /\ maxPhysicalDeflection zeroScale == 4 # 3125
  /\ ~ (maxDeflection (calculateBeamStats (calculateBeamPhysics zeroScale))
        == deformationScale zeroScale * maxPhysicalDeflection zeroScale).
Proof.
  split; [reflexivity|]. split; [vm_compute; reflexivity|].
  split; [vm_compute; reflexivity|]. vm_compute. discriminate.
Qed.

(** ** Bearing load distribution *)

Section BearingProofs.
Local Open Scope R_scope.

Lemma maxBallLoad_count (params : BearingParams) :
  (1 <= ballCount params)%nat ->
  maxBallLoad params = radialLoad params * 5 / INR (ballCount params).
Proof.
  intro Hn. unfold maxBallLoad, stribeckFactor.
  rewrite Rmax_right; [reflexivity|].
  change 1 with (INR 1). apply le_INR. exact Hn.
Qed.

Lemma ballAngle_range (params : BearingParams) (i : nat) :
  (i < ballCount params)%nat -> 0 <= ballAngle params i < 2 * PI.
Proof.
  intro Hi. unfold ballAngle.
  assert (Hn : 0 < INR (ballCount params)) by (apply lt_0_INR; lia).
  assert (Hi0 : 0 <= INR i) by apply pos_INR.
  assert (Hin : INR i < INR (ballCount params)) by (apply lt_INR; exact Hi).
  pose proof PI_RGT_0 as Hpi.
  split.
  - apply Rmult_le_pos; [nra | left; apply Rinv_0_lt_compat; exact Hn].
  - apply (Rmult_lt_reg_r (INR (ballCount params))); [exact Hn|].
    unfold Rdiv. rewrite Rmult_assoc, Rinv_l by lra. nra.
Qed.

Lemma angleDiff_range (params : BearingParams) (i : nat) :
  (i < ballCount params)%nat -> 0 <= angleDiff params i <= PI.
Proof.
  intro Hi. pose proof (ballAngle_range params i Hi) as Hth.
  pose proof PI_RGT_0 as Hpi.
  unfold angleDiff, loadVectorAngle.
  set (d := Rabs (ballAngle params i - 3 * PI / 2)).
  assert (Hd : 0 <= d <= 3 * PI / 2).
  { subst d. split; [apply Rabs_pos|]. apply Rabs_le. lra. }
  destruct (Rgt_dec d PI); lra.
Qed.

Lemma angleDiff_cos (params : BearingParams) (i : nat) :
  cos (angleDiff params i) = cos (ballAngle params i - loadVectorAngle).
Proof.
  unfold angleDiff.
  set (x := ballAngle params i - loadVectorAngle).
  assert (Habs : cos (Rabs x) = cos x).
  { unfold Rabs. destruct (Rcase_abs x); [apply cos_neg | reflexivity]. }
  destruct (Rgt_dec (Rabs x) PI).
  - rewrite <- Habs.
    replace (2 * PI - Rabs x) with (- Rabs x + 2 * INR 1 * PI) by (simpl; ring).
    rewrite cos_period. apply cos_neg.
  - exact Habs.
Qed.

Lemma bearing_pow_base_pos (params : BearingParams) (i : nat) :
  (i < ballCount params)%nat ->
  angleDiff params i < PI / 2 -> 0 < cos (angleDiff params i).
Proof.
  intros Hi Hlt. pose proof (angleDiff_range params i Hi) as Hr.
  pose proof PI_RGT_0. apply cos_gt_0; lra.
Qed.

Lemma nth_ball (params : BearingParams) (i : nat) (d : BearingElement) :
  (i < ballCount params)%nat ->
  nth i (calculateBearingPhysics params) d = ballElement params i.
Proof.
  intro Hi. unfold calculateBearingPhysics.
  rewrite (nth_indep _ d (ballElement params 0%nat)) by (rewrite length_map, length_seq; exact Hi).
  rewrite map_nth, seq_nth by exact Hi. reflexivity.
Qed.

Lemma ball_load_spec (params : BearingParams) (i : nat) (d : BearingElement) :
  (1 <= ballCount params)%nat ->
  (i < ballCount params)%nat ->
  let psi := angleDiff params i in
  let Qmax := radialLoad params * 5 / INR (ballCount params) in
  let ball := nth i (calculateBearingPhysics params) d in
  List.length (calculateBearingPhysics params) = ballCount params
  /\ 0 <= psi <= PI
  /\ cos psi = cos (be_angle ball - 3 * PI / 2)
  /\ (psi < PI / 2 -> be_load ball = Qmax * Rpower (cos psi) (3 / 2))
  /\ (PI / 2 <= psi -> be_load ball = 0).
Proof.
  intros Hn Hi psi Qmax ball. subst psi Qmax ball.
  rewrite (nth_ball params i d Hi). cbn [ballElement be_angle be_load].
  split; [unfold calculateBearingPhysics; now rewrite length_map, length_seq|].
  split; [apply angleDiff_range; exact Hi|].
  split; [apply angleDiff_cos|].
  unfold ballLoad. rewrite (maxBallLoad_count params Hn).
  destruct (Rlt_dec (angleDiff params i) (PI / 2)) as [Hlt|Hge].
  - split; [|intro; lra]. intros _.
    unfold Math_powR.
    destruct (Rlt_dec 0 (cos (angleDiff params i))) as [Hc|Hc]; [reflexivity|].
    exfalso. apply Hc. apply bearing_pow_base_pos; assumption.
  - split; [intro; lra|]. reflexivity.
Qed.

Lemma scenarioC_angle (i : nat) :
  ballAngle scenarioC i = INR i * (PI / 6).
Proof.
  unfold ballAngle, scenarioC. cbn [ballCount].
  replace (INR 12) with 12 by (simpl; lra). field.
Qed.

Lemma scenarioC_ball9 : angleDiff scenarioC 9 = 0.
Proof.
  unfold angleDiff. rewrite scenarioC_angle. unfold loadVectorAngle.
  replace (INR 9) with 9 by (simpl; lra).
  replace (9 * (PI / 6) - 3 * PI / 2) with 0 by field.
  rewrite Rabs_R0. pose proof PI_RGT_0.
  destruct (Rgt_dec 0 PI); lra.
Qed.

Lemma scenarioC_ball0 : angleDiff scenarioC 0 = PI / 2.
Proof.
  unfold angleDiff. rewrite scenarioC_angle. unfold loadVectorAngle.
  pose proof PI_RGT_0. cbn [INR].
  replace (0 * (PI / 6) - 3 * PI / 2) with (- (3 * PI / 2)) by field.
  rewrite Rabs_Ropp, Rabs_pos_eq by lra.
  destruct (Rgt_dec (3 * PI / 2) PI); lra.
Qed.

Lemma Rpower_one_base (y : R) : Rpower 1 y = 1.
Proof. unfold Rpower. rewrite ln_1, Rmult_0_r. apply exp_0. Qed.

(** C7. With at least one ball, ball [i] of [calculateBearingPhysics]
    carries [Qmax cos(psi)^1.5] when its angular distance [psi] from the
    downward load vector (which lies in [0, pi] and has the cosine of the
    angle difference) is below [pi/2], and exactly 0 otherwise, where
    [Qmax = radialLoad 5 / ballCount].  In Scenario C (radii 100 and 60,
    12 balls, load 5000) ball 9 sits at [psi = 0] and carries
    [Qmax = 25000/12], about 2083.3, and ball 0 sits at [psi = pi/2] and
    carries nothing. *)
Theorem bearing_load_distribution :
  (forall (params : BearingParams) (i : nat) (d : BearingElement),
     (1 <= ballCount params)%nat ->
     (i < ballCount params)%nat ->
     let psi := angleDiff params i in
     let Qmax := radialLoad params * 5 / INR (ballCount params) in
     let ball := nth i (calculateBearingPhysics params) d in
     0 <= psi <= PI
     /\ cos psi = cos (be_angle ball - 3 * PI / 2)
     /\ (psi < PI / 2 -> be_load ball = Qmax * Rpower (cos psi) (3 / 2))
     /\ (PI / 2 <= psi -> be_load ball = 0))
  /\ (forall d : BearingElement,
       angleDiff scenarioC 9 = 0
       /\ be_load (nth 9 (calculateBearingPhysics scenarioC) d) = 5000 * 5 / 12
       /\ Rabs (5000 * 5 / 12 - 20833 / 10) < 1 / 10
       /\ angleDiff scenarioC 0 = PI / 2
       /\ be_load (nth 0 (calculateBearingPhysics scenarioC) d) = 0).
Proof.
  split.
  - intros params i d Hn Hi. cbv zeta.
    destruct (ball_load_spec params i d Hn Hi) as (_ & H2 & H3 & H4 & H5).
    repeat split; assumption || apply H2.
  - intro d. pose proof PI_RGT_0 as Hpi.
    destruct (ball_load_spec scenarioC 9 d ltac:(cbn; lia) ltac:(cbn; lia))
      as (_ & _ & _ & H9 & _).
    destruct (ball_load_spec scenarioC 0 d ltac:(cbn; lia) ltac:(cbn; lia))
      as (_ & _ & _ & _ & H0).
    cbv zeta in H9, H0.
    split; [apply scenarioC_ball9|].
    split.
    + rewrite H9 by (rewrite scenarioC_ball9; lra).
      rewrite scenarioC_ball9, cos_0, Rpower_one_base.
      cbn [radialLoad ballCount scenarioC].
      replace (INR 12) with 12 by (simpl; lra). field.
    + split; [apply Rabs_def1; lra|].
      split; [apply scenarioC_ball0|].
      apply H0. rewrite scenarioC_ball0. lra.
Qed.

Lemma bearing_load_distribution_witness :
  (1 <= ballCount scenarioC)%nat /\ (3 < ballCount scenarioC)%nat /\
  0 <= angleDiff scenarioC 3 <= PI.
Proof.
  assert (H1 : (1 <= ballCount scenarioC)%nat) by (cbn; lia).
  assert (H2 : (3 < ballCount scenarioC)%nat) by (cbn; lia).
  split; [exact H1|]. split; [exact H2|].
  exact (proj1 (proj1 bearing_load_distribution scenarioC 3%nat
                  (ballElement scenarioC 0) H1 H2)).
Defined.

End BearingProofs.

(** ** Break points: de-duplication and sorting *)

Lemma uniqueQ_incl (l : list Q) (x : Q) : In x (uniqueQ l) -> In x l.
Proof.
  revert x. induction l as [|a l IH]; intros x; cbn [uniqueQ].
  - auto.
  - intros [H|H]; [now left|]. right. apply filter_In in H. apply IH, H.
Qed.

Lemma uniqueQ_complete (l : list Q) (x : Q) :
  In x l -> exists y, In y (uniqueQ l) /\ y == x.
Proof.
  induction l as [|a l IH]; cbn [uniqueQ]; intros Hin; [contradiction|].
  destruct (Qeq_bool a x) eqn:E.
  - exists a. split; [now left | now apply Qeq_bool_iff].
  - destruct Hin as [->|Hin].
    + exists x. split; [now left | reflexivity].
    + destruct (IH Hin) as [y [Hy Hyx]]. exists y. split; [|exact Hyx].
      right. apply filter_In. split; [exact Hy|].
      apply negb_true_iff. destruct (Qeq_bool a y) eqn:E2; auto.
      apply Qeq_bool_iff in E2. rewrite <- E. symmetry. apply Qeq_bool_iff.
      rewrite E2. exact Hyx.
Qed.

Lemma uniqueQ_distinct (l : list Q) :
  ForallOrdPairs (fun a b => ~ a == b) (uniqueQ l).
Proof.
  induction l as [|a l IH]; cbn [uniqueQ]; constructor.
  - apply Forall_forall. intros b Hb. apply filter_In in Hb. destruct Hb as [_ Hb].
    apply negb_true_iff in Hb. intro Hab. apply Qeq_bool_iff in Hab. congruence.
  - clear - IH. induction IH as [|b l' Hb Hl IHl]; cbn [filter].
    + constructor.
    + destruct (negb (Qeq_bool a b)).
      * constructor; [|exact IHl].
        apply Forall_forall. intros c Hc. apply filter_In in Hc.
        rewrite Forall_forall in Hb. apply Hb, Hc.
      * exact IHl.
Qed.

Lemma insertQ_In (a x : Q) (l : list Q) : In x (insertQ a l) <-> x = a \/ In x l.
Proof.
  induction l as [|b l IH]; cbn [insertQ].
  - cbn. intuition.
  - destruct (Qle_bool a b); cbn [In]; [intuition|]. rewrite IH. intuition.
Qed.

Lemma sortQ_In (x : Q) (l : list Q) : In x (sortQ l) <-> In x l.
Proof.
  induction l as [|a l IH]; cbn [sortQ]; [reflexivity|].
  rewrite insertQ_In, IH. cbn. intuition.
Qed.

Lemma insertQ_sorted (a : Q) (l : list Q) :
  StronglySorted Qlt l -> Forall (fun b => ~ a == b) l ->
  StronglySorted Qlt (insertQ a l).
Proof.
  intros Hs Hd. induction Hs as [|b l Hs IH Hb]; cbn [insertQ].
  - repeat constructor.
  - inversion Hd as [|? ? Hab Hd']; subst.
    destruct (Qle_bool a b) eqn:E.
    + apply Qle_bool_iff in E.
      assert (Hlt : a < b).
      { destruct (Qlt_le_dec a b) as [H|H]; [exact H|].
        exfalso. apply Hab. apply Qle_antisym; assumption. }
      constructor; [constructor; assumption|].
      constructor; [exact Hlt|].
      rewrite Forall_forall in *. intros c Hc. specialize (Hb c Hc). Lqa.lra.
    + apply Qle_bool_false in E. constructor; [apply IH; exact Hd'|].
      apply Forall_forall. intros c Hc. apply insertQ_In in Hc.
      destruct Hc as [->|Hc]; [exact E|]. rewrite Forall_forall in Hb. apply Hb, Hc.
Qed.

Lemma sortQ_sorted (l : list Q) :
  ForallOrdPairs (fun a b => ~ a == b) l -> StronglySorted Qlt (sortQ l).
Proof.
  induction 1 as [|a l Ha Hl IH]; cbn [sortQ].
  - constructor.
  - apply insertQ_sorted; [exact IH|].
    rewrite Forall_forall in *. intros b Hb. apply Ha. apply sortQ_In, Hb.
Qed.

Lemma breakpoints_sorted (params : SimulationParams) :
  StronglySorted Qlt (breakpoints params).
Proof. apply sortQ_sorted, uniqueQ_distinct. Qed.

Lemma breakpoints_incl (params : SimulationParams) (x : Q) :
  In x (breakpoints params) -> In x (rawPoints params).
Proof. intro H. apply uniqueQ_incl, sortQ_In, H. Qed.

Lemma breakpoints_complete (params : SimulationParams) (x : Q) :
  In x (rawPoints params) -> exists y, In y (breakpoints params) /\ y == x.
Proof.
  intro H. destruct (uniqueQ_complete _ _ H) as [y [Hy Hyx]].
  exists y. split; [apply sortQ_In, Hy | exact Hyx].
Qed.

(** ** The segment loop *)

Lemma consecutive_cons (a b x : Q) (pts : list Q) :
  consecutive a b pts -> consecutive a b (x :: pts).
Proof. intros [l1 [l2 ->]]. exists (x :: l1), l2. reflexivity. Qed.

Lemma segmentsOf_cons (params : SimulationParams) (r : Reactions) (xA xB : Q) (rest : list Q) :
  segmentsOf params r (xA :: xB :: rest)
  = if Qlt_bool (Math_abs (xA - xB)) (1 # 100)
    then segmentsOf params r (xB :: rest)
    else mkStep (getPolynomial xA xB params r) xA xB :: segmentsOf params r (xB :: rest).
Proof. reflexivity. Qed.

Lemma segmentsOf_spec (params : SimulationParams) (r : Reactions) (pts : list Q) :
  Forall (fun s => s_poly s = getPolynomial (s_xA s) (s_xB s) params r
                   /\ ~ Qabs (s_xA s - s_xB s) < (1 # 100)
                   /\ consecutive (s_xA s) (s_xB s) pts)
         (segmentsOf params r pts).
Proof.
  induction pts as [|xA [|xB rest] IH].
  - constructor.
  - constructor.
  - rewrite segmentsOf_cons.
    assert (Hrest : Forall (fun s => s_poly s = getPolynomial (s_xA s) (s_xB s) params r
                   /\ ~ Qabs (s_xA s - s_xB s) < (1 # 100)
                   /\ consecutive (s_xA s) (s_xB s) (xA :: xB :: rest))
                (segmentsOf params r (xB :: rest))).
    { eapply Forall_impl; [|exact IH]. cbv beta. intros s (H1 & H2 & H3).
      split; [exact H1|]. split; [exact H2|]. apply consecutive_cons, H3. }
    destruct (Qlt_bool (Math_abs (xA - xB)) (1 # 100)) eqn:E; [exact Hrest|].
    constructor; [|exact Hrest]. cbn [s_poly s_xA s_xB].
    split; [reflexivity|]. split.
    + intro H. apply Qlt_bool_iff in H. unfold Math_abs in E. congruence.
    + exists [], rest. reflexivity.
Qed.

Lemma sorted_app_inv (l1 l2 : list Q) :
  StronglySorted Qlt (l1 ++ l2) ->
  StronglySorted Qlt l2 /\ forall a b, In a l1 -> In b l2 -> a < b.
Proof.
  induction l1 as [|x l1 IH]; cbn [app]; intro H.
  - split; [exact H | intros a b []].
  - inversion H as [|? ? Hs Hx]; subst. destruct (IH Hs) as [H2 H12].
    split; [exact H2|]. intros a b [->|Ha] Hb.
    + rewrite Forall_forall in Hx. apply Hx, in_or_app. now right.
    + apply H12; assumption.
Qed.

Lemma consecutive_sorted (a b : Q) (pts : list Q) :
  StronglySorted Qlt pts -> consecutive a b pts ->
  a < b /\ In a pts /\ In b pts /\ forall p, In p pts -> p <= a \/ b <= p.
Proof.
  intros Hs [l1 [l2 ->]].
  destruct (sorted_app_inv _ _ Hs) as [Hs2 H12].
  inversion Hs2 as [|? ? Hs3 Ha]; subst.
  inversion Hs3 as [|? ? Hs4 Hb]; subst.
  rewrite Forall_forall in Ha, Hb.
  split; [apply Ha; now left|].
  split; [apply in_or_app; right; now left|].
  split; [apply in_or_app; right; right; now left|].
  intros p Hp. apply in_app_or in Hp. destruct Hp as [Hp|[<-|[<-|Hp]]].
  - left. apply Qlt_le_weak, H12; [exact Hp | now left].
  - left. apply Qle_refl.
  - right. apply Qle_refl.
  - right. apply Qlt_le_weak, Hb, Hp.
Qed.

(** Every segment of the list joins two neighbouring break points, is at
    least 0.01 long, and carries the polynomial of its interval. *)
Lemma segment_facts (params : SimulationParams) (r : Reactions) (s : StepResult) :
  In s (generateDetailedSteps params r) ->
  s_poly s = getPolynomial (s_xA s) (s_xB s) params r
  /\ (1 # 100) <= s_xB s - s_xA s
  /\ In (s_xA s) (rawPoints params) /\ In (s_xB s) (rawPoints params)
  /\ gapFree params (s_xA s) (s_xB s).
Proof.
  intro Hin. unfold generateDetailedSteps in Hin.
  pose proof (segmentsOf_spec params r (breakpoints params)) as Hall.
  rewrite Forall_forall in Hall. destruct (Hall s Hin) as (Hp & Hlen & Hcons).
  destruct (consecutive_sorted _ _ _ (breakpoints_sorted params) Hcons)
    as (Hlt & HA & HB & Hgap).
  split; [exact Hp|]. split.
  - apply Qnot_lt_le in Hlen. rewrite Qabs_neg in Hlen by Lqa.lra. Lqa.lra.
  - split; [apply breakpoints_incl, HA|]. split; [apply breakpoints_incl, HB|].
    intros p Hp'. destruct (breakpoints_complete params p Hp') as [y [Hy Hyp]].
    destruct (Hgap y Hy) as [H|H]; [left|right]; rewrite <- Hyp; exact H.
Qed.

Lemma segmentsOf_lower (params : SimulationParams) (r : Reactions) (x0 : Q) (pts : list Q) :
  StronglySorted Qlt (x0 :: pts) ->
  Forall (fun s => x0 <= s_xA s /\ s_xA s < s_xB s) (segmentsOf params r (x0 :: pts)).
Proof.
  intro Hs. pose proof (segmentsOf_spec params r (x0 :: pts)) as Hall.
  eapply Forall_impl; [|exact Hall]. cbv beta. intros s (_ & _ & Hc).
  destruct (consecutive_sorted _ _ _ Hs Hc) as (Hlt & HA & _ & _).
  split; [|exact Hlt].
  destruct HA as [<-|HA]; [apply Qle_refl|].
  inversion Hs as [|? ? _ Hx]; subst. rewrite Forall_forall in Hx.
  apply Qlt_le_weak, Hx, HA.
Qed.

Lemma segmentsOf_ascending (params : SimulationParams) (r : Reactions) (pts : list Q) :
  StronglySorted Qlt pts -> ascending (segmentsOf params r pts).
Proof.
  unfold ascending. induction pts as [|xA [|xB rest] IH]; intro Hs.
  - constructor.
  - constructor.
  - rewrite segmentsOf_cons.
    inversion Hs as [|? ? Hs' HxA]; subst.
    destruct (Qlt_bool (Math_abs (xA - xB)) (1 # 100)); [apply IH, Hs'|].
    constructor; [apply IH, Hs'|].
    pose proof (segmentsOf_lower params r xB rest Hs') as Hlow.
    eapply Forall_impl; [|exact Hlow]. cbv beta. cbn [s_xB]. intros s [H _]. exact H.
Qed.

Lemma lastFrom_ge (x0 : Q) (pts : list Q) :
  Sorted spaced (x0 :: pts) -> x0 <= lastFrom x0 pts.
Proof.
  revert x0. induction pts as [|x1 rest IH]; intros x0 Hs.
  - apply Qle_refl.
  - inversion Hs as [|? ? Hs' Hhd]; subst. inversion Hhd as [|? ? Hg]; subst.
    unfold spaced in Hg. specialize (IH x1 Hs').
    change (lastFrom x0 (x1 :: rest)) with (lastFrom x1 rest). Lqa.lra.
Qed.

Lemma lastFrom_In (x0 : Q) (pts : list Q) : In (lastFrom x0 pts) (x0 :: pts).
Proof.
  revert x0. induction pts as [|x1 rest IH]; intro x0.
  - now left.
  - right. apply (IH x1).
Qed.

Lemma segmentsOf_spaced (params : SimulationParams) (r : Reactions) (x0 : Q) (pts : list Q) :
  Sorted spaced (x0 :: pts) ->
  contiguous (segmentsOf params r (x0 :: pts))
  /\ HdRel (fun s1 s2 => s_xB s1 == s_xA s2) (mkStep polyZero x0 x0)
           (segmentsOf params r (x0 :: pts))
  /\ covers (segmentsOf params r (x0 :: pts)) x0 (lastFrom x0 pts).
Proof.
  revert x0. induction pts as [|x1 rest IH]; intros x0 Hs.
  - cbn [segmentsOf lastFrom fold_left]. split; [constructor|]. split; [constructor|].
    intro x. split; [intros [H1 H2]; Lqa.lra | intros [s [[] _]]].
  - inversion Hs as [|? ? Hs' Hhd]; subst.
    inversion Hhd as [|? ? Hgap]; subst. unfold spaced in Hgap.
    destruct (IH x1 Hs') as (Hc & Hh & Hcov).
    pose proof (lastFrom_ge x1 rest Hs') as Hlast.
    rewrite segmentsOf_cons.
    assert (E : Qlt_bool (Math_abs (x0 - x1)) (1 # 100) = false).
    { apply Qlt_bool_false. unfold Math_abs. rewrite Qabs_neg by Lqa.lra. Lqa.lra. }
    rewrite E. change (lastFrom x0 (x1 :: rest)) with (lastFrom x1 rest).
    split; [|split].
    + constructor; [exact Hc|].
      destruct (segmentsOf params r (x1 :: rest)) as [|s ss]; constructor.
      inversion Hh; subst. cbn [s_xB] in *. assumption.
    + constructor. cbn [s_xB s_xA]. reflexivity.
    + intro x. split.
      * intros [Hx0 Hx]. destruct (Qlt_le_dec x x1) as [Hx1|Hx1].
        -- exists (mkStep (getPolynomial x0 x1 params r) x0 x1).
           split; [now left|]. cbn [s_xA s_xB]. split; assumption.
        -- destruct (proj1 (Hcov x)) as [s [Hin Hsx]]; [split; assumption|].
           exists s. split; [now right | exact Hsx].
      * intros [s [[<-|Hin] Hsx]].
        -- cbn [s_xA s_xB] in Hsx. Lqa.lra.
        -- destruct (proj2 (Hcov x)) as [Ha Hb]; [exists s; auto|]. Lqa.lra.
Qed.

Lemma sorted_spaced (l : list Q) :
  StronglySorted Qlt l ->
  (forall a b, In a l -> In b l -> a == b \/ (1 # 100) <= Qabs (a - b)) ->
  Sorted spaced l.
Proof.
  intros Hs Hsp. induction Hs as [|a l Hs IH Ha]; constructor.
  - apply IH. intros x y Hx Hy. apply Hsp; now right.
  - destruct l as [|b l']; constructor. unfold spaced.
    rewrite Forall_forall in Ha. assert (Hab : a < b) by (apply Ha; now left).
    destruct (Hsp a b) as [H|H]; [now left | right; now left | Lqa.lra |].
    rewrite Qabs_neg in H by Lqa.lra. Lqa.lra.
Qed.

Lemma sorted_head_least (x0 : Q) (pts : list Q) (p : Q) :
  StronglySorted Qlt (x0 :: pts) -> In p (x0 :: pts) -> x0 <= p.
Proof.
  intros Hs [<-|Hp]; [apply Qle_refl|].
  inversion Hs as [|? ? _ Hx]; subst. rewrite Forall_forall in Hx.
  apply Qlt_le_weak, Hx, Hp.
Qed.

Lemma sorted_last_greatest (x0 : Q) (pts : list Q) (p : Q) :
  StronglySorted Qlt (x0 :: pts) -> In p (x0 :: pts) -> p <= lastFrom x0 pts.
Proof.
  revert x0 p. induction pts as [|x1 rest IH]; intros x0 p Hs Hp.
  - destruct Hp as [<-|[]]. apply Qle_refl.
  - inversion Hs as [|? ? Hs' Hx]; subst.
    change (lastFrom x0 (x1 :: rest)) with (lastFrom x1 rest).
    destruct Hp as [<-|Hp]; [|apply IH; assumption].
    rewrite Forall_forall in Hx.
    apply Qle_trans with x1; [apply Qlt_le_weak, Hx; now left|].
    apply IH; [exact Hs' | now left].
Qed.

Lemma covers_ext (segs : list StepResult) (a b a' b' : Q) :
  a == a' -> b == b' -> covers segs a b -> covers segs a' b'.
Proof.
  intros Ha Hb H x. rewrite <- (H x), Ha, Hb. reflexivity.
Qed.

(** C5 (as amended). The segment list of [generateDetailedSteps] is
    sorted ascending and non-overlapping, every segment is at least 0.01
    long and its end points are break points (0, L, a support of an
    overhanging beam, or a load position); intervals between break points
    closer than 0.01 are left out.  When every break point lies in
    [0, L] and distinct break points are at least 0.01 apart, the
    segments are contiguous and their union is exactly [0, L). *)
Theorem segments_partition (params : SimulationParams) (r : Reactions) :
  let segs := generateDetailedSteps params r in
  (Forall (fun s => (1 # 100) <= s_xB s - s_xA s
                    /\ In (s_xA s) (rawPoints params)
                    /\ In (s_xB s) (rawPoints params)) segs
   /\ ascending segs)
  /\ (wellSpaced params -> contiguous segs /\ covers segs 0 (length params)).
Proof.
  intro segs. subst segs. split; [split|].
  - apply Forall_forall. intros s Hs.
    destruct (segment_facts params r s Hs) as (_ & H1 & H2 & H3 & _). auto.
  - apply segmentsOf_ascending, breakpoints_sorted.
  - intros [Hrange Hgap]. unfold generateDetailedSteps.
    pose proof (breakpoints_sorted params) as Hs.
    assert (Hsp : Sorted spaced (breakpoints params)).
    { apply sorted_spaced; [exact Hs|].
      intros a b Ha Hb. apply Hgap; apply breakpoints_incl; assumption. }
    assert (H0 : In 0 (rawPoints params)) by (unfold rawPoints; now left).
    assert (HL : In (length params) (rawPoints params))
      by (unfold rawPoints; right; now left).
    destruct (breakpoints_complete params 0 H0) as [z [Hz Hz0]].
    destruct (breakpoints_complete params _ HL) as [l [Hl HlL]].
    destruct (breakpoints params) as [|x0 pts] eqn:Epts; [contradiction|].
    destruct (segmentsOf_spaced params r x0 pts Hsp) as (Hc & _ & Hcov).
    split; [exact Hc|].
    apply (covers_ext _ x0 (lastFrom x0 pts)); [| |exact Hcov].
    + apply Qle_antisym.
      * rewrite <- Hz0. apply (sorted_head_least x0 pts); assumption.
      * apply Hrange, breakpoints_incl. rewrite Epts. now left.
    + apply Qle_antisym.
      * apply Hrange, breakpoints_incl. rewrite Epts. apply lastFrom_In.
      * rewrite <- HlL. apply sorted_last_greatest; assumption.
Qed.

Lemma defaultParams_wellSpaced : wellSpaced defaultParams.
Proof.
  split.
  - intros a [<-|[<-|[<-|[]]]]; split; vm_compute; discriminate.
  - intros a b [<-|[<-|[<-|[]]]] [<-|[<-|[<-|[]]]];
      first [left; reflexivity | right; vm_compute; discriminate].
Qed.

Lemma segments_partition_witness :
  wellSpaced defaultParams
  /\ covers (generateDetailedSteps defaultParams (solveReactions defaultParams))
            0 (length defaultParams).
Proof.
  split; [exact defaultParams_wellSpaced|].
  exact (proj2 (proj2 (segments_partition defaultParams (solveReactions defaultParams))
                  defaultParams_wellSpaced)).
Defined.

(** C5, the counterexample: with the base load 0.005 from the left end
    the interval [0, 0.005) is skipped; the list is the single segment
    [0.005, 8) and does not cover the beam. *)
Lemma segments_leave_gap :
  0 < length nearEndLoad
  /\ map (fun s => (s_xA s, s_xB s))
         (generateDetailedSteps nearEndLoad (solveReactions nearEndLoad))
     = [(1 # 200, 8)]
  /\ ~ covers (generateDetailedSteps nearEndLoad (solveReactions nearEndLoad))
              0 (length nearEndLoad).
Proof.
  split; [reflexivity|]. split; [vm_compute; reflexivity|].
  intro H. destruct (proj1 (H 0)) as [s [Hin Hs]].
  - split; [apply Qle_refl | reflexivity].
  - vm_compute in Hin. destruct Hin as [<-|[]].
    cbn [s_xA s_xB] in Hs. destruct Hs as [Hs _]. revert Hs. vm_compute.
    intro Hs. apply Hs. reflexivity.
Qed.

(** ** Jumps between neighbouring segments *)

Lemma evalV_add (c d : PolyCoeffs) (x : Q) :
  evalV (polyAdd c d) x == evalV c x + evalV d x.
Proof. unfold evalV, polyAdd. cbn [v2 v1 v0]. ring. Qed.

Lemma evalM_add (c d : PolyCoeffs) (x : Q) :
  evalM (polyAdd c d) x == evalM c x + evalM d x.
Proof. unfold evalM, polyAdd. cbn [m3 m2 m1 m0]. ring. Qed.

Lemma evalV_zero (x : Q) : evalV polyZero x == 0.
Proof. unfold evalV, polyZero. cbn [v2 v1 v0]. ring. Qed.

Lemma evalM_zero (x : Q) : evalM polyZero x == 0.
Proof. unfold evalM, polyZero. cbn [m3 m2 m1 m0]. ring. Qed.

Lemma fold_polyAdd_V (f : LoadDefinition -> PolyCoeffs) (loads : list LoadDefinition)
    (c : PolyCoeffs) (x : Q) :
  evalV (fold_left (fun c l => polyAdd c (f l)) loads c) x
  == evalV c x + sumQ (map (fun l => evalV (f l) x) loads).
Proof.
  revert c. induction loads as [|l loads IH]; intro c; cbn [fold_left map sumQ fold_right].
  - ring.
  - rewrite IH, evalV_add. fold (sumQ (map (fun l => evalV (f l) x) loads)). ring.
Qed.

Lemma fold_polyAdd_M (f : LoadDefinition -> PolyCoeffs) (loads : list LoadDefinition)
    (c : PolyCoeffs) (x : Q) :
  evalM (fold_left (fun c l => polyAdd c (f l)) loads c) x
  == evalM c x + sumQ (map (fun l => evalM (f l) x) loads).
Proof.
  revert c. induction loads as [|l loads IH]; intro c; cbn [fold_left map sumQ fold_right].
  - ring.
  - rewrite IH, evalM_add. fold (sumQ (map (fun l => evalM (f l) x) loads)). ring.
Qed.

(** The polynomial of a segment is the sum of the reaction terms and of
    the terms of each load. *)
Lemma getPolynomial_V (xA xB : Q) (params : SimulationParams) (r : Reactions) (x : Q) :
  evalV (getPolynomial xA xB params r) x
  == evalV (reactionTerms xA params r) x
     + sumQ (map (fun l => evalV (loadTerms xA xB l) x) (loadsOf params)).
Proof.
  unfold getPolynomial. rewrite fold_polyAdd_V, evalV_add, evalV_zero. ring.
Qed.

Lemma getPolynomial_M (xA xB : Q) (params : SimulationParams) (r : Reactions) (x : Q) :
  evalM (getPolynomial xA xB params r) x
  == evalM (reactionTerms xA params r) x
     + sumQ (map (fun l => evalM (loadTerms xA xB l) x) (loadsOf params)).
Proof.
  unfold getPolynomial. rewrite fold_polyAdd_M, evalM_add, evalM_zero. ring.
Qed.

Lemma sumQ_map_sub {A : Type} (f g h : A -> Q) (l : list A) :
  (forall a, In a l -> f a - g a == h a) ->
  sumQ (map f l) - sumQ (map g l) == sumQ (map h l).
Proof.
  induction l as [|a l IH]; intro H; cbn [map sumQ fold_right].
  - ring.
  - fold (sumQ (map f l)). fold (sumQ (map g l)). fold (sumQ (map h l)).
    rewrite <- IH by (intros; apply H; now right).
    rewrite <- (H a) by now left. ring.
Qed.

Lemma sumQ_map_zero {A : Type} (f : A -> Q) (l : list A) :
  (forall a, In a l -> f a == 0) -> sumQ (map f l) == 0.
Proof.
  induction l as [|a l IH]; intro H; cbn [map sumQ fold_right].
  - reflexivity.
  - fold (sumQ (map f l)). rewrite IH by (intros; apply H; now right).
    rewrite (H a) by now left. ring.
Qed.

Ltac flags :=
  repeat match goal with
  | H : Qle_bool _ _ = true |- _ => apply Qle_bool_iff in H
  | H : Qle_bool _ _ = false |- _ => apply Qle_bool_false in H
  | H : Qeq_bool _ _ = true |- _ => apply Qeq_bool_iff in H
  | H : Qeq_bool _ _ = false |- _ => apply Qeq_bool_neq in H
  end.

Lemma pointTerms_jump (xA b1 b2 xC x val : Q) :
  b1 == b2 -> xA < b1 -> b2 < xC ->
  (x <= xA \/ b1 <= x) ->
  let c1 := if Qle_bool x xA then mkPoly 0 0 (- val) (val * x) 0 0 (- val) else polyZero in
  let c2 := if Qle_bool x b2 then mkPoly 0 0 (- val) (val * x) 0 0 (- val) else polyZero in
  evalV c2 b1 - evalV c1 b1 == (if Qeq_bool x b1 then - val else 0)
  /\ evalM c2 b1 - evalM c1 b1 == 0.
Proof.
  intros Hb HA HC Hgap c1 c2. subst c1 c2.
  destruct (Qle_bool x xA) eqn:E1; destruct (Qle_bool x b2) eqn:E2;
    destruct (Qeq_bool x b1) eqn:E3; flags;
    unfold evalV, evalM, polyZero; cbn [m3 m2 m1 m0 v2 v1 v0];
    try (exfalso; Lqa.lra); try (split; ring).
  split; [ring|]. rewrite E3. ring.
Qed.

Lemma momentTerms_jump (xA b1 b2 xC x val : Q) :
  b1 == b2 -> xA < b1 -> b2 < xC ->
  (x <= xA \/ b1 <= x) ->
  let c1 := if Qle_bool x xA then mkPoly 0 0 0 (- val) 0 0 0 else polyZero in
  let c2 := if Qle_bool x b2 then mkPoly 0 0 0 (- val) 0 0 0 else polyZero in
  evalV c2 b1 - evalV c1 b1 == 0
  /\ evalM c2 b1 - evalM c1 b1 == (if Qeq_bool x b1 then - val else 0).
Proof.
  intros Hb HA HC Hgap c1 c2. subst c1 c2.
  destruct (Qle_bool x xA) eqn:E1; destruct (Qle_bool x b2) eqn:E2;
    destruct (Qeq_bool x b1) eqn:E3; flags;
    unfold evalV, evalM, polyZero; cbn [m3 m2 m1 m0 v2 v1 v0];
    try (exfalso; Lqa.lra); try (split; ring).
Qed.

(** In each consistent case the end points that coincide with the
    boundary are replaced by it and the identity is polynomial. *)
Ltac boundary_case x1 x2 b1 :=
  try (exfalso; Lqa.lra);
  unfold evalV, evalM, polyZero; cbn [m3 m2 m1 m0 v2 v1 v0];
  try (assert (Hx1b : x1 == b1) by Lqa.lra; rewrite Hx1b);
  try (assert (Hx2b : x2 == b1) by Lqa.lra; rewrite Hx2b);
  split; first [ring | field; Lqa.lra].

Lemma uniformTerms_jump (xA b1 b2 xC x1 x2 w : Q) :
  x1 <= x2 -> b1 == b2 -> xA < b1 -> b2 < xC ->
  (x1 <= xA \/ b1 <= x1) -> (x1 <= b2 \/ xC <= x1) ->
  (x2 <= xA \/ b1 <= x2) -> (x2 <= b2 \/ xC <= x2) ->
  let terms := fun xa xb =>
    if Qle_bool x2 xa then
      let F := w * (x2 - x1) in
      let cent := (x1 + x2) / 2 in
      mkPoly 0 0 (- F) (F * cent) 0 0 (- F)
    else if Qle_bool x1 xa && Qle_bool xb x2 then
      mkPoly 0 (- ((1 # 2) * w)) (w * x1) (- ((1 # 2) * w * x1 * x1)) 0 (- w) (w * x1)
    else polyZero in
  evalV (terms b2 xC) b1 - evalV (terms xA b1) b1 == 0
  /\ evalM (terms b2 xC) b1 - evalM (terms xA b1) b1 == 0.
Proof.
  intros Hord Hb HA HC G1 G1' G2 G2' terms. subst terms. cbv beta zeta.
  destruct (Qle_bool x2 xA) eqn:E1; destruct (Qle_bool x2 b2) eqn:E2;
    destruct (Qle_bool x1 xA) eqn:E3; destruct (Qle_bool b1 x2) eqn:E4;
    destruct (Qle_bool x1 b2) eqn:E5; destruct (Qle_bool xC x2) eqn:E6;
    cbn [andb]; flags; boundary_case x1 x2 b1.
Qed.


Ltac split_and_flags :=
  repeat match goal with
  | H : _ && _ = true |- _ => apply andb_true_iff in H; destruct H
  | H : _ && _ = false |- _ => apply andb_false_iff in H; destruct H
  end; flags.

Lemma triangleTerms_jump (xA b1 b2 xC x1 x2 w : Q) (right : bool) :
  x1 <= x2 -> b1 == b2 -> xA < b1 -> b2 < xC ->
  (x1 <= xA \/ b1 <= x1) -> (x1 <= b2 \/ xC <= x1) ->
  (x2 <= xA \/ b1 <= x2) -> (x2 <= b2 \/ xC <= x2) ->
  let terms := fun xa xb =>
    if Qle_bool x2 xa then
      let F := (1 # 2) * w * (x2 - x1) in
      let dist := if right then (x2 - x1) / 3 else 2 * (x2 - x1) / 3 in
      let cent := x2 - dist in
      mkPoly 0 0 (- F) (F * cent) 0 0 (- F)
    else if Qle_bool x1 xa && Qle_bool xb x2 then
      let L := x2 - x1 in
      let k := w / (6 * L) in
      let kv := w / (2 * L) in
      if right then
        mkPoly (- k) (3 * k * x1) (- (3 * k * x1 * x1)) (k * x1 * x1 * x1)
               (- kv) (2 * kv * x1) (- (kv * x1 * x1))
      else
        mkPoly k
               (- ((1 # 2) * w) + - (3 * k * x1))
               (w * x1 + 3 * k * x1 * x1)
               (- ((1 # 2) * w * x1 * x1) + - (k * x1 * x1 * x1))
               kv
               (- w + - (2 * kv * x1))
               (w * x1 + kv * x1 * x1)
    else polyZero in
  evalV (terms b2 xC) b1 - evalV (terms xA b1) b1 == 0
  /\ evalM (terms b2 xC) b1 - evalM (terms xA b1) b1 == 0.
Proof.
  intros Hord Hb HA HC G1 G1' G2 G2' terms. subst terms. cbv beta zeta.
  destruct (Qle_bool x2 xA) eqn:E1;
    [|destruct (Qle_bool x1 xA && Qle_bool b1 x2) eqn:E34];
    (destruct (Qle_bool x2 b2) eqn:E2;
     [|destruct (Qle_bool x1 b2 && Qle_bool xC x2) eqn:E56]);
    split_and_flags; try (exfalso; Lqa.lra); destruct right;
    boundary_case x1 x2 b1.
Qed.

Lemma loadTerms_jump (xA b1 b2 xC : Q) (l : LoadDefinition) :
  rangeOrdered l -> b1 == b2 -> xA < b1 -> b2 < xC ->
  (forall p, In p (loadPoints l) -> (p <= xA \/ b1 <= p) /\ (p <= b2 \/ xC <= p)) ->
  evalV (loadTerms b2 xC l) b1 - evalV (loadTerms xA b1 l) b1 == loadJumpV b1 l
  /\ evalM (loadTerms b2 xC l) b1 - evalM (loadTerms xA b1 l) b1 == loadJumpM b1 l.
Proof.
  intros Hord Hb HA HC Hgap.
  unfold loadTerms, loadJumpV, loadJumpM, loadPoints, rangeOrdered in *.
  destruct (l_type l).
  - destruct (l_x l) as [x|].
    + apply (pointTerms_jump xA b1 b2 xC); try assumption. apply Hgap. now left.
    + rewrite !evalV_zero, !evalM_zero. split; ring.
  - destruct (l_x1 l) as [x1|]; [destruct (l_x2 l) as [x2|]|];
      try (rewrite !evalV_zero, !evalM_zero; split; ring).
    apply (uniformTerms_jump xA b1 b2 xC); try assumption;
      apply Hgap; cbn; auto.
  - destruct (l_x1 l) as [x1|]; [destruct (l_x2 l) as [x2|]|];
      try (rewrite !evalV_zero, !evalM_zero; split; ring).
    apply (triangleTerms_jump xA b1 b2 xC x1 x2 (l_val l) (peakRight l)); try assumption;
      apply Hgap; cbn; auto.
  - destruct (l_x l) as [x|].
    + apply (momentTerms_jump xA b1 b2 xC); try assumption. apply Hgap. now left.
    + rewrite !evalV_zero, !evalM_zero. split; ring.
Qed.

Lemma forceTerms_jump (xA b1 b2 x F : Q) :
  b1 == b2 -> xA < b1 ->
  (x <= xA \/ b1 <= x) ->
  let c1 := if Qle_bool x xA then forceTerms F x else polyZero in
  let c2 := if Qle_bool x b2 then forceTerms F x else polyZero in
  evalV c2 b1 - evalV c1 b1 == (if Qeq_bool x b1 then F else 0)
  /\ evalM c2 b1 - evalM c1 b1 == 0.
Proof.
  intros Hb HA Hgap c1 c2. subst c1 c2.
  destruct (Qle_bool x xA) eqn:E1; destruct (Qle_bool x b2) eqn:E2;
    destruct (Qeq_bool x b1) eqn:E3; flags;
    unfold evalV, evalM, polyZero, forceTerms; cbn [m3 m2 m1 m0 v2 v1 v0];
    try (exfalso; Lqa.lra); try (split; ring).
  split; [ring|]. rewrite E3. ring.
Qed.

Lemma supports_are_points (params : SimulationParams) :
  isCantilever params = false ->
  In (polySupA params) (rawPoints params) /\ In (polySupB params) (rawPoints params).
Proof.
  unfold isCantilever, polySupA, polySupB, rawPoints.
  destruct (beamType params); cbn [BeamType_eqb app In]; intro H; try discriminate;
    split; auto 6.
Qed.

Lemma loadPoints_raw (params : SimulationParams) (l : LoadDefinition) (p : Q) :
  In l (loadsOf params) -> In p (loadPoints l) -> In p (rawPoints params).
Proof.
  intros Hl Hp. unfold rawPoints.
  apply in_or_app. right. apply in_or_app. right.
  apply in_flat_map. exists l. auto.
Qed.

Lemma reactionTerms_jump (params : SimulationParams) (r : Reactions) (xA b1 b2 : Q) :
  b1 == b2 -> xA < b1 -> gapFree params xA b1 ->
  evalV (reactionTerms b2 params r) b1 - evalV (reactionTerms xA params r) b1
    == supportJump params r b1
  /\ evalM (reactionTerms b2 params r) b1 - evalM (reactionTerms xA params r) b1 == 0.
Proof.
  intros Hb HA Hgap. unfold reactionTerms, supportJump.
  destruct (isCantilever params) eqn:Ec.
  - split; ring.
  - destruct (supports_are_points params Ec) as [HsA HsB].
    destruct (forceTerms_jump xA b1 b2 (polySupA params) (Ra r) Hb HA (Hgap _ HsA))
      as [HVa HMa].
    destruct (forceTerms_jump xA b1 b2 (polySupB params) (Rb r) Hb HA (Hgap _ HsB))
      as [HVb HMb].
    cbv zeta in HVa, HMa, HVb, HMb.
    rewrite !evalV_add, !evalM_add. rewrite <- HVa, <- HVb. split.
    + ring.
    + Lqa.lra.
Qed.

Lemma sumQ_loadJumpM_zero (params : SimulationParams) (b : Q) :
  noMomentAt params b -> momentJumpAt params b == 0.
Proof.
  intro H. unfold momentJumpAt. apply sumQ_map_zero. intros l Hl.
  unfold loadJumpM. destruct (l_type l) eqn:Et; try reflexivity.
  destruct (l_x l) as [x|] eqn:Ex; try reflexivity.
  destruct (Qeq_bool x b) eqn:E; [|reflexivity].
  apply Qeq_bool_iff in E. exfalso. exact (H l x Hl Et Ex E).
Qed.

Lemma shearJump_zero (params : SimulationParams) (r : Reactions) (b : Q) :
  noPointLoadAt params b -> noSupportAt params b -> shearJumpAt params r b == 0.
Proof.
  intros HP HS. unfold shearJumpAt.
  assert (H1 : sumQ (map (loadJumpV b) (loadsOf params)) == 0).
  { apply sumQ_map_zero. intros l Hl.
    unfold loadJumpV. destruct (l_type l) eqn:Et; try reflexivity.
    destruct (l_x l) as [x|] eqn:Ex; try reflexivity.
    destruct (Qeq_bool x b) eqn:E; [|reflexivity].
    apply Qeq_bool_iff in E. exfalso. exact (HP l x Hl Et Ex E). }
  rewrite H1. unfold supportJump. destruct HS as [Hc|[HA HB]].
  - rewrite Hc. ring.
  - destruct (isCantilever params); [ring|].
    destruct (Qeq_bool (polySupA params) b) eqn:EA;
      [apply Qeq_bool_iff in EA; contradiction|].
    destruct (Qeq_bool (polySupB params) b) eqn:EB;
      [apply Qeq_bool_iff in EB; contradiction|].
    ring.
Qed.

Lemma segment_jumps (params : SimulationParams) (r : Reactions) (s1 s2 : StepResult) :
  Forall rangeOrdered (loadsOf params) ->
  In s1 (generateDetailedSteps params r) ->
  In s2 (generateDetailedSteps params r) ->
  s_xB s1 == s_xA s2 ->
  evalM (s_poly s2) (s_xB s1) - evalM (s_poly s1) (s_xB s1) == momentJumpAt params (s_xB s1)
  /\ evalV (s_poly s2) (s_xB s1) - evalV (s_poly s1) (s_xB s1)
     == shearJumpAt params r (s_xB s1).
Proof.
  intros Hord H1 H2 Hb.
  destruct (segment_facts params r s1 H1) as (Hp1 & Hl1 & _ & _ & Hg1).
  destruct (segment_facts params r s2 H2) as (Hp2 & Hl2 & _ & _ & Hg2).
  rewrite Hp1, Hp2.
  set (xA := s_xA s1) in *. set (b1 := s_xB s1) in *.
  set (b2 := s_xA s2) in *. set (xC := s_xB s2) in *.
  assert (HA : xA < b1) by Lqa.lra. assert (HC : b2 < xC) by Lqa.lra.
  destruct (reactionTerms_jump params r xA b1 b2 Hb HA Hg1) as [HRV HRM].
  assert (Hloads : forall l, In l (loadsOf params) ->
            evalV (loadTerms b2 xC l) b1 - evalV (loadTerms xA b1 l) b1 == loadJumpV b1 l
            /\ evalM (loadTerms b2 xC l) b1 - evalM (loadTerms xA b1 l) b1 == loadJumpM b1 l).
  { intros l Hl. apply loadTerms_jump; try assumption.
    - rewrite Forall_forall in Hord. apply Hord, Hl.
    - intros p Hp. pose proof (loadPoints_raw params l p Hl Hp) as Hraw.
      split; [apply Hg1 | apply Hg2]; exact Hraw. }
  rewrite !getPolynomial_V, !getPolynomial_M.
  unfold momentJumpAt, shearJumpAt.
  rewrite <- (sumQ_map_sub (fun l => evalM (loadTerms b2 xC l) b1)
                           (fun l => evalM (loadTerms xA b1 l) b1) (loadJumpM b1))
    by (intros l Hl; apply (Hloads l Hl)).
  rewrite <- (sumQ_map_sub (fun l => evalV (loadTerms b2 xC l) b1)
                           (fun l => evalV (loadTerms xA b1 l) b1) (loadJumpV b1))
    by (intros l Hl; apply (Hloads l Hl)).
  rewrite <- HRV. split; [|ring].
  set (S2 := sumQ (map (fun l => evalM (loadTerms b2 xC l) b1) (loadsOf params))).
  set (S1 := sumQ (map (fun l => evalM (loadTerms xA b1 l) b1) (loadsOf params))).
  Lqa.lra.
Qed.

(** C4 (as amended). For range loads with [x1 <= x2], where a segment
    ends and another begins the two moment polynomials differ by the
    applied moments acting at that point (each lowers [M] by its
    magnitude) and agree when there is none; the two shear polynomials
    differ by the point actions at that point, the point loads (each
    lowers [V] by its magnitude) and, on a two-support beam, the reaction
    of a support located there, and agree when there is neither. *)
Theorem polynomial_jumps (params : SimulationParams) (r : Reactions) (s1 s2 : StepResult) :
  Forall rangeOrdered (loadsOf params) ->
  In s1 (generateDetailedSteps params r) ->
  In s2 (generateDetailedSteps params r) ->
  s_xB s1 == s_xA s2 ->
  let b := s_xB s1 in
  (evalM (s_poly s2) b - evalM (s_poly s1) b == momentJumpAt params b
   /\ evalV (s_poly s2) b - evalV (s_poly s1) b == shearJumpAt params r b)
  /\ (noMomentAt params b -> evalM (s_poly s2) b == evalM (s_poly s1) b)
  /\ (noPointLoadAt params b -> noSupportAt params b ->
      evalV (s_poly s2) b == evalV (s_poly s1) b).
Proof.
  intros Hord H1 H2 Hb b. subst b.
  destruct (segment_jumps params r s1 s2 Hord H1 H2 Hb) as [HM HV].
  split; [split; assumption|]. split.
  - intro Hno. rewrite (sumQ_loadJumpM_zero params _ Hno) in HM. Lqa.lra.
  - intros HnoP HnoS. rewrite (shearJump_zero params r _ HnoP HnoS) in HV. Lqa.lra.
Qed.

Lemma overhangSegments_intervals :
  map (fun s => (s_xA s, s_xB s)) overhangSegments = [(0, 1); (1, 4); (4, 7); (7, 8)].
Proof. vm_compute. reflexivity. Qed.

Lemma polynomial_jumps_witness :
  Forall rangeOrdered (loadsOf overhangDefault)
  /\ In (nth 0 overhangSegments noSegment) overhangSegments
  /\ In (nth 1 overhangSegments noSegment) overhangSegments
  /\ s_xB (nth 0 overhangSegments noSegment) == s_xA (nth 1 overhangSegments noSegment)
  /\ evalM (s_poly (nth 1 overhangSegments noSegment)) (s_xB (nth 0 overhangSegments noSegment))
       - evalM (s_poly (nth 0 overhangSegments noSegment)) (s_xB (nth 0 overhangSegments noSegment))
     == momentJumpAt overhangDefault (s_xB (nth 0 overhangSegments noSegment)).
Proof.
  assert (H0 : Forall rangeOrdered (loadsOf overhangDefault))
    by (repeat constructor).
  assert (H1 : In (nth 0 overhangSegments noSegment) overhangSegments)
    by (vm_compute; left; reflexivity).
  assert (H2 : In (nth 1 overhangSegments noSegment) overhangSegments)
    by (vm_compute; right; left; reflexivity).
  assert (H3 : s_xB (nth 0 overhangSegments noSegment)
               == s_xA (nth 1 overhangSegments noSegment))
    by (vm_compute; reflexivity).
  split; [exact H0|]. split; [exact H1|]. split; [exact H2|]. split; [exact H3|].
  exact (proj1 (proj1 (polynomial_jumps overhangDefault (solveReactions overhangDefault)
                         _ _ H0 H1 H2 H3))).
Defined.

(** C4, the counterexample: on the default beam carried by supports at
    x = 1 and x = 7 the segments [0, 1) and [1, 4) meet at the left
    support, where no point load acts, and the shear polynomials differ
    there by the reaction 25000. *)
Lemma shear_jumps_at_support :
  In (nth 0 overhangSegments noSegment) overhangSegments
  /\ In (nth 1 overhangSegments noSegment) overhangSegments
  /\ s_xB (nth 0 overhangSegments noSegment) == 1
  /\ s_xA (nth 1 overhangSegments noSegment) == 1
  /\ noPointLoadAt overhangDefault 1
  /\ evalV (s_poly (nth 0 overhangSegments noSegment)) 1 == 0
  /\ evalV (s_poly (nth 1 overhangSegments noSegment)) 1 == 25000
  /\ ~ (evalV (s_poly (nth 1 overhangSegments noSegment)) 1
        == evalV (s_poly (nth 0 overhangSegments noSegment)) 1).
Proof.
  split; [vm_compute; left; reflexivity|].
  split; [vm_compute; right; left; reflexivity|].
  split; [vm_compute; reflexivity|].
  split; [vm_compute; reflexivity|].
  split.
  { intros l x [<-|[]] _ Hx. cbn in Hx. injection Hx as <-. vm_compute. discriminate. }
  split; [vm_compute; reflexivity|].
  split; [vm_compute; reflexivity|].
  vm_compute. discriminate.
Qed.

(** ** The numeric sweep against the segment polynomials *)

Lemma sweep_nth (step : Q * Q -> nat -> Q * Q) (len a k : nat) (st d : Q * Q) :
  (k < len)%nat ->
  nth k (sweep step st (seq a len)) d
  = nat_rect (fun _ => (Q * Q)%type) (step st a)
             (fun j acc => step acc (a + S j)%nat) k.
Proof.
  revert a k st. induction len as [|len IH]; intros a k st Hk; [lia|].
  cbn [seq sweep]. destruct k as [|k].
  - reflexivity.
  - cbn [nth]. rewrite IH by lia. clear IH Hk.
    induction k as [|k IHk]; cbn [nat_rect].
    + f_equal. lia.
    + rewrite IHk. f_equal. lia.
Qed.

Lemma sweepState_rect (step : Q * Q -> nat -> Q * Q) (k : nat) :
  sweepState step k
  = nat_rect (fun _ => (Q * Q)%type) (step (0, 0) 0%nat)
             (fun j acc => step acc (0 + S j)%nat) k.
Proof.
  induction k as [|k IH]; cbn [sweepState nat_rect]; [reflexivity|].
  rewrite IH. reflexivity.
Qed.

Lemma diagram_nth (params : SimulationParams) (i : nat) :
  (i <= nSamples)%nat ->
  let st := sweepState (sweepStep params (solveReactions params) (loadsOf params)
                                  (stepSize params)) i in
  nth i (Vs (calculateAnalyticalDiagrams params)) 0 = fst st
  /\ nth i (Ms (calculateAnalyticalDiagrams params)) 0 = snd st
  /\ nth i (xs (calculateAnalyticalDiagrams params)) 0 = station (stepSize params) i.
Proof.
  intros Hi st. subst st. unfold calculateAnalyticalDiagrams. cbn [Vs Ms xs].
  rewrite sweepState_rect.
  split; [|split].
  - match goal with |- nth i (map fst ?l) 0 = _ =>
      pose proof (map_nth fst l (0, 0) i) as H end.
    cbn [fst] in H. rewrite H, sweep_nth by (unfold nSamples in *; lia). reflexivity.
  - match goal with |- nth i (map snd ?l) 0 = _ =>
      pose proof (map_nth snd l (0, 0) i) as H end.
    cbn [snd] in H. rewrite H, sweep_nth by (unfold nSamples in *; lia). reflexivity.
  - match goal with |- nth i (map ?f ?l) 0 = _ =>
      pose proof (map_nth f l 0%nat i) as H;
      rewrite (nth_indep _ 0 (f 0%nat)) by (rewrite length_map, length_seq; lia)
    end.
    rewrite H, seq_nth by lia. reflexivity.
Qed.

Lemma pointShear_acc (x dx V : Q) (l : LoadDefinition) :
  pointShear x dx V l == V + pointShear x dx 0 l.
Proof.
  unfold pointShear. destruct (l_type l); try ring.
  destruct (l_x l) as [lx|]; try ring. destruct (checkStep x lx dx); ring.
Qed.

Lemma intensity_acc (x q : Q) (l : LoadDefinition) :
  intensity x q l == q + intensity x 0 l.
Proof.
  unfold intensity. destruct (l_x1 l) as [x1|]; try ring.
  destruct (l_x2 l) as [x2|]; try ring.
  destruct (Qle_bool x1 x && Qle_bool x x2); try ring.
  destruct (l_type l); ring.
Qed.

Lemma pointMoment_acc (x dx Mo : Q) (l : LoadDefinition) :
  pointMoment x dx Mo l == Mo + pointMoment x dx 0 l.
Proof.
  unfold pointMoment. destruct (l_type l); try ring.
  destruct (l_x l) as [lx|]; try ring. destruct (checkStep x lx dx); ring.
Qed.

Lemma fold_acc (f : Q -> LoadDefinition -> Q) (loads : list LoadDefinition) (a : Q) :
  (forall a l, f a l == a + f 0 l) ->
  fold_left f loads a == a + sumQ (map (f 0) loads).
Proof.
  intro Hf. revert a. induction loads as [|l loads IH]; intro a;
    cbn [fold_left map sumQ fold_right].
  - ring.
  - fold (sumQ (map (f 0) loads)). rewrite IH, (Hf a l). ring.
Qed.

Lemma sweepStep_spec (params : SimulationParams) (r : Reactions)
    (loads : list LoadDefinition) (dx : Q) (st : Q * Q) (i : nat) :
  let R := reactionInc params r dx i in
  let v := fst st + (inc_v R + sumQ (map (fun l => inc_v (loadInc dx l i)) loads))
           - sumQ (map (fun l => inc_q (loadInc dx l i)) loads) * dx in
  fst (sweepStep params r loads dx st i) == v
  /\ snd (sweepStep params r loads dx st i)
     == snd st + v * dx + (inc_m R + sumQ (map (fun l => inc_m (loadInc dx l i)) loads)).
Proof.
  intros R v. subst R v. destruct st as [V Mo]. unfold sweepStep, reactionInc.
  cbv beta iota zeta. fold (station dx i). set (x := station dx i).
  cbn [fst snd].
  change (map (fun l => inc_v (loadInc dx l i)) loads) with (map (pointShear x dx 0) loads).
  change (map (fun l => inc_q (loadInc dx l i)) loads) with (map (intensity x 0) loads).
  change (map (fun l => inc_m (loadInc dx l i)) loads) with (map (pointMoment x dx 0) loads).
  pose proof (fun a => fold_acc (pointShear x dx) loads a
                         (fun a l => pointShear_acc x dx a l)) as HV.
  pose proof (fold_acc (intensity x) loads 0 (fun a l => intensity_acc x a l)) as HQ.
  pose proof (fun a => fold_acc (pointMoment x dx) loads a
                         (fun a l => pointMoment_acc x dx a l)) as HM.
  set (SV := sumQ (map (pointShear x dx 0) loads)) in *.
  set (SQ := sumQ (map (intensity x 0) loads)) in *.
  set (SM := sumQ (map (pointMoment x dx 0) loads)) in *.
  destruct (isCantilever params); cbn [negb andb].
  - destruct (checkStep x 0 dx); cbn [inc_v inc_m incZero];
      rewrite HM, HV, HQ; split; ring.
  - destruct (checkStep x (diagSupA params) dx); destruct (checkStep x (diagSupB params) dx);
      cbn [inc_v inc_m incZero incAdd]; rewrite HM, HV, HQ; split; ring.
Qed.

Lemma sumQ_map_add {A : Type} (f g : A -> Q) (l : list A) :
  sumQ (map (fun a => f a + g a) l) == sumQ (map f l) + sumQ (map g l).
Proof.
  induction l as [|a l IH]; cbn [map sumQ fold_right]; [ring|].
  fold (sumQ (map (fun a => f a + g a) l)). fold (sumQ (map f l)). fold (sumQ (map g l)).
  rewrite IH. ring.
Qed.

Lemma sumQ_map_scale {A : Type} (c : Q) (f : A -> Q) (l : list A) :
  sumQ (map (fun a => f a * c) l) == sumQ (map f l) * c.
Proof.
  induction l as [|a l IH]; cbn [map sumQ fold_right]; [ring|].
  fold (sumQ (map (fun a => f a * c) l)). fold (sumQ (map f l)).
  rewrite IH. ring.
Qed.

Lemma sumQ_map_eq {A : Type} (f g : A -> Q) (l : list A) :
  (forall a, In a l -> f a == g a) -> sumQ (map f l) == sumQ (map g l).
Proof.
  induction l as [|a l IH]; intro H; cbn [map sumQ fold_right]; [reflexivity|].
  fold (sumQ (map f l)). fold (sumQ (map g l)).
  rewrite IH by (intros; apply H; now right). rewrite (H a) by now left. reflexivity.
Qed.

Lemma sumQ_advance_v {A : Type} (dx : Q) (sv jv jq : A -> Q) (l : list A) :
  sumQ (map (fun a => sv a + jv a - jq a * dx) l)
  == sumQ (map sv l) + sumQ (map jv l) - sumQ (map jq l) * dx.
Proof.
  induction l as [|a l IH]; cbn [map sumQ fold_right]; [ring|].
  fold (sumQ (map (fun a => sv a + jv a - jq a * dx) l)).
  fold (sumQ (map sv l)). fold (sumQ (map jv l)). fold (sumQ (map jq l)).
  rewrite IH. ring.
Qed.

Lemma sumQ_advance_m {A : Type} (dx : Q) (sv sm jv jq jm : A -> Q) (l : list A) :
  sumQ (map (fun a => sm a + (sv a + jv a - jq a * dx) * dx + jm a) l)
  == sumQ (map sm l)
     + (sumQ (map sv l) + sumQ (map jv l) - sumQ (map jq l) * dx) * dx
     + sumQ (map jm l).
Proof.
  induction l as [|a l IH]; cbn [map sumQ fold_right]; [ring|].
  fold (sumQ (map (fun a => sm a + (sv a + jv a - jq a * dx) * dx + jm a) l)).
  fold (sumQ (map sv l)). fold (sumQ (map jv l)). fold (sumQ (map jq l)).
  fold (sumQ (map sm l)). fold (sumQ (map jm l)).
  rewrite IH. ring.
Qed.

(** The sweep is the sum of the runs of its sources. *)
Lemma sweepState_sources (params : SimulationParams) (r : Reactions)
    (loads : list LoadDefinition) (dx : Q) (i : nat) :
  let st := sweepState (sweepStep params r loads dx) i in
  fst st == fst (runInc dx (reactionInc params r dx) i)
            + sumQ (map (fun l => fst (runInc dx (loadInc dx l) i)) loads)
  /\ snd st == snd (runInc dx (reactionInc params r dx) i)
               + sumQ (map (fun l => snd (runInc dx (loadInc dx l) i)) loads).
Proof.
  cbv zeta.
  assert (Hreact : forall k, inc_q (reactionInc params r dx k) == 0).
  { intro k. unfold reactionInc. destruct (isCantilever params).
    - destruct (checkStep _ _ _); reflexivity.
    - destruct (checkStep _ (diagSupA params) _); destruct (checkStep _ (diagSupB params) _);
        cbn; ring. }
  assert (Hstep : forall (st : Q * Q) (vR mR : Q) (sv sm : LoadDefinition -> Q) (k : nat),
    fst st == vR + sumQ (map sv loads) ->
    snd st == mR + sumQ (map sm loads) ->
    fst (sweepStep params r loads dx st k)
      == fst (advance dx (vR, mR) (reactionInc params r dx k))
         + sumQ (map (fun l => fst (advance dx (sv l, sm l) (loadInc dx l k))) loads)
    /\ snd (sweepStep params r loads dx st k)
      == snd (advance dx (vR, mR) (reactionInc params r dx k))
         + sumQ (map (fun l => snd (advance dx (sv l, sm l) (loadInc dx l k))) loads)).
  { intros st vR mR sv sm k Hv Hm.
    destruct (sweepStep_spec params r loads dx st k) as [H1 H2]. cbv zeta in H1, H2.
    rewrite H2, H1, Hv, Hm. unfold advance. cbn [fst snd]. rewrite (Hreact k).
    rewrite (sumQ_advance_v dx sv (fun l => inc_v (loadInc dx l k))
                            (fun l => inc_q (loadInc dx l k)) loads).
    rewrite (sumQ_advance_m dx sv sm (fun l => inc_v (loadInc dx l k))
                            (fun l => inc_q (loadInc dx l k))
                            (fun l => inc_m (loadInc dx l k)) loads).
    split; ring. }
  induction i as [|i IH]; cbn [sweepState runInc].
  - destruct (Hstep (0, 0) 0 0 (fun _ => 0) (fun _ => 0) 0%nat) as [H1 H2].
    + cbn [fst]. rewrite sumQ_map_zero by reflexivity. ring.
    + cbn [snd]. rewrite sumQ_map_zero by reflexivity. ring.
    + split; [exact H1 | exact H2].
  - destruct IH as [IHv IHm].
    destruct (Hstep (sweepState (sweepStep params r loads dx) i)
                (fst (runInc dx (reactionInc params r dx) i))
                (snd (runInc dx (reactionInc params r dx) i))
                (fun l => fst (runInc dx (loadInc dx l) i))
                (fun l => snd (runInc dx (loadInc dx l) i)) (S i) IHv IHm) as [H1 H2].
    rewrite H1, H2.
    destruct (runInc dx (reactionInc params r dx) i) as [vR mR]. cbn [fst snd].
    split; apply Qplus_comp; try reflexivity;
      apply sumQ_map_eq; intros l _; destruct (runInc dx (loadInc dx l) i); reflexivity.
Qed.

(** *** Stations *)

Lemma station_0 (dx : Q) : station dx 0 == 0.
Proof. unfold station. cbn. ring. Qed.

Lemma station_S (dx : Q) (i : nat) : station dx (S i) == station dx i + dx.
Proof.
  unfold station. rewrite Nat2Z.inj_succ, <- Z.add_1_r, inject_Z_plus. ring.
Qed.

Lemma station_nonneg (dx : Q) (i : nat) : 0 <= dx -> 0 <= station dx i.
Proof.
  intro H. unfold station. apply Qmult_le_0_compat; [|exact H].
  change 0 with (inject_Z 0). rewrite <- Zle_Qle. lia.
Qed.

Lemma checkStep_true (x t dx : Q) : checkStep x t dx = true <-> t <= x /\ x < t + dx.
Proof.
  unfold checkStep. rewrite andb_true_iff, Qle_bool_iff, Qlt_bool_iff. reflexivity.
Qed.

Lemma checkStep_false (x t dx : Q) : checkStep x t dx = false <-> x < t \/ t + dx <= x.
Proof.
  unfold checkStep. rewrite andb_false_iff, Qle_bool_false, Qlt_bool_false. reflexivity.
Qed.

(** Any invariant that holds one step before station 0 for the empty
    state and is kept by [advance] holds along the run. *)
Lemma run_invariant (dx : Q) (inc : nat -> Increment) (Inv : Q -> Q -> Q -> Prop) :
  Inv (- dx) 0 0 ->
  (forall x v m i, Inv x v m -> station dx i == x + dx ->
     Inv (station dx i) (fst (advance dx (v, m) (inc i))) (snd (advance dx (v, m) (inc i)))) ->
  forall i, Inv (station dx i) (fst (runInc dx inc i)) (snd (runInc dx inc i)).
Proof.
  intros H0 Hstep i. induction i as [|i IH]; cbn [runInc].
  - apply (Hstep (- dx) 0 0 0%nat H0). rewrite station_0. ring.
  - destruct (runInc dx inc i) as [v m] eqn:E. cbn [fst snd] in IH.
    apply (Hstep _ v m (S i) IH). apply station_S.
Qed.

(** [nn a b] records that the product of two non-negative quantities is
    non-negative. *)
Ltac nn a b :=
  let H := fresh "Hnn" in
  assert (H : 0 <= a * b) by (apply Qmult_le_0_compat; Lqa.lra).

(** *** Bounds on the sums of a ramp *)

Lemma ramp_core_bound (y u dx A x : Q) :
  0 < dx -> 0 <= u <= dx -> 0 <= y <= A -> dx <= y + u -> y <= x ->
  - (3 * (A * dx * dx))
    <= 3 * (y + u) * dx * y + y * (2 * dx * dx - 3 * u * u) + 2 * u * (dx * dx - u * u)
    <= A * dx * (3 * x + 9 * dx).
Proof.
  intros Hdx Hu Hy HD Hyx.
  nn y dx. nn u dx. nn u u. nn dx dx. nn y u.
  assert (HA : 0 <= A) by Lqa.lra.
  nn A dx. nn A u.
  nn (A - y) (y * dx). nn (x - y) (A * dx).
  nn (A - y) (u * dx). nn (dx - u) (A * dx).
  nn (A - y) (dx * dx).
  nn y (u * u).
  nn (y - (dx - u)) (u * (dx + u)).
  nn (A - y) (u * (dx + u)).
  nn (dx - u) (A * u).
  nn (A - y) (u * u).
  nn y (y * dx). nn y (u * dx). nn y (dx * dx).
  nn (dx - u) (dx + u). nn u ((dx - u) * (dx + u)).
  split; Lqa.lra.
Qed.

Lemma ramp_shear_bound (y u dx A : Q) :
  0 < dx -> 0 <= u <= dx -> 0 <= y <= A -> A - dx < y ->
  (y == 0 /\ u == 0) \/ dx <= y + u ->
  - (A * dx) <= (1 # 2) * (y * y + y * dx + u * (dx - u) - A * A) <= A * dx.
Proof.
  intros Hdx Hu Hy HyA Hyu.
  assert (HA : 0 <= A) by Lqa.lra.
  nn A dx. nn y dx. nn (A - y) dx. nn (A - y) (A + y). nn (dx - (A - y)) (A + y).
  nn u (dx - u). nn y y.
  assert (Hu2 : u * (dx - u) <= A * dx).
  { destruct Hyu as [[Hy0 Hu0]|Hyu].
    - rewrite Hu0. Lqa.lra.
    - nn u (y - (dx - u)). nn (A - y) u. nn (dx - u) A. Lqa.lra. }
  split; Lqa.lra.
Qed.

Lemma ramp_moment_bound (y u dx A x1 x : Q) :
  0 < dx -> 0 <= u <= dx -> 0 <= y <= A -> A - dx < y ->
  (y == 0 /\ u == 0) \/ dx <= y + u ->
  0 <= x1 -> y <= x - x1 ->
  - (A * (dx * (x + 3 * dx)))
  <= (1 # 6) * ((A - y) * (A - y) * (3 * A - (A - y))
                + (3 * (y + u) * dx * y + y * (2 * dx * dx - 3 * u * u)
                   + 2 * u * (dx * dx - u * u)))
     + (x - x1 - y) * ((1 # 2) * (y * y + y * dx + u * (dx - u) - A * A))
  <= A * (dx * (x + 3 * dx)).
Proof.
  intros Hdx Hu Hy HyA Hyu H1 Hyx.
  assert (HA : 0 <= A) by Lqa.lra.
  pose proof (ramp_shear_bound y u dx A Hdx Hu Hy HyA Hyu) as [HV1 HV2].
  set (GV := (1 # 2) * (y * y + y * dx + u * (dx - u) - A * A)) in *.
  set (z := x - x1 - y). assert (Hz : 0 <= z) by (subst z; Lqa.lra).
  set (a := A - y). assert (Ha : 0 <= a <= dx) by (subst a; Lqa.lra).
  assert (HaA : a <= A) by (subst a; Lqa.lra).
  assert (Hcore : - (3 * (A * dx * dx))
    <= 3 * (y + u) * dx * y + y * (2 * dx * dx - 3 * u * u) + 2 * u * (dx * dx - u * u)
    <= A * dx * (3 * y + 9 * dx)).
  { destruct Hyu as [[Hy0 Hu0]|Hyu].
    - rewrite Hy0, Hu0. nn A dx. nn (A * dx) dx. split; Lqa.lra.
    - apply ramp_core_bound; try assumption. apply Qle_refl. }
  set (H := 3 * (y + u) * dx * y + y * (2 * dx * dx - 3 * u * u)
            + 2 * u * (dx * dx - u * u)) in *.
  nn A dx. nn (A * dx) dx. nn (A * dx) y. nn (A * dx) z. nn (A * dx) x1.
  nn z (A * dx - GV). nn z (A * dx + GV).
  nn a a. nn a (a * a). nn (dx - a) a. nn (dx - a) dx. nn A (dx * dx - a * a).
  nn (a * a) (3 * A - a).
  assert (Hx : x == x1 + y + z) by (subst z; ring).
  rewrite Hx.
  split; Lqa.lra.
Qed.

Section Sources.

Variable dx : Q.
Hypothesis dx_pos : 0 < dx.

(** *** A point action *)

Lemma impulse_run (t F J : Q) (i : nat) :
  0 <= t ->
  impulseInv dx t F J (station dx i)
             (fst (runInc dx (impulseInc dx t F J) i))
             (snd (runInc dx (impulseInc dx t F J) i)).
Proof.
  intro Ht. apply (run_invariant dx (impulseInc dx t F J) (impulseInv dx t F J)).
  - left. split; [Lqa.lra|]. split; reflexivity.
  - intros x v m k Hinv Hx. unfold advance, impulseInc. cbn [fst snd].
    set (x' := station dx k) in *.
    destruct (checkStep x' t dx) eqn:E; cbn [inc_v inc_q inc_m incZero].
    + apply checkStep_true in E. destruct E as [E1 E2].
      destruct Hinv as [(Hb & Hv & Hm)|(Ha & _)]; [|exfalso; Lqa.lra].
      right. split; [exact E1|]. split; [rewrite Hv; ring|].
      exists (dx - (x' - t)). split; [Lqa.lra|]. rewrite Hv, Hm. ring.
    + apply checkStep_false in E.
      destruct Hinv as [(Hb & Hv & Hm)|(Ha & Hv & u & Hu & Hm)].
      * left. destruct E as [E|E]; [|exfalso; Lqa.lra].
        split; [exact E|]. rewrite Hv, Hm. split; ring.
      * right. split; [Lqa.lra|]. split; [rewrite Hv; ring|].
        exists u. split; [exact Hu|]. rewrite Hv, Hm, Hx. ring.
Qed.

(** *** A uniform load *)

Lemma uniform_run (w x1 x2 : Q) (i : nat) :
  0 <= x1 -> x1 < x2 ->
  uniformInv dx w x1 x2 (station dx i)
             (fst (runInc dx (uniformInc dx w x1 x2) i))
             (snd (runInc dx (uniformInc dx w x1 x2) i)).
Proof.
  intros H1 H12.
  apply (run_invariant dx (uniformInc dx w x1 x2) (uniformInv dx w x1 x2)).
  - left. split; [Lqa.lra|]. split; reflexivity.
  - intros x v m k Hinv Hx. unfold advance, uniformInc. cbn [fst snd].
    set (x' := station dx k) in *.
    destruct (Qle_bool x1 x' && Qle_bool x' x2) eqn:E; cbn [inc_v inc_q inc_m incZero].
    + apply andb_true_iff in E. destruct E as [E1 E2]. flags.
      right. left. split; [split; assumption|].
      destruct Hinv as [(Hb & Hv & Hm)|[(Hi & u & Hu & HD & Hv & Hm)|(Ha & _)]];
        [| |exfalso; Lqa.lra].
      * exists (dx - (x' - x1)). split; [Lqa.lra|]. split; [Lqa.lra|].
        rewrite Hv, Hm. split; field.
      * exists u. split; [exact Hu|]. split; [Lqa.lra|].
        rewrite Hv, Hm, Hx. split; field.
    + apply andb_false_iff in E.
      assert (E' : x' < x1 \/ x2 < x') by (destruct E; flags; auto). clear E.
      destruct E' as [E|E].
      * left. destruct Hinv as [(Hb & Hv & Hm)|[(Hi & _)|(Ha & _)]];
          try (exfalso; Lqa.lra).
        split; [exact E|]. rewrite Hv, Hm. split; ring.
      * right. right. split; [exact E|].
        destruct Hinv as [(Hb & Hv & Hm)|[(Hi & u & Hu & HD & Hv & Hm)
                                         |(Ha & y & u & Hu & Hy & HyA & Hyx & Hv & Hm)]].
        -- exists 0, 0. split; [Lqa.lra|]. split; [Lqa.lra|]. split; [Lqa.lra|].
           split; [Lqa.lra|]. rewrite Hv, Hm. split; field.
        -- exists (x - x1), u. split; [exact Hu|]. split; [Lqa.lra|].
           split; [Lqa.lra|]. split; [Lqa.lra|]. rewrite Hv, Hm, Hx. split; field.
        -- exists y, u. split; [exact Hu|]. split; [exact Hy|].
           split; [exact HyA|]. split; [Lqa.lra|]. rewrite Hv, Hm, Hx. split; field.
Qed.

(** *** A ramp load *)

Lemma ramp_run (w x1 x2 : Q) (i : nat) :
  0 <= x1 -> x1 < x2 ->
  rampInv dx w x1 x2 (station dx i)
          (fst (runInc dx (rampInc dx w x1 x2) i))
          (snd (runInc dx (rampInc dx w x1 x2) i)).
Proof.
  intros H1 H12.
  assert (HA : ~ x2 - x1 == 0) by Lqa.lra.
  apply (run_invariant dx (rampInc dx w x1 x2) (rampInv dx w x1 x2)).
  - left. split; [Lqa.lra|]. split; reflexivity.
  - intros x v m k Hinv Hx. unfold advance, rampInc, rampInv, rampV, rampM in *.
    cbn [fst snd].
    set (x' := station dx k) in *.
    destruct (Qle_bool x1 x' && Qle_bool x' x2) eqn:E; cbn [inc_v inc_q inc_m incZero].
    + apply andb_true_iff in E. destruct E as [E1 E2]. flags.
      right. left. split; [split; assumption|].
      destruct Hinv as [(Hb & Hv & Hm)|[(Hi & u & Hu & HD & Hv & Hm)|(Ha & _)]];
        [| |exfalso; Lqa.lra].
      * exists (dx - (x' - x1)). split; [Lqa.lra|]. split; [Lqa.lra|].
        rewrite Hv, Hm. split; field; exact HA.
      * exists u. split; [exact Hu|]. split; [Lqa.lra|].
        rewrite Hv, Hm, Hx. split; field; exact HA.
    + apply andb_false_iff in E.
      assert (E' : x' < x1 \/ x2 < x') by (destruct E; flags; auto). clear E.
      destruct E' as [E|E].
      * left. destruct Hinv as [(Hb & Hv & Hm)|[(Hi & _)|(Ha & _)]];
          try (exfalso; Lqa.lra).
        split; [exact E|]. rewrite Hv, Hm. split; ring.
      * right. right. split; [exact E|].
        destruct Hinv as [(Hb & Hv & Hm)|[(Hi & u & Hu & HD & Hv & Hm)
                                         |(Ha & y & u & Hu & Hy & HyA & Hyx & Hyu & Hv & Hm)]].
        -- exists 0, 0. split; [Lqa.lra|]. split; [Lqa.lra|]. split; [Lqa.lra|].
           split; [Lqa.lra|]. split; [left; split; reflexivity|].
           rewrite Hv, Hm. split; field; exact HA.
        -- exists (x - x1), u. split; [exact Hu|]. split; [Lqa.lra|].
           split; [Lqa.lra|]. split; [Lqa.lra|]. split; [right; Lqa.lra|].
           rewrite Hv, Hm, Hx. split; field; exact HA.
        -- exists y, u. split; [exact Hu|]. split; [exact Hy|].
           split; [exact HyA|]. split; [Lqa.lra|]. split; [exact Hyu|].
           rewrite Hv, Hm, Hx. split; field; exact HA.
Qed.

(** *** Errors of the sources against their polynomial terms *)

Lemma Qabs_scaled (e c g B : Q) :
  e == c * g -> - B <= g <= B -> Qabs e <= Qabs c * B.
Proof.
  intros He Hg. rewrite He, Qabs_Qmult.
  rewrite (Qmult_comm (Qabs c) (Qabs g)), (Qmult_comm (Qabs c) B).
  apply Qmult_le_compat_r; [|apply Qabs_nonneg].
  apply Qabs_Qle_condition. exact Hg.
Qed.

Lemma uniform_error (l : LoadDefinition) (x1 x2 xA xB x v m : Q) :
  l_type l = U -> l_x1 l = Some x1 -> l_x2 l = Some x2 ->
  0 <= x1 -> x1 < x2 -> 0 <= x ->
  xA <= x < xB ->
  (x1 <= xA \/ xB <= x1) -> (x2 <= xA \/ xB <= x2) ->
  uniformInv dx (l_val l) x1 x2 x v m ->
  Qabs (v - evalV (loadTerms xA xB l) x) <= Qabs (l_val l) * dx
  /\ Qabs (m - evalM (loadTerms xA xB l) x) <= Qabs (l_val l) * (dx * (2 * x + 4 * dx)).
Proof.
  intros Ht Hx1 Hx2 H1 H12 Hx0 Hx G1 G2 Hinv.
  unfold loadTerms. rewrite Ht, Hx1, Hx2. set (w := l_val l) in *.
  destruct (Qle_bool x2 xA) eqn:E1;
    [|destruct (Qle_bool x1 xA && Qle_bool xB x2) eqn:E2];
    split_and_flags.
  all: unfold evalV, evalM, polyZero; cbn [m3 m2 m1 m0 v2 v1 v0].
  all: destruct Hinv as [(Hb & Hv & Hm)|[(Hi & u & Hu & HD & Hv & Hm)
                                      |(Ha & y & u & Hu & Hy & HyA & Hyx & Hv & Hm)]].
  all: try (exfalso; clear Hv Hm; Lqa.lra).
  - assert (Hxx : x2 == x) by Lqa.lra.
    split.
    + apply (Qabs_scaled _ w (- u)); [rewrite Hv, Hxx; ring | Lqa.lra].
    + apply (Qabs_scaled _ w (- ((1 # 2) * ((x - x1 + u) * (x - x1 + u + dx)))
                               + (1 # 2) * ((x - x1) * (x - x1))));
        [rewrite Hm, Hxx; field|].
      nn (x - x1) u; nn (x - x1) (dx - u); nn u u; nn u (dx - u); nn dx (dx - u);
        nn x1 dx; nn (x - x1) dx.
      split; Lqa.nra.
  - split.
    + apply (Qabs_scaled _ w (x2 - x1 - (y + u))); [rewrite Hv; ring | Lqa.lra].
    + apply (Qabs_scaled _ w ((x2 - x1 - y - u) * (x - x1 - y)
                               - (1 # 2) * ((x2 - x1 - y) * (x2 - x1 - y) + 2 * y * u + u * u
                                            + (y + u) * dx)));
        [rewrite Hm; field|].
      nn (dx - (x2 - x1 - y - u)) (x - x1 - y); nn (dx + (x2 - x1 - y - u)) (x - x1 - y);
        nn (x2 - x1 - y) (x2 - x1 - y); nn (x2 - x1 - y) (dx - (x2 - x1 - y));
        nn dx (dx - (x2 - x1 - y));
        nn y u; nn y (dx - u); nn u u; nn u (dx - u); nn dx (dx - u);
        nn x1 dx; nn (x - x1 - y) dx; nn y dx.
      split; Lqa.nra.
  - split.
    + apply (Qabs_scaled _ w (- u)); [rewrite Hv; ring | Lqa.lra].
    + apply (Qabs_scaled _ w (- ((1 # 2) * ((x - x1 + u) * (x - x1 + u + dx)))
                               + (1 # 2) * ((x - x1) * (x - x1))));
        [rewrite Hm; field|].
      nn (x - x1) u; nn (x - x1) (dx - u); nn u u; nn u (dx - u); nn dx (dx - u);
        nn x1 dx; nn (x - x1) dx.
      split; Lqa.nra.
  - split.
    + apply (Qabs_scaled _ w 0); [rewrite Hv; ring | Lqa.lra].
    + apply (Qabs_scaled _ w 0); [rewrite Hm; ring|].
      nn x dx; nn dx dx. split; Lqa.nra.
Qed.

Lemma Qabs_scaled_div (e w A G B : Q) :
  0 < A -> e == - (w / A) * G -> - (A * B) <= G <= A * B -> Qabs e <= Qabs w * B.
Proof.
  intros HA He [Hlo Hhi].
  apply (Qabs_scaled e w (- (G / A))); [rewrite He; field; Lqa.lra|].
  split.
  - apply Qopp_le_compat. apply Qle_shift_div_r; [exact HA|]. Lqa.lra.
  - rewrite <- (Qopp_involutive B). apply Qopp_le_compat.
    apply Qle_shift_div_l; [exact HA|]. Lqa.lra.
Qed.

Lemma ramp_error (l : LoadDefinition) (x1 x2 xA xB x v m : Q) :
  l_type l = T -> l_x1 l = Some x1 -> l_x2 l = Some x2 -> peakRight l = true ->
  0 <= x1 -> x1 < x2 -> 0 <= x ->
  xA <= x < xB ->
  (x1 <= xA \/ xB <= x1) -> (x2 <= xA \/ xB <= x2) ->
  rampInv dx (l_val l) x1 x2 x v m ->
  Qabs (v - evalV (loadTerms xA xB l) x) <= Qabs (l_val l) * dx
  /\ Qabs (m - evalM (loadTerms xA xB l) x) <= Qabs (l_val l) * (dx * (x + 3 * dx)).
Proof.
  intros Ht Hx1 Hx2 Hpk H1 H12 Hx0 Hx G1 G2 Hinv.
  assert (HA : 0 < x2 - x1) by Lqa.lra.
  unfold loadTerms. rewrite Ht, Hx1, Hx2, Hpk. set (w := l_val l) in *.
  unfold rampInv, rampV, rampM in Hinv.
  destruct (Qle_bool x2 xA) eqn:E1;
    [|destruct (Qle_bool x1 xA && Qle_bool xB x2) eqn:E2];
    split_and_flags.
  all: unfold evalV, evalM, polyZero; cbn [m3 m2 m1 m0 v2 v1 v0].
  all: destruct Hinv as [(Hb & Hv & Hm)|[(Hi & u & Hu & HD & Hv & Hm)
                                      |(Ha & y & u & Hu & Hy & HyA & Hyx & Hyu & Hv & Hm)]].
  all: try (exfalso; clear Hv Hm; Lqa.lra).
  - (* the station is the right end of the span *)
    assert (Hxx : x2 == x) by Lqa.lra.
    assert (Hy : 0 < x - x1) by Lqa.lra.
    split.
    + apply (Qabs_scaled_div _ w (x - x1)
               ((1 # 2) * ((x - x1) * dx + u * (dx - u)))); [exact Hy| |].
      * rewrite Hv, Hxx. field. Lqa.lra.
      * split; Lqa.nra.
    + apply (Qabs_scaled_div _ w (x - x1)
               ((1 # 6) * (3 * (x - x1 + u) * dx * (x - x1)
                           + (x - x1) * (2 * dx * dx - 3 * u * u)
                           + 2 * u * (dx * dx - u * u)))); [exact Hy| |].
      * rewrite Hm, Hxx. field. Lqa.lra.
      * pose proof (ramp_core_bound (x - x1) u dx (x - x1) x dx_pos Hu
                      ltac:(Lqa.lra) ltac:(Lqa.lra) ltac:(Lqa.lra)) as Hc.
        nn (x - x1) dx. nn ((x - x1) * dx) dx. nn ((x - x1) * dx) x.
        split; Lqa.lra.
  - (* beyond the span *)
    split.
    + apply (Qabs_scaled_div _ w (x2 - x1)
               ((1 # 2) * (y * y + y * dx + u * (dx - u) - (x2 - x1) * (x2 - x1))));
        [exact HA| |].
      * rewrite Hv. field. Lqa.lra.
      * apply ramp_shear_bound; try assumption; Lqa.lra.
    + apply (Qabs_scaled_div _ w (x2 - x1)
               ((1 # 6) * ((x2 - x1 - y) * (x2 - x1 - y) * (3 * (x2 - x1) - (x2 - x1 - y))
                           + (3 * (y + u) * dx * y + y * (2 * dx * dx - 3 * u * u)
                              + 2 * u * (dx * dx - u * u)))
                + (x - x1 - y)
                  * ((1 # 2) * (y * y + y * dx + u * (dx - u) - (x2 - x1) * (x2 - x1)))));
        [exact HA| |].
      * rewrite Hm. field. Lqa.lra.
      * apply ramp_moment_bound; try assumption; Lqa.lra.
  - (* inside the span *)
    assert (Hy : 0 <= x - x1) by Lqa.lra.
    split.
    + apply (Qabs_scaled_div _ w (x2 - x1)
               ((1 # 2) * ((x - x1) * dx + u * (dx - u)))); [exact HA| |].
      * rewrite Hv. field. Lqa.lra.
      * split; Lqa.nra.
    + apply (Qabs_scaled_div _ w (x2 - x1)
               ((1 # 6) * (3 * (x - x1 + u) * dx * (x - x1)
                           + (x - x1) * (2 * dx * dx - 3 * u * u)
                           + 2 * u * (dx * dx - u * u)))); [exact HA| |].
      * rewrite Hm. field. Lqa.lra.
      * pose proof (ramp_core_bound (x - x1) u dx (x2 - x1) x dx_pos Hu
                      ltac:(Lqa.lra) ltac:(Lqa.lra) ltac:(Lqa.lra)) as Hc.
        nn (x2 - x1) dx. nn ((x2 - x1) * dx) dx. nn ((x2 - x1) * dx) x.
        split; Lqa.lra.
  - split.
    + apply (Qabs_scaled _ w 0); [rewrite Hv; ring | Lqa.lra].
    + apply (Qabs_scaled _ w 0); [rewrite Hm; ring|].
      nn x dx; nn dx dx. split; Lqa.nra.
Qed.

Lemma impulse_error (t F J xA xB x v m : Q) :
  xA <= x < xB -> (t <= xA \/ xB <= t) ->
  impulseInv dx t F J x v m ->
  v == (if Qle_bool t xA then F else 0)
  /\ Qabs (m - (if Qle_bool t xA then F * (x - t) + J else 0)) <= Qabs F * dx.
Proof.
  intros Hx G Hinv.
  destruct (Qle_bool t xA) eqn:E; flags;
    (destruct Hinv as [(Hb & Hv & Hm)|(Ha & Hv & u & Hu & Hm)];
     [|]; try (exfalso; Lqa.lra)).
  - split; [exact Hv|].
    apply (Qabs_scaled _ F u); [rewrite Hm; ring | Lqa.lra].
  - split; [exact Hv|].
    apply (Qabs_scaled _ F 0); [rewrite Hm; ring | Lqa.lra].
Qed.

(** *** Runs are linear in their increments *)

Lemma run_add (f g h : nat -> Increment) (i : nat) :
  (forall k, inc_v (f k) == inc_v (g k) + inc_v (h k)
             /\ inc_q (f k) == inc_q (g k) + inc_q (h k)
             /\ inc_m (f k) == inc_m (g k) + inc_m (h k)) ->
  fst (runInc dx f i) == fst (runInc dx g i) + fst (runInc dx h i)
  /\ snd (runInc dx f i) == snd (runInc dx g i) + snd (runInc dx h i).
Proof.
  intro H. induction i as [|i [IHv IHm]]; cbn [runInc]; unfold advance; cbn [fst snd].
  - destruct (H 0%nat) as (Hv & Hq & Hm). rewrite Hv, Hq, Hm. split; ring.
  - destruct (H (S i)) as (Hv & Hq & Hm). rewrite Hv, Hq, Hm, IHv, IHm. split; ring.
Qed.

Lemma run_sub (f g h : nat -> Increment) (i : nat) :
  (forall k, inc_v (f k) == inc_v (g k) - inc_v (h k)
             /\ inc_q (f k) == inc_q (g k) - inc_q (h k)
             /\ inc_m (f k) == inc_m (g k) - inc_m (h k)) ->
  fst (runInc dx f i) == fst (runInc dx g i) - fst (runInc dx h i)
  /\ snd (runInc dx f i) == snd (runInc dx g i) - snd (runInc dx h i).
Proof.
  intro H. induction i as [|i [IHv IHm]]; cbn [runInc]; unfold advance; cbn [fst snd].
  - destruct (H 0%nat) as (Hv & Hq & Hm). rewrite Hv, Hq, Hm. split; ring.
  - destruct (H (S i)) as (Hv & Hq & Hm). rewrite Hv, Hq, Hm, IHv, IHm. split; ring.
Qed.

Lemma run_ext (f g : nat -> Increment) (i : nat) :
  (forall k, inc_v (f k) == inc_v (g k)
             /\ inc_q (f k) == inc_q (g k)
             /\ inc_m (f k) == inc_m (g k)) ->
  fst (runInc dx f i) == fst (runInc dx g i)
  /\ snd (runInc dx f i) == snd (runInc dx g i).
Proof.
  intro H. induction i as [|i [IHv IHm]]; cbn [runInc]; unfold advance; cbn [fst snd].
  - destruct (H 0%nat) as (Hv & Hq & Hm). rewrite Hv, Hq, Hm. split; ring.
  - destruct (H (S i)) as (Hv & Hq & Hm). rewrite Hv, Hq, Hm, IHv, IHm. split; ring.
Qed.

Lemma run_zero (f : nat -> Increment) (i : nat) :
  (forall k, inc_v (f k) == 0 /\ inc_q (f k) == 0 /\ inc_m (f k) == 0) ->
  fst (runInc dx f i) == 0 /\ snd (runInc dx f i) == 0.
Proof.
  intro H. induction i as [|i [IHv IHm]]; cbn [runInc]; unfold advance; cbn [fst snd].
  - destruct (H 0%nat) as (Hv & Hq & Hm). rewrite Hv, Hq, Hm. split; ring.
  - destruct (H (S i)) as (Hv & Hq & Hm). rewrite Hv, Hq, Hm, IHv, IHm. split; ring.
Qed.

(** *** One load against its polynomial terms *)

Lemma Qabs_zero_le (e B : Q) : e == 0 -> 0 <= B -> Qabs e <= B.
Proof. intros He HB. rewrite He. exact HB. Qed.

Lemma load_error_none (l : LoadDefinition) (xA xB : Q) (i : nat) (B1 B2 : Q) :
  (forall k, inc_v (loadInc dx l k) == 0 /\ inc_q (loadInc dx l k) == 0
             /\ inc_m (loadInc dx l k) == 0) ->
  loadTerms xA xB l = polyZero -> 0 <= B1 -> 0 <= B2 ->
  Qabs (fst (runInc dx (loadInc dx l) i) - evalV (loadTerms xA xB l) (station dx i)) <= B1
  /\ Qabs (snd (runInc dx (loadInc dx l) i) - evalM (loadTerms xA xB l) (station dx i)) <= B2.
Proof.
  intros Hinc Hterms HB1 HB2. destruct (run_zero (loadInc dx l) i Hinc) as [Hv Hm].
  rewrite Hterms, evalV_zero, evalM_zero, Hv, Hm. split; assumption.
Qed.

Lemma point_load_error (l : LoadDefinition) (t xA xB : Q) (i : nat) :
  l_type l = P -> l_x l = Some t -> 0 <= t ->
  xA <= station dx i < xB -> (t <= xA \/ xB <= t) ->
  Qabs (fst (runInc dx (loadInc dx l) i) - evalV (loadTerms xA xB l) (station dx i)) <= 0
  /\ Qabs (snd (runInc dx (loadInc dx l) i) - evalM (loadTerms xA xB l) (station dx i))
     <= Qabs (l_val l) * dx.
Proof.
  intros Ht Hx H0 Hst G.
  destruct (run_ext (loadInc dx l) (impulseInc dx t (- l_val l) 0) i) as [Ev Em].
  { intro k. unfold loadInc, impulseInc, pointShear, intensity, pointMoment.
    rewrite Ht, Hx. cbn [inc_v inc_q inc_m].
    destruct (checkStep (station dx k) t dx); cbn [inc_v inc_q inc_m incZero];
      (split; [ring|split; [|reflexivity]]);
      destruct (l_x1 l); try reflexivity; destruct (l_x2 l); try reflexivity;
      destruct (_ && _); reflexivity. }
  pose proof (impulse_run t (- l_val l) 0 i H0) as Hinv.
  destruct (impulse_error _ _ _ xA xB _ _ _ Hst G Hinv) as [Hv Hm].
  unfold loadTerms. rewrite Ht, Hx, Ev, Em.
  destruct (Qle_bool t xA); unfold evalV, evalM, polyZero; cbn [m3 m2 m1 m0 v2 v1 v0].
  - split.
    + apply Qabs_zero_le; [rewrite Hv; ring | apply Qle_refl].
    + rewrite Qabs_opp in Hm. eapply Qle_trans; [|exact Hm].
      apply Qle_lteq. right. apply Qabs_wd. ring.
  - split.
    + apply Qabs_zero_le; [rewrite Hv; ring | apply Qle_refl].
    + rewrite Qabs_opp in Hm. eapply Qle_trans; [|exact Hm].
      apply Qle_lteq. right. apply Qabs_wd. ring.
Qed.

Lemma moment_load_error (l : LoadDefinition) (t xA xB : Q) (i : nat) :
  l_type l = M -> l_x l = Some t -> 0 <= t ->
  xA <= station dx i < xB -> (t <= xA \/ xB <= t) ->
  Qabs (fst (runInc dx (loadInc dx l) i) - evalV (loadTerms xA xB l) (station dx i)) <= 0
  /\ Qabs (snd (runInc dx (loadInc dx l) i) - evalM (loadTerms xA xB l) (station dx i)) <= 0.
Proof.
  intros Ht Hx H0 Hst G.
  destruct (run_ext (loadInc dx l) (impulseInc dx t 0 (- l_val l)) i) as [Ev Em].
  { intro k. unfold loadInc, impulseInc, pointShear, intensity, pointMoment.
    rewrite Ht, Hx. cbn [inc_v inc_q inc_m].
    destruct (checkStep (station dx k) t dx); cbn [inc_v inc_q inc_m incZero];
      (split; [reflexivity|split; [|ring]]);
      destruct (l_x1 l); try reflexivity; destruct (l_x2 l); try reflexivity;
      destruct (_ && _); reflexivity. }
  pose proof (impulse_run t 0 (- l_val l) i H0) as Hinv.
  destruct (impulse_error _ _ _ xA xB _ _ _ Hst G Hinv) as [Hv Hm].
  unfold loadTerms. rewrite Ht, Hx, Ev, Em.
  assert (Hz : Qabs 0 * dx == 0) by (cbn; ring). rewrite Hz in Hm.
  destruct (Qle_bool t xA); unfold evalV, evalM, polyZero; cbn [m3 m2 m1 m0 v2 v1 v0].
  - split.
    + apply Qabs_zero_le; [rewrite Hv; ring | apply Qle_refl].
    + eapply Qle_trans; [|exact Hm]. apply Qle_lteq. right. apply Qabs_wd. ring.
  - split.
    + apply Qabs_zero_le; [rewrite Hv; ring | apply Qle_refl].
    + eapply Qle_trans; [|exact Hm]. apply Qle_lteq. right. apply Qabs_wd. ring.
Qed.

Lemma uniform_load_error (l : LoadDefinition) (x1 x2 xA xB : Q) (i : nat) :
  l_type l = U -> l_x1 l = Some x1 -> l_x2 l = Some x2 ->
  0 <= x1 -> x1 < x2 ->
  xA <= station dx i < xB ->
  (x1 <= xA \/ xB <= x1) -> (x2 <= xA \/ xB <= x2) ->
  Qabs (fst (runInc dx (loadInc dx l) i) - evalV (loadTerms xA xB l) (station dx i))
    <= Qabs (l_val l) * dx
  /\ Qabs (snd (runInc dx (loadInc dx l) i) - evalM (loadTerms xA xB l) (station dx i))
     <= Qabs (l_val l) * (dx * (2 * station dx i + 4 * dx)).
Proof.
  intros Ht Hx1 Hx2 H1 H12 Hst G1 G2.
  destruct (run_ext (loadInc dx l) (uniformInc dx (l_val l) x1 x2) i) as [Ev Em].
  { intro k. unfold loadInc, uniformInc, pointShear, intensity, pointMoment.
    rewrite Ht, Hx1, Hx2. cbn [inc_v inc_q inc_m].
    destruct (_ && _); cbn [inc_v inc_q inc_m incZero];
      (split; [reflexivity|split; [|reflexivity]]); ring. }
  pose proof (uniform_run (l_val l) x1 x2 i H1 H12) as Hinv.
  rewrite Ev, Em.
  apply (uniform_error l x1 x2 xA xB); try assumption.
  apply station_nonneg. Lqa.lra.
Qed.

Lemma ramp_load_error (l : LoadDefinition) (x1 x2 xA xB : Q) (i : nat) :
  l_type l = T -> l_x1 l = Some x1 -> l_x2 l = Some x2 -> peakRight l = true ->
  0 <= x1 -> x1 < x2 ->
  xA <= station dx i < xB ->
  (x1 <= xA \/ xB <= x1) -> (x2 <= xA \/ xB <= x2) ->
  Qabs (fst (runInc dx (loadInc dx l) i) - evalV (loadTerms xA xB l) (station dx i))
    <= Qabs (l_val l) * dx
  /\ Qabs (snd (runInc dx (loadInc dx l) i) - evalM (loadTerms xA xB l) (station dx i))
     <= Qabs (l_val l) * (dx * (station dx i + 3 * dx)).
Proof.
  intros Ht Hx1 Hx2 Hpk H1 H12 Hst G1 G2.
  destruct (run_ext (loadInc dx l) (rampInc dx (l_val l) x1 x2) i) as [Ev Em].
  { intro k. unfold loadInc, rampInc, pointShear, intensity, pointMoment.
    rewrite Ht, Hx1, Hx2, Hpk. cbn [inc_v inc_q inc_m].
    destruct (_ && _); cbn [inc_v inc_q inc_m incZero];
      (split; [reflexivity|split; [|reflexivity]]); ring. }
  pose proof (ramp_run (l_val l) x1 x2 i H1 H12) as Hinv.
  rewrite Ev, Em.
  apply (ramp_error l x1 x2 xA xB); try assumption.
  apply station_nonneg. Lqa.lra.
Qed.

Lemma asUniform_error (l : LoadDefinition) (x1 x2 xA xB : Q) (i : nat) :
  l_x1 l = Some x1 -> l_x2 l = Some x2 ->
  0 <= x1 -> x1 < x2 ->
  xA <= station dx i < xB ->
  (x1 <= xA \/ xB <= x1) -> (x2 <= xA \/ xB <= x2) ->
  Qabs (fst (runInc dx (loadInc dx (asUniform l)) i)
        - evalV (loadTerms xA xB (asUniform l)) (station dx i))
    <= Qabs (l_val l) * dx
  /\ Qabs (snd (runInc dx (loadInc dx (asUniform l)) i)
           - evalM (loadTerms xA xB (asUniform l)) (station dx i))
     <= Qabs (l_val l) * (dx * (2 * station dx i + 4 * dx)).
Proof.
  intros. apply (uniform_load_error (asUniform l) x1 x2); auto.
Qed.

Lemma asRamp_error (l : LoadDefinition) (x1 x2 xA xB : Q) (i : nat) :
  l_x1 l = Some x1 -> l_x2 l = Some x2 ->
  0 <= x1 -> x1 < x2 ->
  xA <= station dx i < xB ->
  (x1 <= xA \/ xB <= x1) -> (x2 <= xA \/ xB <= x2) ->
  Qabs (fst (runInc dx (loadInc dx (asRamp l)) i)
        - evalV (loadTerms xA xB (asRamp l)) (station dx i))
    <= Qabs (l_val l) * dx
  /\ Qabs (snd (runInc dx (loadInc dx (asRamp l)) i)
           - evalM (loadTerms xA xB (asRamp l)) (station dx i))
     <= Qabs (l_val l) * (dx * (station dx i + 3 * dx)).
Proof.
  intros. apply (ramp_load_error (asRamp l) x1 x2); auto.
Qed.

(** A triangular load peaking on the left is the uniform load less the
    ramp, in the sweep and in the polynomial terms. *)
Lemma leftPeak_terms (l : LoadDefinition) (x1 x2 xA xB x : Q) :
  l_type l = T -> l_x1 l = Some x1 -> l_x2 l = Some x2 -> peakRight l = false ->
  x1 < x2 ->
  evalV (loadTerms xA xB l) x
    == evalV (loadTerms xA xB (asUniform l)) x - evalV (loadTerms xA xB (asRamp l)) x
  /\ evalM (loadTerms xA xB l) x
    == evalM (loadTerms xA xB (asUniform l)) x - evalM (loadTerms xA xB (asRamp l)) x.
Proof.
  intros Ht Hx1 Hx2 Hpk H12. unfold loadTerms, asUniform, asRamp.
  cbn [l_type l_x1 l_x2 l_val peakRight l_peak]. rewrite Ht, Hx1, Hx2, Hpk.
  destruct (Qle_bool x2 xA); [|destruct (Qle_bool x1 xA && Qle_bool xB x2)];
    unfold evalV, evalM, polyZero; cbn [m3 m2 m1 m0 v2 v1 v0];
    split; field; Lqa.lra.
Qed.

Lemma leftPeak_load_error (l : LoadDefinition) (x1 x2 xA xB : Q) (i : nat) :
  l_type l = T -> l_x1 l = Some x1 -> l_x2 l = Some x2 -> peakRight l = false ->
  0 <= x1 -> x1 < x2 ->
  xA <= station dx i < xB ->
  (x1 <= xA \/ xB <= x1) -> (x2 <= xA \/ xB <= x2) ->
  Qabs (fst (runInc dx (loadInc dx l) i) - evalV (loadTerms xA xB l) (station dx i))
    <= 2 * Qabs (l_val l) * dx
  /\ Qabs (snd (runInc dx (loadInc dx l) i) - evalM (loadTerms xA xB l) (station dx i))
     <= 3 * (Qabs (l_val l) * (dx * (station dx i + 3 * dx))).
Proof.
  intros Ht Hx1 Hx2 Hpk H1 H12 Hst G1 G2.
  destruct (run_sub (loadInc dx l) (loadInc dx (asUniform l)) (loadInc dx (asRamp l)) i)
    as [Ev Em].
  { intro k. unfold loadInc, asUniform, asRamp, pointShear, intensity, pointMoment.
    cbn [l_type l_x l_x1 l_x2 l_val peakRight l_peak]. rewrite Ht, Hx1, Hx2, Hpk.
    cbn [inc_v inc_q inc_m].
    destruct (_ && _); (split; [ring|split; [|ring]]); field; Lqa.lra. }
  destruct (leftPeak_terms l x1 x2 xA xB (station dx i) Ht Hx1 Hx2 Hpk H12) as [Tv Tm].
  destruct (asUniform_error l x1 x2 xA xB i Hx1 Hx2 H1 H12 Hst G1 G2) as [Uv Um].
  destruct (asRamp_error l x1 x2 xA xB i Hx1 Hx2 H1 H12 Hst G1 G2) as [Rv Rm].
  assert (Hx0 : 0 <= station dx i) by (apply station_nonneg; Lqa.lra).
  rewrite Ev, Em, Tv, Tm.
  set (a := fst (runInc dx (loadInc dx (asUniform l)) i)) in *.
  set (a' := evalV (loadTerms xA xB (asUniform l)) (station dx i)) in *.
  set (b := fst (runInc dx (loadInc dx (asRamp l)) i)) in *.
  set (b' := evalV (loadTerms xA xB (asRamp l)) (station dx i)) in *.
  set (c := snd (runInc dx (loadInc dx (asUniform l)) i)) in *.
  set (c' := evalM (loadTerms xA xB (asUniform l)) (station dx i)) in *.
  set (e := snd (runInc dx (loadInc dx (asRamp l)) i)) in *.
  set (e' := evalM (loadTerms xA xB (asRamp l)) (station dx i)) in *.
  set (x := station dx i) in *. set (W := Qabs (l_val l)) in *.
  assert (HW : 0 <= W) by apply Qabs_nonneg.
  split.
  - setoid_replace (a - b - (a' - b')) with ((a - a') + - (b - b')) by ring.
    eapply Qle_trans; [apply Qabs_triangle|]. rewrite Qabs_opp. Lqa.lra.
  - setoid_replace (c - e - (c' - e')) with ((c - c') + - (e - e')) by ring.
    eapply Qle_trans; [apply Qabs_triangle|]. rewrite Qabs_opp.
    nn W dx. nn (W * dx) dx. nn (W * dx) x. Lqa.lra.
Qed.

Ltac no_load l :=
  apply load_error_none;
  [ intro k; unfold loadInc, pointShear, intensity, pointMoment; cbn [inc_v inc_q inc_m];
    repeat match goal with
    | H : _ = _ |- _ => rewrite H
    end;
    repeat split; try reflexivity;
    destruct (l_x1 l); try reflexivity; destruct (l_x2 l); try reflexivity;
    destruct (_ && _); reflexivity
  | unfold loadTerms;
    repeat match goal with
    | H : _ = _ |- _ => rewrite H
    end; try reflexivity;
    destruct (l_x1 l); reflexivity
  | Lqa.lra
  | Lqa.lra ].

Lemma load_error (l : LoadDefinition) (xA xB Rr : Q) (i : nat) :
  rangeStrict l ->
  (forall p, In p (loadPoints l) -> 0 <= p /\ (p <= xA \/ xB <= p)) ->
  xA <= station dx i < xB ->
  station dx i + 3 * dx <= Rr ->
  Qabs (fst (runInc dx (loadInc dx l) i) - evalV (loadTerms xA xB l) (station dx i))
    <= shearTol l * dx
  /\ Qabs (snd (runInc dx (loadInc dx l) i) - evalM (loadTerms xA xB l) (station dx i))
     <= momentTol Rr l * dx.
Proof.
  intros Hrs Hpts Hst HR.
  assert (Hx0 : 0 <= station dx i) by (apply station_nonneg; Lqa.lra).
  pose proof (Qabs_nonneg (l_val l)) as HW.
  unfold shearTol, momentTol, rangeStrict, loadPoints in *.
  destruct (l_type l) eqn:Ht.
  - (* point load *)
    destruct (l_x l) as [t|] eqn:Hx.
    + destruct (Hpts t (or_introl eq_refl)) as [H0 G].
      destruct (point_load_error l t xA xB i Ht Hx H0 Hst G) as [Hv Hm].
      split; [|Lqa.lra].
      eapply Qle_trans; [exact Hv|].
      destruct (l_x1 l); [destruct (l_x2 l)|]; Lqa.lra.
    + assert (Hb1 : 0 <= (match l_x1 l with
                         | Some _ => match l_x2 l with Some _ => 0 | None => 0 end
                         | None => 0 end) * dx)
        by (destruct (l_x1 l); [destruct (l_x2 l)|]; Lqa.lra).
      no_load l.
  - (* uniform load *)
    destruct (l_x1 l) as [x1|] eqn:Hx1; [destruct (l_x2 l) as [x2|] eqn:Hx2|].
    + destruct (Hpts x1 (or_introl eq_refl)) as [H1 G1].
      destruct (Hpts x2 (or_intror (or_introl eq_refl))) as [H2 G2].
      destruct (uniform_load_error l x1 x2 xA xB i Ht Hx1 Hx2 H1 Hrs Hst G1 G2) as [Hv Hm].
      split; [exact Hv|].
      eapply Qle_trans; [exact Hm|].
      set (W := Qabs (l_val l)) in *. set (x := station dx i) in *.
      nn W dx. nn (W * dx) (Rr - x - 3 * dx). nn (W * dx) dx. Lqa.lra.
    + no_load l.
    + no_load l.
  - (* triangular load *)
    destruct (l_x1 l) as [x1|] eqn:Hx1; [destruct (l_x2 l) as [x2|] eqn:Hx2|].
    + destruct (Hpts x1 (or_introl eq_refl)) as [H1 G1].
      destruct (Hpts x2 (or_intror (or_introl eq_refl))) as [H2 G2].
      set (W := Qabs (l_val l)) in *. set (x := station dx i) in *.
      destruct (peakRight l) eqn:Hpk.
      * destruct (ramp_load_error l x1 x2 xA xB i Ht Hx1 Hx2 Hpk H1 Hrs Hst G1 G2)
          as [Hv Hm].
        fold W x in Hv, Hm. split; [exact Hv|].
        eapply Qle_trans; [exact Hm|].
        nn W dx. nn (W * dx) (Rr - x - 3 * dx). Lqa.lra.
      * destruct (leftPeak_load_error l x1 x2 xA xB i Ht Hx1 Hx2 Hpk H1 Hrs Hst G1 G2)
          as [Hv Hm].
        fold W x in Hv, Hm. split; [exact Hv|].
        eapply Qle_trans; [exact Hm|].
        nn W dx. nn (W * dx) (Rr - x - 3 * dx). Lqa.lra.
    + no_load l.
    + no_load l.
  - (* applied moment *)
    destruct (l_x l) as [t|] eqn:Hx.
    + destruct (Hpts t (or_introl eq_refl)) as [H0 G].
      destruct (moment_load_error l t xA xB i Ht Hx H0 Hst G) as [Hv Hm].
      split.
      * eapply Qle_trans; [exact Hv|].
        destruct (l_x1 l); [destruct (l_x2 l)|]; Lqa.lra.
      * eapply Qle_trans; [exact Hm|]. Lqa.lra.
    + assert (Hb1 : 0 <= (match l_x1 l with
                         | Some _ => match l_x2 l with Some _ => 0 | None => 0 end
                         | None => 0 end) * dx)
        by (destruct (l_x1 l); [destruct (l_x2 l)|]; Lqa.lra).
      no_load l.
Qed.

End Sources.

(** *** The reactions against their polynomial terms *)

Lemma polySup_diag (params : SimulationParams) :
  isCantilever params = false ->
  polySupA params = diagSupA params /\ polySupB params = diagSupB params.
Proof.
  unfold isCantilever, polySupA, polySupB, diagSupA, diagSupB.
  destruct (beamType params); cbn; intro H; try discriminate; split; reflexivity.
Qed.

Lemma reaction_error (params : SimulationParams) (r : Reactions) (dx xA xB : Q) (i : nat) :
  0 < dx -> 0 <= xA ->
  xA <= station dx i < xB ->
  (isCantilever params = false ->
     0 <= diagSupA params /\ (diagSupA params <= xA \/ xB <= diagSupA params)
     /\ 0 <= diagSupB params /\ (diagSupB params <= xA \/ xB <= diagSupB params)) ->
  fst (runInc dx (reactionInc params r dx) i)
    == evalV (reactionTerms xA params r) (station dx i)
  /\ Qabs (snd (runInc dx (reactionInc params r dx) i)
          - evalM (reactionTerms xA params r) (station dx i))
     <= (Qabs (Ra r) + Qabs (Rb r)) * dx.
Proof.
  intros Hdx HxA Hst Hsup. unfold reactionTerms.
  pose proof (Qabs_nonneg (Ra r)) as HRa. pose proof (Qabs_nonneg (Rb r)) as HRb.
  destruct (isCantilever params) eqn:Ec.
  - destruct (run_ext dx (reactionInc params r dx) (impulseInc dx 0 (Ra r) (- Ma r)) i)
      as [Ev Em].
    { intro k. unfold reactionInc, impulseInc. rewrite Ec. repeat split; reflexivity. }
    pose proof (impulse_run dx Hdx 0 (Ra r) (- Ma r) i (Qle_refl 0)) as Hinv.
    destruct (impulse_error dx Hdx 0 (Ra r) (- Ma r) xA xB _ _ _ Hst (or_introl HxA) Hinv)
      as [Hv Hm].
    assert (E0 : Qle_bool 0 xA = true) by (apply Qle_bool_iff; exact HxA).
    rewrite E0 in Hv, Hm. rewrite Ev, Em.
    unfold evalV, evalM; cbn [m3 m2 m1 m0 v2 v1 v0]. split.
    + rewrite Hv. ring.
    + eapply Qle_trans; [|apply (Qle_trans _ _ _ Hm)].
      * apply Qle_lteq. right. apply Qabs_wd. ring.
      * nn (Qabs (Rb r)) dx. Lqa.lra.
  - destruct (Hsup eq_refl) as (HA0 & GA & HB0 & GB).
    destruct (polySup_diag params Ec) as [EA EB]. rewrite EA, EB.
    destruct (run_add dx (reactionInc params r dx)
                (impulseInc dx (diagSupA params) (Ra r) 0)
                (impulseInc dx (diagSupB params) (Rb r) 0) i) as [Ev Em].
    { intro k. unfold reactionInc, impulseInc. rewrite Ec.
      destruct (checkStep _ (diagSupA params) _); destruct (checkStep _ (diagSupB params) _);
        cbn [incAdd inc_v inc_q inc_m incZero]; repeat split; reflexivity. }
    pose proof (impulse_run dx Hdx (diagSupA params) (Ra r) 0 i HA0) as HinvA.
    pose proof (impulse_run dx Hdx (diagSupB params) (Rb r) 0 i HB0) as HinvB.
    destruct (impulse_error dx Hdx _ _ _ xA xB _ _ _ Hst GA HinvA) as [HvA HmA].
    destruct (impulse_error dx Hdx _ _ _ xA xB _ _ _ Hst GB HinvB) as [HvB HmB].
    rewrite Ev, Em, evalV_add, evalM_add.
    set (vA := fst (runInc dx (impulseInc dx (diagSupA params) (Ra r) 0) i)) in *.
    set (mA := snd (runInc dx (impulseInc dx (diagSupA params) (Ra r) 0) i)) in *.
    set (vB := fst (runInc dx (impulseInc dx (diagSupB params) (Rb r) 0) i)) in *.
    set (mB := snd (runInc dx (impulseInc dx (diagSupB params) (Rb r) 0) i)) in *.
    assert (HtA : evalV (if Qle_bool (diagSupA params) xA
                         then forceTerms (Ra r) (diagSupA params) else polyZero)
                        (station dx i) == vA
                  /\ Qabs (mA - evalM (if Qle_bool (diagSupA params) xA
                                       then forceTerms (Ra r) (diagSupA params)
                                       else polyZero) (station dx i))
                     <= Qabs (Ra r) * dx).
    { rewrite HvA. destruct (Qle_bool (diagSupA params) xA);
        unfold evalV, evalM, forceTerms, polyZero; cbn [m3 m2 m1 m0 v2 v1 v0];
        (split; [ring|]); (eapply Qle_trans; [|exact HmA]);
        apply Qle_lteq; right; apply Qabs_wd; ring. }
    assert (HtB : evalV (if Qle_bool (diagSupB params) xA
                         then forceTerms (Rb r) (diagSupB params) else polyZero)
                        (station dx i) == vB
                  /\ Qabs (mB - evalM (if Qle_bool (diagSupB params) xA
                                       then forceTerms (Rb r) (diagSupB params)
                                       else polyZero) (station dx i))
                     <= Qabs (Rb r) * dx).
    { rewrite HvB. destruct (Qle_bool (diagSupB params) xA);
        unfold evalV, evalM, forceTerms, polyZero; cbn [m3 m2 m1 m0 v2 v1 v0];
        (split; [ring|]); (eapply Qle_trans; [|exact HmB]);
        apply Qle_lteq; right; apply Qabs_wd; ring. }
    destruct HtA as [HtAv HtAm]. destruct HtB as [HtBv HtBm].
    split; [rewrite HtAv, HtBv; reflexivity|].
    match goal with |- Qabs (mA + mB - (?a + ?b)) <= _ =>
      setoid_replace (mA + mB - (a + b)) with ((mA - a) + (mB - b)) by ring end.
    eapply Qle_trans; [apply Qabs_triangle|]. Lqa.lra.
Qed.

Lemma sumQ_abs_bound {A : Type} (f g t : A -> Q) (l : list A) :
  (forall a, In a l -> Qabs (f a - g a) <= t a) ->
  Qabs (sumQ (map f l) - sumQ (map g l)) <= sumQ (map t l).
Proof.
  induction l as [|a l IH]; intro H; cbn [map sumQ fold_right].
  - setoid_replace (0 - 0) with 0 by ring. apply Qle_refl.
  - fold (sumQ (map f l)). fold (sumQ (map g l)). fold (sumQ (map t l)).
    setoid_replace (f a + sumQ (map f l) - (g a + sumQ (map g l)))
      with ((f a - g a) + (sumQ (map f l) - sumQ (map g l))) by ring.
    eapply Qle_trans; [apply Qabs_triangle|].
    apply Qplus_le_compat; [apply H; now left | apply IH; intros; apply H; now right].
Qed.

Lemma stepSize_pos (params : SimulationParams) : 0 < length params -> 0 < stepSize params.
Proof.
  intro H. unfold stepSize. apply Qlt_shift_div_l; [reflexivity|]. Lqa.lra.
Qed.

Lemma station_le_length (params : SimulationParams) (i : nat) :
  0 < length params -> (i <= nSamples)%nat ->
  station (stepSize params) i <= length params.
Proof.
  intros HL Hi. unfold station, stepSize.
  assert (Hq : inject_Z (Z.of_nat i) <= inject_Z (Z.of_nat nSamples))
    by (rewrite <- Zle_Qle; lia).
  assert (Hn : 0 < inject_Z (Z.of_nat nSamples)) by reflexivity.
  set (k := inject_Z (Z.of_nat i)) in *. set (n := inject_Z (Z.of_nat nSamples)) in *.
  setoid_replace (k * (length params / n)) with ((k * length params) / n)
    by (field; Lqa.lra).
  apply Qle_shift_div_r; [exact Hn|]. nn (n - k) (length params). Lqa.lra.
Qed.

(** The exact sweep against the polynomials: on a beam of positive
    length whose break points are not negative and whose range loads
    have [x1 < x2], at every station inside a segment the shear of the
    sweep differs from the segment's V polynomial by at most [dx] times
    the summed intensities of the distributed loads, and its moment from
    the M polynomial by at most [dx] times [momentTolerance]. *)
Lemma exact_sweep_matches_polynomials (params : SimulationParams) (i : nat) (s : StepResult) :
  0 < length params ->
  (forall p, In p (rawPoints params) -> 0 <= p) ->
  Forall rangeStrict (loadsOf params) ->
  (i <= nSamples)%nat ->
  let d := calculateAnalyticalDiagrams params in
  let x := nth i (xs d) 0 in
  In s (generateDetailedSteps params (reactions d)) ->
  s_xA s <= x < s_xB s ->
  Qabs (nth i (Vs d) 0 - evalV (s_poly s) x) <= stepSize params * shearTolerance params
  /\ Qabs (nth i (Ms d) 0 - evalM (s_poly s) x)
     <= stepSize params * momentTolerance params (reactions d)
  /\ (shearTolerance params == 0 -> nth i (Vs d) 0 == evalV (s_poly s) x).
Proof.
  intros HL Hpos Hrs Hi d x. subst d x.
  destruct (diagram_nth params i Hi) as (EV & EM & EX). cbv zeta in EV, EM.
  rewrite EV, EM, EX. clear EV EM EX.
  change (reactions (calculateAnalyticalDiagrams params)) with (solveReactions params).
  set (r := solveReactions params). set (dx := stepSize params).
  intros Hs Hst.
  pose proof (stepSize_pos params HL) as Hdx. fold dx in Hdx.
  destruct (segment_facts params r s Hs) as (Hp & Hlen & HinA & HinB & Hgap).
  set (xA := s_xA s) in *. set (xB := s_xB s) in *.
  destruct (sweepState_sources params r (loadsOf params) dx i) as [SV SM].
  cbv zeta in SV, SM. rewrite SV, SM, Hp, getPolynomial_V, getPolynomial_M.
  assert (HxA : 0 <= xA) by (apply Hpos; exact HinA).
  destruct (reaction_error params r dx xA xB i Hdx HxA Hst) as [RV RM].
  { intro Ec. destruct (supports_are_points params Ec) as [HsA HsB].
    destruct (polySup_diag params Ec) as [EA EB]. rewrite <- EA, <- EB.
    repeat split; auto. }
  assert (HR : station dx i + 3 * dx <= reach params).
  { unfold reach. fold dx. pose proof (station_le_length params i HL Hi) as Hle.
    fold dx in Hle. Lqa.lra. }
  assert (Hloads : forall l, In l (loadsOf params) ->
    Qabs (fst (runInc dx (loadInc dx l) i) - evalV (loadTerms xA xB l) (station dx i))
      <= shearTol l * dx
    /\ Qabs (snd (runInc dx (loadInc dx l) i) - evalM (loadTerms xA xB l) (station dx i))
       <= momentTol (reach params) l * dx).
  { intros l Hl. apply load_error; try assumption.
    - rewrite Forall_forall in Hrs. apply Hrs, Hl.
    - intros p Hp'. pose proof (loadPoints_raw params l p Hl Hp') as Hraw.
      split; [apply Hpos, Hraw | apply Hgap, Hraw]. }
  assert (HV : Qabs (fst (runInc dx (reactionInc params r dx) i)
                     + sumQ (map (fun l => fst (runInc dx (loadInc dx l) i)) (loadsOf params))
                     - (evalV (reactionTerms xA params r) (station dx i)
                        + sumQ (map (fun l => evalV (loadTerms xA xB l) (station dx i))
                                    (loadsOf params))))
               <= dx * shearTolerance params).
  { rewrite RV.
    match goal with |- Qabs (?a + ?b - (?a + ?c)) <= _ =>
      setoid_replace (a + b - (a + c)) with (b - c) by ring end.
    eapply Qle_trans.
    - apply (sumQ_abs_bound _ _ (fun l => shearTol l * dx)).
      intros l Hl. apply (Hloads l Hl).
    - rewrite sumQ_map_scale. unfold shearTolerance. rewrite Qmult_comm. apply Qle_refl. }
  split; [exact HV|]. split.
  - match goal with |- Qabs (?a + ?b - (?c + ?e)) <= _ =>
      setoid_replace (a + b - (c + e)) with ((a - c) + (b - e)) by ring end.
    eapply Qle_trans; [apply Qabs_triangle|].
    unfold momentTolerance. fold r.
    setoid_replace (dx * (Qabs (Ra r) + Qabs (Rb r)
                          + sumQ (map (momentTol (reach params)) (loadsOf params))))
      with ((Qabs (Ra r) + Qabs (Rb r)) * dx
            + sumQ (map (momentTol (reach params)) (loadsOf params)) * dx) by ring.
    apply Qplus_le_compat; [exact RM|].
    rewrite <- sumQ_map_scale.
    apply (sumQ_abs_bound _ _ (fun l => momentTol (reach params) l * dx)).
    intros l Hl. apply (Hloads l Hl).
  - intro Hz. rewrite Hz in HV.
    setoid_replace (dx * 0) with 0 in HV by ring.
    apply Qabs_Qle_condition in HV. destruct HV as [H1 H2].
    apply Qle_antisym; Lqa.lra.
Qed.

(** ** The sweep on doubles *)

Lemma fold_left_ext_in {A B : Type} (f g : A -> B -> A) (l : list B) (a : A) :
  (forall a b, In b l -> f a b = g a b) -> fold_left f l a = fold_left g l a.
Proof.
  revert a. induction l as [|b l IH]; intros a H; cbn [fold_left]; [reflexivity|].
  rewrite (H a b) by (left; reflexivity). apply IH.
  intros a' b' Hb. apply H. right. exact Hb.
Qed.

Lemma sweep_ext_in (f g : Q * Q -> nat -> Q * Q) (stations : list nat) (st : Q * Q) :
  (forall s i, In i stations -> f s i = g s i) ->
  sweep f st stations = sweep g st stations.
Proof.
  revert st. induction stations as [|i rest IH]; intros st Hfg; cbn [sweep].
  - reflexivity.
  - rewrite (Hfg st i) by (left; reflexivity). f_equal. apply IH.
    intros s j Hj. apply Hfg. right. exact Hj.
Qed.

(** What [stationExact] gives for one position. *)
Lemma stationExact_point (params : SimulationParams) (i : nat) (p : Q) :
  stationExact params i = true ->
  In p (sweepPoints params) ->
  checkStep64 (station64 (stepSize64 params) i) (Q2F p) (stepSize64 params)
    = checkStep (inject_Z (Z.of_nat i) * stepSize params) p (stepSize params)
  /\ PrimFloat.leb (Q2F p) (station64 (stepSize64 params) i)
     = Qle_bool p (inject_Z (Z.of_nat i) * stepSize params)
  /\ PrimFloat.leb (station64 (stepSize64 params) i) (Q2F p)
     = Qle_bool (inject_Z (Z.of_nat i) * stepSize params) p.
Proof.
  intros H Hp. unfold stationExact in H. cbv zeta in H.
  rewrite forallb_forall in H. specialize (H p Hp).
  apply andb_prop in H. destruct H as [H H3].
  apply andb_prop in H. destruct H as [H1 H2].
  apply Bool.eqb_prop in H1, H2, H3. unfold station in *. auto.
Qed.

Lemma loadPoint_swept (params : SimulationParams) (l : LoadDefinition) (p : Q) :
  In l (loadsOf params) -> In p (loadPoints l) -> In p (sweepPoints params).
Proof.
  intros Hl Hp. unfold sweepPoints. do 3 right. apply (loadPoints_raw params l p Hl Hp).
Qed.

(** Where the roundings move nothing the loop body on doubles is the
    exact one. *)
Lemma sweepStep64_exact (params : SimulationParams) (r : Reactions) (st : Q * Q) (i : nat) :
  stationExact params i = true ->
  sweepStep64 params r (loadsOf params) (stepSize params) (stepSize64 params) st i
  = sweepStep params r (loadsOf params) (stepSize params) st i.
Proof.
  intro H. unfold sweepStep64, sweepStep. destruct st as [V Mo].
  set (dx := stepSize params). set (dxf := stepSize64 params).
  set (x := inject_Z (Z.of_nat i) * dx). set (xf := station64 dxf i).
  assert (H0 : checkStep64 xf (Q2F 0) dxf = checkStep x 0 dx)
    by (apply (stationExact_point params i 0 H); left; reflexivity).
  assert (HA : checkStep64 xf (Q2F (diagSupA params)) dxf = checkStep x (diagSupA params) dx)
    by (apply (stationExact_point params i _ H); right; left; reflexivity).
  assert (HB : checkStep64 xf (Q2F (diagSupB params)) dxf = checkStep x (diagSupB params) dx)
    by (apply (stationExact_point params i _ H); right; right; left; reflexivity).
  assert (HP : forall a l, In l (loadsOf params) ->
            pointShear64 xf dxf a l = pointShear x dx a l).
  { intros a l Hl. unfold pointShear64, pointShear.
    destruct (l_type l) eqn:Et; try reflexivity.
    destruct (l_x l) as [lx|] eqn:Ex; try reflexivity.
    assert (Hin : In lx (sweepPoints params)).
    { apply (loadPoint_swept params l lx Hl). unfold loadPoints. rewrite Et, Ex.
      left. reflexivity. }
    destruct (stationExact_point params i lx H Hin) as [E _].
    fold dx dxf x xf in E. rewrite E. reflexivity. }
  assert (HM : forall a l, In l (loadsOf params) ->
            pointMoment64 xf dxf a l = pointMoment x dx a l).
  { intros a l Hl. unfold pointMoment64, pointMoment.
    destruct (l_type l) eqn:Et; try reflexivity.
    destruct (l_x l) as [lx|] eqn:Ex; try reflexivity.
    assert (Hin : In lx (sweepPoints params)).
    { apply (loadPoint_swept params l lx Hl). unfold loadPoints. rewrite Et, Ex.
      left. reflexivity. }
    destruct (stationExact_point params i lx H Hin) as [E _].
    fold dx dxf x xf in E. rewrite E. reflexivity. }
  assert (HI : forall a l, In l (loadsOf params) ->
            intensity64 xf x a l = intensity x a l).
  { intros a l Hl. unfold intensity64, intensity.
    destruct (l_x1 l) as [x1|] eqn:E1; try reflexivity.
    destruct (l_x2 l) as [x2|] eqn:E2; try reflexivity.
    destruct (l_type l) eqn:Et.
    - destruct (_ && _), (_ && _); reflexivity.
    - assert (Hin1 : In x1 (sweepPoints params)).
      { apply (loadPoint_swept params l x1 Hl). unfold loadPoints. rewrite Et, E1, E2.
        left. reflexivity. }
      assert (Hin2 : In x2 (sweepPoints params)).
      { apply (loadPoint_swept params l x2 Hl). unfold loadPoints. rewrite Et, E1, E2.
        right. left. reflexivity. }
      destruct (stationExact_point params i x1 H Hin1) as (_ & F1 & _).
      destruct (stationExact_point params i x2 H Hin2) as (_ & _ & F2).
      fold dx dxf x xf in F1, F2. rewrite F1, F2. reflexivity.
    - assert (Hin1 : In x1 (sweepPoints params)).
      { apply (loadPoint_swept params l x1 Hl). unfold loadPoints. rewrite Et, E1, E2.
        left. reflexivity. }
      assert (Hin2 : In x2 (sweepPoints params)).
      { apply (loadPoint_swept params l x2 Hl). unfold loadPoints. rewrite Et, E1, E2.
        right. left. reflexivity. }
      destruct (stationExact_point params i x1 H Hin1) as (_ & F1 & _).
      destruct (stationExact_point params i x2 H Hin2) as (_ & _ & F2).
      fold dx dxf x xf in F1, F2. rewrite F1, F2. reflexivity.
    - destruct (_ && _), (_ && _); reflexivity. }
  cbv zeta. rewrite H0, HA, HB.
  rewrite (fold_left_ext_in (pointShear64 xf dxf) (pointShear x dx) _ _ HP).
  rewrite (fold_left_ext_in (intensity64 xf x) (intensity x) _ _ HI).
  rewrite (fold_left_ext_in (pointMoment64 xf dxf) (pointMoment x dx) _ _ HM).
  reflexivity.
Qed.

(** Where the roundings move no station the sweep on doubles returns the
    record of the exact sweep. *)
Lemma diagrams64_exact (params : SimulationParams) :
  stationsExact params = true ->
  calculateAnalyticalDiagrams64 params = calculateAnalyticalDiagrams params.
Proof.
  intro H. unfold stationsExact in H. rewrite forallb_forall in H.
  unfold calculateAnalyticalDiagrams64, calculateAnalyticalDiagrams. cbv zeta.
  rewrite (sweep_ext_in _ (sweepStep params (solveReactions params) (loadsOf params)
                                     (stepSize params))); [reflexivity|].
  intros s i Hi. apply sweepStep64_exact, H, Hi.
Qed.

Lemma diagram64_nth (params : SimulationParams) (i : nat) :
  (i <= nSamples)%nat ->
  let st := sweepState (sweepStep64 params (solveReactions params) (loadsOf params)
                                    (stepSize params) (stepSize64 params)) i in
  nth i (Vs (calculateAnalyticalDiagrams64 params)) 0 = fst st
  /\ nth i (Ms (calculateAnalyticalDiagrams64 params)) 0 = snd st
  /\ nth i (xs (calculateAnalyticalDiagrams64 params)) 0 = station (stepSize params) i.
Proof.
  intros Hi st. subst st. unfold calculateAnalyticalDiagrams64. cbn [Vs Ms xs].
  rewrite sweepState_rect.
  split; [|split].
  - match goal with |- nth i (map fst ?l) 0 = _ =>
      pose proof (map_nth fst l (0, 0) i) as H end.
    cbn [fst] in H. rewrite H, sweep_nth by (unfold nSamples in *; lia). reflexivity.
  - match goal with |- nth i (map snd ?l) 0 = _ =>
      pose proof (map_nth snd l (0, 0) i) as H end.
    cbn [snd] in H. rewrite H, sweep_nth by (unfold nSamples in *; lia). reflexivity.
  - match goal with |- nth i (map ?f ?l) 0 = _ =>
      pose proof (map_nth f l 0%nat i) as H;
      rewrite (nth_indep _ 0 (f 0%nat)) by (rewrite length_map, length_seq; lia)
    end.
    rewrite H, seq_nth by lia. reflexivity.
Qed.




(** Where a rounding does move a station the sweep counts a point action
    twice.  With the base load at x = 0.1 the double [6 * dx] lies below
    the double [0.1 + dx], so [checkStep] holds at station 5 and again at
    station 6: from station 6 on the shear of the sweep is -50625, where
    the polynomial of the segment [0.1, 8) gives -625. *)
Lemma sweep_counts_load_twice :
  stationExact loadOnStation 6 = false
  /\ checkStep64 (station64 (stepSize64 loadOnStation) 5) (Q2F (1 # 10))
                 (stepSize64 loadOnStation) = true
  /\ checkStep64 (station64 (stepSize64 loadOnStation) 6) (Q2F (1 # 10))
                 (stepSize64 loadOnStation) = true
  /\ In (nth 1 loadOnStationSegments noSegment) loadOnStationSegments
  /\ s_xA (nth 1 loadOnStationSegments noSegment)
       <= nth 6 (xs (calculateAnalyticalDiagrams64 loadOnStation)) 0
       < s_xB (nth 1 loadOnStationSegments noSegment)
  /\ nth 6 (Vs (calculateAnalyticalDiagrams64 loadOnStation)) 0 == -50625
  /\ evalV (s_poly (nth 1 loadOnStationSegments noSegment))
           (nth 6 (xs (calculateAnalyticalDiagrams64 loadOnStation)) 0) == -625.
Proof.
  assert (Hi : (6 <= nSamples)%nat) by (unfold nSamples; lia).
  destruct (diagram64_nth loadOnStation 6 Hi) as (EV & _ & EX). cbv zeta in EV.
  rewrite EV, EX.
  split; [vm_compute; reflexivity|].
  split; [vm_compute; reflexivity|].
  split; [vm_compute; reflexivity|].
  split; [vm_compute; right; left; reflexivity|].
  split; [split; vm_compute; [discriminate | reflexivity]|].
  split; vm_compute; reflexivity.
Qed.

(** * Further properties of the code *)

(** ** The field solver: stations, clamping and the fields at a node *)

Ltac field_flags :=
  repeat match goal with
  | H : Qle_bool _ _ = true |- _ => apply Qle_bool_iff in H
  | H : Qle_bool _ _ = false |- _ => apply Qle_bool_false in H
  | H : Qlt_bool _ _ = true |- _ => apply Qlt_bool_iff in H
  | H : Qlt_bool _ _ = false |- _ => apply Qlt_bool_false in H
  end.

(** Evaluates the five conditions of [solvable] on a concrete beam. *)
Ltac solve_solvable :=
  unfold solvable; repeat split; vm_compute; try reflexivity; lia.

Lemma solvable_EI (params : SimulationParams) :
  solvable params ->
  ~ youngsModulus params == 0 /\ ~ sec_I (calculateSectionProperties params) == 0
  /\ ~ length params == 0.
Proof. intros (HL & HE & HI & _). repeat split; Lqa.lra. Qed.

Lemma safeA_nonneg (params : SimulationParams) : 0 <= safeA params.
Proof. unfold safeA, Math_max. apply Q.le_max_l. Qed.

Lemma safeA_inside (params : SimulationParams) :
  0 <= loadPosition params <= length params -> safeA params == loadPosition params.
Proof.
  intros [H0 HL]. unfold safeA, Math_max, Math_min.
  rewrite Q.min_l by exact HL. apply Q.max_r. exact H0.
Qed.

Lemma safeA_beyond (params : SimulationParams) :
  0 <= length params -> length params <= loadPosition params ->
  safeA params == length params.
Proof.
  intros H0 HL. unfold safeA, Math_max, Math_min.
  rewrite Q.min_r by exact HL. apply Q.max_r. exact H0.
Qed.

(** Mirroring the load position mirrors the clamped position. *)
Lemma safeA_mirror (params : SimulationParams) :
  0 <= length params ->
  safeA (withLoadPosition params (length params - loadPosition params))
  == length params - safeA params.
Proof.
  intro HL. unfold safeA, Math_max, Math_min. cbn [loadPosition length withLoadPosition].
  unfold Qmax, Qmin, GenericMinMax.gmax, GenericMinMax.gmin.
  split_compare; Lqa.lra.
Qed.

Lemma mesh_station_0 (d : Q) : inject_Z (Z.of_nat 0) * d == 0.
Proof. cbn. ring. Qed.

Lemma mesh_station_end (L : Q) (n : nat) :
  (0 < n)%nat -> inject_Z (Z.of_nat n) * (L / inject_Z (Z.of_nat n)) == L.
Proof.
  intro Hn. field. intro H.
  assert (H1 : 0 < inject_Z (Z.of_nat n)).
  { rewrite <- (Zlt_Qlt 0). lia. }
  Lqa.lra.
Qed.

(** The fields at a station do not depend on how the station is written. *)
Lemma nodeField_ext (params : SimulationParams) (x y : Q) :
  x == y ->
  f_v (nodeField params x) == f_v (nodeField params y)
  /\ f_theta (nodeField params x) == f_theta (nodeField params y)
  /\ f_M (nodeField params x) == f_M (nodeField params y).
Proof.
  intro Hxy. unfold nodeField.
  assert (Hc : Qle_bool x (safeA params) = Qle_bool y (safeA params)).
  { destruct (Qle_bool x (safeA params)) eqn:E1; destruct (Qle_bool y (safeA params)) eqn:E2;
      try reflexivity; field_flags; exfalso; Lqa.lra. }
  destruct (beamType params); rewrite ?Hc;
    try destruct (Qle_bool y (safeA params));
    cbn [f_v f_theta f_M]; rewrite ?Math_pow_2, ?Math_pow_3, ?Hxy;
    (split; [|split]); reflexivity.
Qed.

(** Displacements and stress of a mesh node in terms of the fields at
    its station. *)
Lemma getNode_fields (params : SimulationParams) (i j : nat) :
  let n := getNode params i j in
  n_dy n - n_y n == f_v (nodeField params (n_x n)) * scaleOf params
  /\ n_dx n - n_x n == - n_y n * f_theta (nodeField params (n_x n)) * scaleOf params
  /\ n_stress n == - (f_M (nodeField params (n_x n)) * n_y n)
                     / sec_I (calculateSectionProperties params).
Proof.
  unfold getNode. cbn [n_dy n_y n_dx n_x n_stress]. split; [|split]; ring.
Qed.

Lemma getNode_x_0 (params : SimulationParams) (j : nat) : n_x (getNode params 0 j) == 0.
Proof. unfold getNode. cbn [n_x]. apply mesh_station_0. Qed.

Lemma getNode_x_end (params : SimulationParams) (j : nat) :
  (0 < meshDensityX params)%nat ->
  n_x (getNode params (meshDensityX params) j) == length params.
Proof. intro H. unfold getNode. cbn [n_x]. apply mesh_station_end, H. Qed.

(** ** Symmetry and boundary conditions *)

(** X1. The simply supported solution is mirror symmetric: on the beam
    with the load position mirrored to [L - a], the deflection and the
    moment at [L - x] are those of the original beam at [x], and the
    slope is the opposite.  In particular the two branches of the solver
    agree at the load. *)
Theorem simplySupported_mirror (params : SimulationParams) (x : Q) :
  beamType params = simplySupported ->
  solvable params ->
  let mirror := withLoadPosition params (length params - loadPosition params) in
  f_v (nodeField mirror (length params - x)) == f_v (nodeField params x)
  /\ f_theta (nodeField mirror (length params - x)) == - f_theta (nodeField params x)
  /\ f_M (nodeField mirror (length params - x)) == f_M (nodeField params x).
Proof.
  intros Hb (HL & _) mirror.
  pose proof (safeA_mirror params (Qlt_le_weak _ _ HL)) as Hm. fold mirror in Hm.
  unfold nodeField.
  change (beamType mirror) with (beamType params). rewrite Hb.
  change (length mirror) with (length params).
  change (force mirror) with (force params).
  change (youngsModulus mirror) with (youngsModulus params).
  change (calculateSectionProperties mirror) with (calculateSectionProperties params).
  set (a' := safeA mirror) in *. set (a := safeA params) in *.
  set (L := length params) in *. set (D := 6 * L * youngsModulus params * _).
  destruct (Qle_bool x a) eqn:E1; destruct (Qle_bool (L - x) a') eqn:E2;
    cbn [f_v f_theta f_M]; field_flags; rewrite ?Math_pow_2; rewrite Hm in *.
  - assert (Hx : x == a) by Lqa.lra. rewrite Hx.
    split; [|split]; unfold Qdiv; ring.
  - split; [|split]; unfold Qdiv; ring.
  - split; [|split]; unfold Qdiv; ring.
  - exfalso. Lqa.lra.
Qed.

Lemma simplySupported_mirror_witness :
  beamType defaultParams = simplySupported
  /\ solvable defaultParams
  /\ f_M (nodeField (withLoadPosition defaultParams
                       (length defaultParams - loadPosition defaultParams))
                    (length defaultParams - 1))
     == f_M (nodeField defaultParams 1).
Proof.
  assert (H1 : beamType defaultParams = simplySupported) by reflexivity.
  assert (H2 : solvable defaultParams) by solve_solvable.
  split; [exact H1|]. split; [exact H2|].
  exact (proj2 (proj2 (simplySupported_mirror defaultParams 1 H1 H2))).
Defined.

(** Fields at the two ends of a simply supported beam and at the wall
    of a cantilever. *)
Lemma simplySupported_left (params : SimulationParams) :
  beamType params = simplySupported ->
  f_v (nodeField params 0) == 0 /\ f_M (nodeField params 0) == 0.
Proof.
  intro Hb. unfold nodeField. rewrite Hb.
  assert (E : Qle_bool 0 (safeA params) = true) by (apply Qle_bool_iff, safeA_nonneg).
  rewrite E. cbn [f_v f_M]. split; unfold Qdiv; ring.
Qed.

Lemma simplySupported_right (params : SimulationParams) :
  beamType params = simplySupported ->
  0 <= length params ->
  f_v (nodeField params (length params)) == 0
  /\ f_M (nodeField params (length params)) == 0.
Proof.
  intros Hb HL. unfold nodeField. rewrite Hb.
  pose proof (safeA_range params HL) as [Ha0 HaL].
  destruct (Qle_bool (length params) (safeA params)) eqn:E; field_flags; cbn [f_v f_M].
  - assert (Ha : safeA params == length params) by Lqa.lra. rewrite Ha.
    split; unfold Qdiv; ring.
  - split; unfold Qdiv; ring.
Qed.

Lemma cantilever_wall (params : SimulationParams) :
  beamType params = cantilever ->
  f_v (nodeField params 0) == 0 /\ f_theta (nodeField params 0) == 0
  /\ f_M (nodeField params 0) == - (force params * safeA params).
Proof.
  intro Hb. unfold nodeField. rewrite Hb.
  assert (E : Qle_bool 0 (safeA params) = true) by (apply Qle_bool_iff, safeA_nonneg).
  rewrite E. cbn [f_v f_theta f_M]. rewrite Math_pow_2.
  split; [|split]; unfold Qdiv; ring.
Qed.

(** X2. The supports hold the mesh.  On a simply supported beam the
    nodes of the first and of the last mesh column sit at x = 0 and
    x = L, keep their height and carry no stress; on a cantilever the
    nodes of the first column, at the wall, do not move at all and carry
    the stress [P a y / I] of the wall moment, [a] being the clamped load
    position. *)
Theorem support_nodes_hold (params : SimulationParams) (j : nat) :
  solvable params ->
  let first := getNode params 0 j in
  let last := getNode params (meshDensityX params) j in
  (beamType params = simplySupported ->
     n_x first == 0 /\ n_dy first == n_y first /\ n_stress first == 0
     /\ n_x last == length params /\ n_dy last == n_y last /\ n_stress last == 0)
  /\ (beamType params = cantilever ->
     n_x first == 0 /\ n_dx first == n_x first /\ n_dy first == n_y first
     /\ n_stress first
        == force params * safeA params * n_y first
           / sec_I (calculateSectionProperties params)).
Proof.
  intros (HL & _ & _ & Hnx & _) first last.
  pose proof (getNode_x_0 params j) as H0. fold first in H0.
  pose proof (getNode_x_end params j Hnx) as H1. fold last in H1.
  destruct (getNode_fields params 0 j) as (Hv0 & Hu0 & Hs0). fold first in Hv0, Hu0, Hs0.
  destruct (getNode_fields params (meshDensityX params) j) as (Hv1 & _ & Hs1).
  fold last in Hv1, Hs1.
  destruct (nodeField_ext params _ _ H0) as (Ev0 & Et0 & Em0).
  destruct (nodeField_ext params _ _ H1) as (Ev1 & _ & Em1).
  split; intro Hb.
  - destruct (simplySupported_left params Hb) as [Lv Lm].
    destruct (simplySupported_right params Hb (Qlt_le_weak _ _ HL)) as [Rv Rm].
    rewrite Ev0, Lv in Hv0. rewrite Em0, Lm in Hs0.
    rewrite Ev1, Rv in Hv1. rewrite Em1, Rm in Hs1.
    split; [exact H0|]. split; [Lqa.lra|].
    split; [rewrite Hs0; unfold Qdiv; ring|].
    split; [exact H1|]. split; [Lqa.lra|].
    rewrite Hs1. unfold Qdiv. ring.
  - destruct (cantilever_wall params Hb) as (Fv & Ft & Fm).
    rewrite Ev0, Fv in Hv0. rewrite Et0, Ft in Hu0. rewrite Em0, Fm in Hs0.
    split; [exact H0|]. split; [Lqa.lra|]. split; [Lqa.lra|].
    rewrite Hs0. unfold Qdiv. ring.
Qed.

Lemma support_nodes_hold_witness :
  solvable smallMesh
  /\ beamType smallMesh = simplySupported
  /\ n_x (getNode smallMesh (meshDensityX smallMesh) 2) == length smallMesh
  /\ n_stress (getNode smallMesh (meshDensityX smallMesh) 2) == 0.
Proof.
  assert (H1 : solvable smallMesh) by solve_solvable.
  assert (H2 : beamType smallMesh = simplySupported) by reflexivity.
  split; [exact H1|]. split; [exact H2|].
  destruct (proj1 (support_nodes_hold smallMesh 2 H1) H2) as (_ & _ & _ & A & _ & B).
  split; [exact A | exact B].
Defined.

(** X3. Beyond the load a cantilever is straight: for [x] at or past the
    clamped load position [a] the deflection continues along the tangent
    at the load, [v(x) = v(a) + theta(a) (x - a)], the slope stays
    [theta(a)] and the moment is 0. *)
Theorem cantilever_straight_beyond_load (params : SimulationParams) (x : Q) :
  beamType params = cantilever ->
  solvable params ->
  safeA params <= x ->
  let at_load := nodeField params (safeA params) in
  f_v (nodeField params x) == f_v at_load + f_theta at_load * (x - safeA params)
  /\ f_theta (nodeField params x) == f_theta at_load
  /\ f_M (nodeField params x) == 0.
Proof.
  intros Hb Hs Hx at_load. destruct (solvable_EI params Hs) as (HE & HI & _).
  subst at_load. unfold nodeField. rewrite Hb.
  set (a := safeA params) in *.
  assert (Ea : Qle_bool a a = true) by (apply Qle_bool_iff; Lqa.lra).
  rewrite Ea.
  destruct (Qle_bool x a) eqn:E; field_flags; cbn [f_v f_theta f_M];
    rewrite ?Math_pow_2, ?Math_pow_3.
  - assert (Hxa : x == a) by Lqa.lra. rewrite Hxa.
    split; [|split]; ring.
  - split; [|split]; try reflexivity; field; auto.
Qed.

Lemma cantilever_straight_beyond_load_witness :
  beamType (withLoadPosition cantileverTip 4) = cantilever
  /\ solvable (withLoadPosition cantileverTip 4)
  /\ safeA (withLoadPosition cantileverTip 4) <= 6
  /\ f_M (nodeField (withLoadPosition cantileverTip 4) 6) == 0.
Proof.
  assert (H1 : beamType (withLoadPosition cantileverTip 4) = cantilever) by reflexivity.
  assert (H2 : solvable (withLoadPosition cantileverTip 4)) by solve_solvable.
  assert (H3 : safeA (withLoadPosition cantileverTip 4) <= 6) by (vm_compute; discriminate).
  split; [exact H1|]. split; [exact H2|]. split; [exact H3|].
  exact (proj2 (proj2 (cantilever_straight_beyond_load _ 6 H1 H2 H3))).
Defined.

(** ** The deflection formulas of the formula card *)

Lemma cantilever_tip_field (params : SimulationParams) :
  beamType params = cantilever ->
  solvable params ->
  length params <= loadPosition params ->
  let L := length params in
  f_v (nodeField params L)
  == force params * (L * L * L)
     / (3 * youngsModulus params * sec_I (calculateSectionProperties params)).
Proof.
  intros Hb Hs Ha L. destruct (solvable_EI params Hs) as (HE & HI & _).
  destruct Hs as (HL & _).
  pose proof (safeA_beyond params (Qlt_le_weak _ _ HL) Ha) as Hsafe.
  unfold nodeField. rewrite Hb.
  assert (E : Qle_bool (length params) (safeA params) = true).
  { apply Qle_bool_iff. rewrite Hsafe. Lqa.lra. }
  fold L in E, Hsafe |- *. rewrite E. cbn [f_v]. rewrite Math_pow_2, Hsafe. field. auto.
Qed.

Lemma simplySupported_mid_field (params : SimulationParams) :
  beamType params = simplySupported ->
  solvable params ->
  loadPosition params == length params / 2 ->
  let L := length params in
  f_v (nodeField params (L / 2))
  == force params * (L * L * L)
     / (48 * youngsModulus params * sec_I (calculateSectionProperties params)).
Proof.
  intros Hb Hs Ha L. destruct (solvable_EI params Hs) as (HE & HI & HL0).
  destruct Hs as (HL & _). fold L in HL, HL0, Ha.
  assert (Hsafe : safeA params == L / 2).
  { rewrite safeA_inside; [exact Ha|]. rewrite Ha. fold L.
    split; [apply Qle_shift_div_l | apply Qle_shift_div_r]; Lqa.lra. }
  unfold nodeField. rewrite Hb. fold L.
  destruct (Qle_bool (L / 2) (safeA params)) eqn:E; field_flags; cbn [f_v].
  - rewrite !Math_pow_2, Hsafe. field. auto.
  - exfalso. rewrite Hsafe in E. Lqa.lra.
Qed.

(** X4. The solver reproduces the two formulas of the formula card.  On
    a cantilever loaded at (or beyond) its free end the nodes of the last
    mesh column are displaced by [scale * P L^3 / (3 E I)]; on a simply
    supported beam loaded at mid-span, with an even number [2 k] of mesh
    columns, the nodes of column [k] sit at [L / 2] and are displaced by
    [scale * P L^3 / (48 E I)]. *)
Theorem formula_card_deflections (params : SimulationParams) (k j : nat) :
  solvable params ->
  let L := length params in
  let EI := youngsModulus params * sec_I (calculateSectionProperties params) in
  let tip := getNode params (meshDensityX params) j in
  let mid := getNode params k j in
  (beamType params = cantilever -> L <= loadPosition params ->
     n_x tip == L
     /\ n_dy tip - n_y tip == scaleOf params * (force params * (L * L * L) / (3 * EI)))
  /\ (beamType params = simplySupported -> loadPosition params == L / 2 ->
      meshDensityX params = (2 * k)%nat ->
     n_x mid == L / 2
     /\ n_dy mid - n_y mid == scaleOf params * (force params * (L * L * L) / (48 * EI))).
Proof.
  intros Hs L EI tip mid. pose proof Hs as (HL & _ & _ & Hnx & _).
  destruct (solvable_EI params Hs) as (HE & HI & HL0).
  split.
  - intros Hb Ha.
    pose proof (getNode_x_end params j Hnx) as H1. fold tip L in H1.
    split; [exact H1|].
    destruct (getNode_fields params (meshDensityX params) j) as (Hv & _ & _).
    fold tip in Hv. rewrite Hv.
    destruct (nodeField_ext params _ _ H1) as (Ev & _ & _). rewrite Ev.
    subst L. rewrite (cantilever_tip_field params Hb Hs Ha). subst EI. field. auto.
  - intros Hb Ha Hk.
    assert (Hx : n_x mid == L / 2).
    { subst mid. unfold getNode. cbn [n_x]. rewrite Hk. fold L.
      assert (Hk0 : 0 < inject_Z (Z.of_nat k)).
      { rewrite <- (Zlt_Qlt 0). lia. }
      replace (Z.of_nat (2 * k)) with (2 * Z.of_nat k)%Z by lia.
      rewrite inject_Z_mult. field. Lqa.lra. }
    split; [exact Hx|].
    destruct (getNode_fields params k j) as (Hv & _ & _). fold mid in Hv. rewrite Hv.
    destruct (nodeField_ext params _ _ Hx) as (Ev & _ & _). rewrite Ev.
    subst L. rewrite (simplySupported_mid_field params Hb Hs Ha). subst EI. field. auto.
Qed.

Lemma formula_card_deflections_witness :
  solvable defaultParams
  /\ beamType defaultParams = simplySupported
  /\ loadPosition defaultParams == length defaultParams / 2
  /\ meshDensityX defaultParams = (2 * 20)%nat
  /\ n_x (getNode defaultParams 20 0) == length defaultParams / 2.
Proof.
  assert (H1 : solvable defaultParams) by solve_solvable.
  assert (H2 : beamType defaultParams = simplySupported) by reflexivity.
  assert (H3 : loadPosition defaultParams == length defaultParams / 2) by reflexivity.
  assert (H4 : meshDensityX defaultParams = (2 * 20)%nat) by reflexivity.
  split; [exact H1|]. split; [exact H2|]. split; [exact H3|]. split; [exact H4|].
  exact (proj1 (proj2 (formula_card_deflections defaultParams 20 0 H1) H2 H3 H4)).
Defined.

(** ** Sign of the stress *)

Lemma simplySupported_moment_negative (params : SimulationParams) (x : Q) :
  beamType params = simplySupported ->
  force params < 0 ->
  0 < loadPosition params < length params ->
  0 < x < length params ->
  f_M (nodeField params x) < 0.
Proof.
  intros Hb HP Ha Hx.
  assert (Hsafe : safeA params == loadPosition params) by (apply safeA_inside; Lqa.lra).
  unfold nodeField. rewrite Hb.
  destruct (Qle_bool x (safeA params)) eqn:E; field_flags; cbn [f_M];
    (apply Qdiv_neg; [|Lqa.lra]); rewrite Hsafe.
  - assert (0 < (length params - loadPosition params) * x) by Lqa.nra. Lqa.nra.
  - assert (0 < loadPosition params * (length params - x)) by Lqa.nra. Lqa.nra.
Qed.

Lemma cantilever_moment_positive (params : SimulationParams) (x : Q) :
  beamType params = cantilever ->
  force params < 0 ->
  0 < loadPosition params <= length params ->
  x < loadPosition params ->
  0 < f_M (nodeField params x).
Proof.
  intros Hb HP Ha Hx.
  assert (Hsafe : safeA params == loadPosition params) by (apply safeA_inside; Lqa.lra).
  unfold nodeField. rewrite Hb.
  destruct (Qle_bool x (safeA params)) eqn:E; field_flags; cbn [f_M]; rewrite Hsafe in *.
  - Lqa.nra.
  - exfalso. Lqa.lra.
Qed.

(** X5. Under a downward load ([force < 0]) placed on the beam, the
    stress the solver stores at a node above the neutral axis ([y > 0])
    is positive everywhere between the ends of a simply supported beam
    and negative everywhere between the wall and the load of a
    cantilever; the cross-section panel does the opposite: its top-fibre
    flag [isTopTension] is off for the simply supported beam and on for
    the cantilever. *)
Theorem stress_sign_under_downward_load (params : SimulationParams) (i j : nat) :
  solvable params ->
  force params < 0 ->
  0 < loadPosition params <= length params ->
  let n := getNode params i j in
  0 < n_y n ->
  (beamType params = simplySupported -> loadPosition params < length params ->
   0 < n_x n < length params -> 0 < n_stress n /\ isTopTension params = false)
  /\ (beamType params = cantilever -> n_x n < loadPosition params ->
      n_stress n < 0 /\ isTopTension params = true).
Proof.
  intros (_ & _ & HI & _) HP Ha n Hy.
  destruct (getNode_fields params i j) as (_ & _ & Hs). fold n in Hs.
  split.
  - intros Hb HaL Hx. split.
    + rewrite Hs.
      pose proof (simplySupported_moment_negative params (n_x n) Hb HP
                    ltac:(Lqa.lra) Hx) as HM.
      apply Qdiv_pos; [|exact HI]. Lqa.nra.
    + unfold isTopTension. rewrite Hb. apply Qlt_bool_false. Lqa.lra.
  - intros Hb Hx. split.
    + rewrite Hs.
      pose proof (cantilever_moment_positive params (n_x n) Hb HP Ha Hx) as HM.
      apply Qdiv_neg; [|exact HI]. Lqa.nra.
    + unfold isTopTension. rewrite Hb. apply Qlt_bool_iff. exact HP.
Qed.

Lemma stress_sign_under_downward_load_witness :
  solvable cantileverTip
  /\ force cantileverTip < 0
  /\ 0 < loadPosition cantileverTip <= length cantileverTip
  /\ 0 < n_y (getNode cantileverTip 1 10)
  /\ beamType cantileverTip = cantilever
  /\ n_x (getNode cantileverTip 1 10) < loadPosition cantileverTip
  /\ n_stress (getNode cantileverTip 1 10) < 0.
Proof.
  assert (H1 : solvable cantileverTip) by solve_solvable.
  assert (H2 : force cantileverTip < 0) by reflexivity.
  assert (H3 : 0 < loadPosition cantileverTip <= length cantileverTip)
    by (split; vm_compute; [reflexivity | discriminate]).
  assert (H4 : 0 < n_y (getNode cantileverTip 1 10)) by (vm_compute; reflexivity).
  assert (H5 : beamType cantileverTip = cantilever) by reflexivity.
  assert (H6 : n_x (getNode cantileverTip 1 10) < loadPosition cantileverTip)
    by (vm_compute; reflexivity).
  split; [exact H1|]. split; [exact H2|]. split; [exact H3|]. split; [exact H4|].
  split; [exact H5|]. split; [exact H6|].
  exact (proj1 (proj2 (stress_sign_under_downward_load cantileverTip 1 10 H1 H2 H3 H4)
                  H5 H6)).
Defined.

(** ** Section properties *)

(** X6. With positive dimensions the moment of inertia is positive for
    each of the three section types, so the stress [- M y / I] of the
    field solver never divides by zero. *)
Theorem inertia_positive (params : SimulationParams) :
  0 < height params -> 0 < sectionWidth params -> 0 < flangeWidth params ->
  0 < flangeThickness params -> 0 < webThickness params ->
  0 < sec_I (calculateSectionProperties params).
Proof.
  intros HH HB HF Htf Htw. unfold calculateSectionProperties.
  set (H := height params) in *.
  assert (H2 : 0 < H * H) by Lqa.nra.
  assert (H3 : 0 < H * H * H) by Lqa.nra.
  destruct (sectionType params).
  - cbn [sec_I]. rewrite Math_pow_3. apply Qdiv_pos; [|reflexivity]. Lqa.nra.
  - cbn [sec_I]. apply Qdiv_pos; [|reflexivity].
    assert (E : Math_pow H 4 == (H * H) * (H * H)) by (unfold Math_pow; simpl; ring).
    rewrite E. assert (0 < Math_PI) by reflexivity.
    assert (0 < (H * H) * (H * H)) by Lqa.nra. Lqa.nra.
  - destruct (Qlt_bool 0 (H - 2 * flangeThickness params)
              && Qlt_bool 0 (flangeWidth params - webThickness params)) eqn:E;
      cbn [sec_I]; rewrite ?Math_pow_3; (apply Qdiv_pos; [|reflexivity]).
    + apply andb_true_iff in E. destruct E as [E1 E2]. field_flags.
      set (h := H - 2 * flangeThickness params) in *.
      set (b := flangeWidth params - webThickness params) in *.
      assert (Hh : h * h * h <= H * H * H).
      { apply cube_mono; subst h; Lqa.lra. }
      assert (0 < h * h) by Lqa.nra.
      assert (0 < h * h * h) by Lqa.nra.
      assert (b * (h * h * h) < flangeWidth params * (H * H * H)).
      { assert (b * (h * h * h) <= b * (H * H * H)) by Lqa.nra.
        assert (b * (H * H * H) < flangeWidth params * (H * H * H)).
        { subst b. Lqa.nra. }
        Lqa.lra. }
      Lqa.lra.
    + Lqa.nra.
Qed.

Lemma inertia_positive_witness :
  0 < height ibeamExample /\ 0 < sectionWidth ibeamExample
  /\ 0 < flangeWidth ibeamExample /\ 0 < flangeThickness ibeamExample
  /\ 0 < webThickness ibeamExample
  /\ 0 < sec_I (calculateSectionProperties ibeamExample).
Proof.
  assert (H1 : 0 < height ibeamExample) by reflexivity.
  assert (H2 : 0 < sectionWidth ibeamExample) by reflexivity.
  assert (H3 : 0 < flangeWidth ibeamExample) by reflexivity.
  assert (H4 : 0 < flangeThickness ibeamExample) by reflexivity.
  assert (H5 : 0 < webThickness ibeamExample) by reflexivity.
  split; [exact H1|]. split; [exact H2|]. split; [exact H3|]. split; [exact H4|].
  split; [exact H5|].
  exact (inertia_positive ibeamExample H1 H2 H3 H4 H5).
Defined.

(** ** Mesh statistics and the colour range *)

Lemma fold_statsNode_stress (ns : list NodePoint) (acc : BeamStats) :
  0 <= maxStress acc ->
  maxStress (fold_left statsNode ns acc)
  == Qmax (maxStress acc) (maxAbsQ (map n_stress ns)).
Proof.
  revert acc. induction ns as [|n ns IH]; intros acc Hacc;
    cbn [fold_left map maxAbsQ fold_right].
  - rewrite Q.max_l; [reflexivity | exact Hacc].
  - fold (maxAbsQ (map n_stress ns)).
    assert (Hstep : maxStress (statsNode acc n) == Qmax (maxStress acc) (Qabs (n_stress n))).
    { unfold statsNode. cbn [maxStress]. apply max_if. }
    rewrite IH.
    + rewrite Hstep. symmetry. apply Q.max_assoc.
    + rewrite Hstep. pose proof (Q.le_max_l (maxStress acc) (Qabs (n_stress n))).
      Lqa.lra.
Qed.

(** The statistics as maxima over the list of all visited nodes. *)
Lemma stats_as_maxima (elements : list MeshElement) :
  maxStress (calculateBeamStats elements)
    == maxAbsQ (map n_stress (flat_map el_nodes elements))
  /\ maxDeflection (calculateBeamStats elements)
    == maxAbsQ (map (fun n => n_dy n - n_y n) (flat_map el_nodes elements)).
Proof.
  unfold calculateBeamStats. rewrite fold_left_flat_map.
  rewrite fold_statsNode_stress, fold_statsNode_deflection by (cbn; Lqa.lra).
  cbn [maxStress maxDeflection].
  rewrite !Q.max_r by apply maxAbsQ_nonneg. split; reflexivity.
Qed.

Lemma maxAbsQ_ge (l : list Q) (v : Q) : In v l -> Qabs v <= maxAbsQ l.
Proof.
  induction l as [|w l IH]; intro H; [contradiction|].
  cbn [maxAbsQ fold_right]. fold (maxAbsQ l). destruct H as [H|H].
  - subst w. apply Q.le_max_l.
  - pose proof (IH H). pose proof (Q.le_max_r (Qabs w) (maxAbsQ l)). Lqa.lra.
Qed.

Lemma maxAbsQ_attained (l : list Q) :
  maxAbsQ l == 0 \/ exists v, In v l /\ maxAbsQ l == Qabs v.
Proof.
  induction l as [|w l IH]; [left; reflexivity|].
  cbn [maxAbsQ fold_right]. fold (maxAbsQ l). right.
  destruct (Q.max_spec (Qabs w) (maxAbsQ l)) as [[H1 H2]|[H1 H2]].
  - destruct IH as [IH|(v & Hv & IH)].
    + exfalso. pose proof (Qabs_nonneg w). Lqa.lra.
    + exists v. split; [now right|]. rewrite H2. exact IH.
  - exists w. split; [now left|]. exact H2.
Qed.

Lemma maxAbsQ_zero (l : list Q) : (forall v, In v l -> v == 0) -> maxAbsQ l == 0.
Proof.
  intro H. destruct (maxAbsQ_attained l) as [E|(v & Hv & E)]; [exact E|].
  rewrite E, (H v Hv). reflexivity.
Qed.

Lemma maxAbsQ_scaled {A : Type} (k : Q) (f g : A -> Q) (l : list A) :
  (forall a, f a == k * g a) ->
  maxAbsQ (map f l) == Qabs k * maxAbsQ (map g l).
Proof.
  intro H. rewrite (maxAbsQ_ext f (fun a => g a * k)) by (intros; rewrite H; ring).
  rewrite <- (map_map g (fun v => v * k)). apply maxAbsQ_scale.
Qed.

Lemma node_in_mesh (elements : list MeshElement) (el : MeshElement) (n : NodePoint) :
  In el elements -> In n (el_nodes el) -> In n (flat_map el_nodes elements).
Proof. intros H1 H2. apply in_flat_map. exists el. split; assumption. Qed.

(** Every node is within the statistics. *)
Lemma stats_bound_nodes (elements : list MeshElement) (el : MeshElement) (n : NodePoint) :
  In el elements -> In n (el_nodes el) ->
  Qabs (n_stress n) <= maxStress (calculateBeamStats elements)
  /\ Qabs (n_dy n - n_y n) <= maxDeflection (calculateBeamStats elements).
Proof.
  intros Hel Hn. destruct (stats_as_maxima elements) as [Hs Hd].
  pose proof (node_in_mesh _ _ _ Hel Hn) as Hin. rewrite Hs, Hd. split.
  - apply maxAbsQ_ge. apply (in_map n_stress), Hin.
  - apply maxAbsQ_ge. apply (in_map (fun n => n_dy n - n_y n)), Hin.
Qed.

(** The statistics over the mesh, by node index. *)
Lemma mesh_stats (params : SimulationParams) :
  maxStress (calculateBeamStats (calculateBeamPhysics params))
    == maxAbsQ (map (fun ij => n_stress (getNode params (fst ij) (snd ij)))
                    (meshIndices params))
  /\ maxDeflection (calculateBeamStats (calculateBeamPhysics params))
    == maxAbsQ (map (fun ij => n_dy (getNode params (fst ij) (snd ij))
                               - n_y (getNode params (fst ij) (snd ij)))
                    (meshIndices params)).
Proof.
  destruct (stats_as_maxima (calculateBeamPhysics params)) as [Hs Hd].
  rewrite Hs, Hd, meshNodes_indices, !map_map. split; reflexivity.
Qed.

(** X7. [calculateBeamStats] returns attained maxima: no node of any
    element exceeds [maxStress] in [|stress|] or [maxDeflection] in
    [|dy - y|], and each statistic is either 0 or the value of some node
    (for an empty mesh both are 0). *)
Theorem stats_are_attained_maxima (elements : list MeshElement) :
  let s := calculateBeamStats elements in
  (forall el n, In el elements -> In n (el_nodes el) ->
     Qabs (n_stress n) <= maxStress s /\ Qabs (n_dy n - n_y n) <= maxDeflection s)
  /\ (maxStress s == 0
      \/ exists el n, In el elements /\ In n (el_nodes el)
                      /\ maxStress s == Qabs (n_stress n))
  /\ (maxDeflection s == 0
      \/ exists el n, In el elements /\ In n (el_nodes el)
                      /\ maxDeflection s == Qabs (n_dy n - n_y n)).
Proof.
  intro s. destruct (stats_as_maxima elements) as [Hs Hd]. fold s in Hs, Hd.
  split; [|split].
  - intros el n Hel Hn. exact (stats_bound_nodes elements el n Hel Hn).
  - destruct (maxAbsQ_attained (map n_stress (flat_map el_nodes elements)))
      as [E|(v & Hv & E)].
    + left. rewrite Hs. exact E.
    + right. apply in_map_iff in Hv. destruct Hv as (n & <- & Hn).
      apply in_flat_map in Hn. destruct Hn as (el & Hel & Hn).
      exists el, n. rewrite Hs. auto.
  - destruct (maxAbsQ_attained (map (fun n => n_dy n - n_y n) (flat_map el_nodes elements)))
      as [E|(v & Hv & E)].
    + left. rewrite Hd. exact E.
    + right. apply in_map_iff in Hv. destruct Hv as (n & <- & Hn).
      apply in_flat_map in Hn. destruct Hn as (el & Hel & Hn).
      exists el, n. rewrite Hd. auto.
Qed.

Lemma mesh_element_cell (params : SimulationParams) (el : MeshElement) :
  In el (calculateBeamPhysics params) ->
  exists i j, (i < meshDensityX params)%nat /\ (j < meshDensityY params)%nat
              /\ el = meshCell params i j.
Proof.
  unfold calculateBeamPhysics. intro H. apply in_flat_map in H.
  destruct H as (i & Hi & H). apply in_map_iff in H. destruct H as (j & <- & Hj).
  apply in_seq in Hi. apply in_seq in Hj. exists i, j. repeat split; lia.
Qed.

Lemma cell_in_mesh (params : SimulationParams) (i j : nat) :
  (i < meshDensityX params)%nat -> (j < meshDensityY params)%nat ->
  In (meshCell params i j) (calculateBeamPhysics params).
Proof.
  intros Hi Hj. unfold calculateBeamPhysics. apply in_flat_map. exists i.
  split; [apply in_seq; lia|]. apply in_map. apply in_seq. lia.
Qed.

(** X8. The colour scale of the mesh view never clips: the average
    stress of every element lies inside the domain
    [[-absMax, absMax]], [absMax = max(maxStress, 100)], that
    [BeamVisualizer] builds from the statistics. *)
Theorem colour_scale_covers_mesh (params : SimulationParams) (el : MeshElement) :
  solvable params ->
  In el (calculateBeamPhysics params) ->
  let range := stressRange (calculateBeamStats (calculateBeamPhysics params)) in
  fst range <= el_avgStress el <= snd range.
Proof.
  intros _ Hel range.
  destruct (mesh_element_cell params el Hel) as (i & j & _ & _ & E).
  set (s := maxStress (calculateBeamStats (calculateBeamPhysics params))) in *.
  assert (Hn : forall n, In n (el_nodes el) -> - s <= n_stress n <= s).
  { intros n Hn. destruct (stats_bound_nodes _ el n Hel Hn) as [H _].
    apply Qabs_Qle_condition in H. exact H. }
  subst range. unfold stressRange, Math_max. cbn [fst snd]. fold s.
  pose proof (Q.le_max_l s 100) as Hmax.
  rewrite E in Hn |- *. unfold meshCell in Hn |- *. cbn [el_nodes el_avgStress] in Hn |- *.
  pose proof (Hn _ (or_introl eq_refl)) as H1.
  pose proof (Hn _ (or_intror (or_introl eq_refl))) as H2.
  pose proof (Hn _ (or_intror (or_intror (or_introl eq_refl)))) as H3.
  pose proof (Hn _ (or_intror (or_intror (or_intror (or_introl eq_refl))))) as H4.
  split; [apply Qle_shift_div_l | apply Qle_shift_div_r]; try reflexivity; Lqa.lra.
Qed.

Lemma colour_scale_covers_mesh_witness :
  solvable smallMesh
  /\ In (meshCell smallMesh 1 1) (calculateBeamPhysics smallMesh)
  /\ el_avgStress (meshCell smallMesh 1 1)
     <= snd (stressRange (calculateBeamStats (calculateBeamPhysics smallMesh))).
Proof.
  assert (H1 : solvable smallMesh) by solve_solvable.
  assert (H2 : In (meshCell smallMesh 1 1) (calculateBeamPhysics smallMesh)).
  { apply cell_in_mesh; vm_compute; lia. }
  split; [exact H1|]. split; [exact H2|].
  pose proof (colour_scale_covers_mesh smallMesh (meshCell smallMesh 1 1) H1 H2) as W.
  cbv zeta in W. exact (proj2 W).
Defined.

(** X9. For the beam type [overhanging] the field solver has no branch:
    every node keeps its position and carries no stress, and both
    statistics are 0. *)
Theorem overhanging_mesh_is_undeformed (params : SimulationParams) :
  beamType params = overhanging ->
  solvable params ->
  (forall i j, let n := getNode params i j in
     n_dx n == n_x n /\ n_dy n == n_y n /\ n_stress n == 0)
  /\ maxStress (calculateBeamStats (calculateBeamPhysics params)) == 0
  /\ maxDeflection (calculateBeamStats (calculateBeamPhysics params)) == 0.
Proof.
  intros Hb _.
  assert (Hn : forall i j, let n := getNode params i j in
     n_dx n == n_x n /\ n_dy n == n_y n /\ n_stress n == 0).
  { intros i j n. destruct (getNode_fields params i j) as (Hv & Hu & Hs). fold n in Hv, Hu, Hs.
    unfold nodeField in Hv, Hu, Hs. rewrite Hb in Hv, Hu, Hs. cbn [f_v f_theta f_M] in *.
    split; [Lqa.lra|]. split; [Lqa.lra|]. rewrite Hs. unfold Qdiv. ring. }
  split; [exact Hn|].
  destruct (mesh_stats params) as [Hs Hd]. rewrite Hs, Hd.
  split; apply maxAbsQ_zero; intros v Hv; apply in_map_iff in Hv;
    destruct Hv as (ij & <- & _); destruct (Hn (fst ij) (snd ij)) as (_ & H2 & H3);
    cbn zeta in H2, H3; Lqa.lra.
Qed.

Lemma overhanging_mesh_is_undeformed_witness :
  beamType overhangSmall = overhanging
  /\ solvable overhangSmall
  /\ maxStress (calculateBeamStats (calculateBeamPhysics overhangSmall)) == 0.
Proof.
  assert (H1 : beamType overhangSmall = overhanging) by reflexivity.
  assert (H2 : solvable overhangSmall) by solve_solvable.
  split; [exact H1|]. split; [exact H2|].
  exact (proj1 (proj2 (overhanging_mesh_is_undeformed overhangSmall H1 H2))).
Defined.

(** ** Linearity in the force, dependence on the material *)

Lemma nodeField_force (params : SimulationParams) (k x : Q) :
  let q := spread params (set_force (k * force params)) in
  f_v (nodeField q x) == k * f_v (nodeField params x)
  /\ f_theta (nodeField q x) == k * f_theta (nodeField params x)
  /\ f_M (nodeField q x) == k * f_M (nodeField params x).
Proof.
  intro q. unfold nodeField.
  change (beamType q) with (beamType params).
  change (length q) with (length params).
  change (force q) with (k * force params).
  change (youngsModulus q) with (youngsModulus params).
  change (calculateSectionProperties q) with (calculateSectionProperties params).
  change (safeA q) with (safeA params).
  destruct (beamType params); try destruct (Qle_bool x (safeA params));
    cbn [f_v f_theta f_M]; (split; [|split]); unfold Qdiv; ring.
Qed.

Lemma getNode_force (params : SimulationParams) (k : Q) (i j : nat) :
  let q := spread params (set_force (k * force params)) in
  let n := getNode params i j in
  let n' := getNode q i j in
  n_stress n' == k * n_stress n
  /\ n_dy n' - n_y n' == k * (n_dy n - n_y n)
  /\ n_dx n' - n_x n' == k * (n_dx n - n_x n).
Proof.
  intros q n n'.
  destruct (getNode_fields params i j) as (Hv & Hu & Hs). fold n in Hv, Hu, Hs.
  destruct (getNode_fields q i j) as (Hv' & Hu' & Hs'). fold n' in Hv', Hu', Hs'.
  change (n_x n') with (n_x n) in *. change (n_y n') with (n_y n) in *.
  change (scaleOf q) with (scaleOf params) in *.
  change (calculateSectionProperties q) with (calculateSectionProperties params) in *.
  destruct (nodeField_force params k (n_x n)) as (Fv & Ft & Fm). fold q in Fv, Ft, Fm.
  rewrite Fv in Hv'. rewrite Ft in Hu'. rewrite Fm in Hs'.
  rewrite Hv', Hu', Hs', Hv, Hu, Hs. split; [|split]; unfold Qdiv; ring.
Qed.

(** X10. The field solver is linear in the force: multiplying the force
    by [k] multiplies the stress and both displacements of every node by
    [k] (so reversing the force reverses them), and multiplies
    [maxStress] and [maxDeflection] by [|k|]. *)
Theorem response_is_linear_in_force (params : SimulationParams) (k : Q) (i j : nat) :
  solvable params ->
  let q := spread params (set_force (k * force params)) in
  let n := getNode params i j in
  let n' := getNode q i j in
  n_stress n' == k * n_stress n
  /\ n_dy n' - n_y n' == k * (n_dy n - n_y n)
  /\ n_dx n' - n_x n' == k * (n_dx n - n_x n)
  /\ maxStress (calculateBeamStats (calculateBeamPhysics q))
     == Qabs k * maxStress (calculateBeamStats (calculateBeamPhysics params))
  /\ maxDeflection (calculateBeamStats (calculateBeamPhysics q))
     == Qabs k * maxDeflection (calculateBeamStats (calculateBeamPhysics params)).
Proof.
  intros _ q n n'.
  destruct (getNode_force params k i j) as (H1 & H2 & H3). fold q n n' in H1, H2, H3.
  split; [exact H1|]. split; [exact H2|]. split; [exact H3|].
  destruct (mesh_stats params) as [Hs Hd]. destruct (mesh_stats q) as [Hs' Hd'].
  rewrite Hs, Hd, Hs', Hd'.
  change (meshIndices q) with (meshIndices params).
  split; apply maxAbsQ_scaled; intro ij;
    destruct (getNode_force params k (fst ij) (snd ij)) as (G1 & G2 & _);
    [exact G1 | exact G2].
Qed.

Lemma response_is_linear_in_force_witness :
  solvable smallMesh
  /\ n_stress (getNode (spread smallMesh (set_force (-1 * force smallMesh))) 2 2)
     == -1 * n_stress (getNode smallMesh 2 2).
Proof.
  assert (H1 : solvable smallMesh) by solve_solvable.
  split; [exact H1|].
  pose proof (response_is_linear_in_force smallMesh (-1) 2 2 H1) as W.
  cbv zeta in W. exact (proj1 W).
Defined.

(** Young's modulus times the deflection does not depend on Young's
    modulus; the moment never does. *)
Lemma nodeField_modulus (params : SimulationParams) (E' x : Q) :
  solvable params -> 0 < E' ->
  let q := spread params (set_youngsModulus E') in
  E' * f_v (nodeField q x) == youngsModulus params * f_v (nodeField params x)
  /\ E' * f_theta (nodeField q x) == youngsModulus params * f_theta (nodeField params x)
  /\ f_M (nodeField q x) == f_M (nodeField params x).
Proof.
  intros Hs HE' q. destruct (solvable_EI params Hs) as (HE & HI & HL).
  assert (HE0 : ~ E' == 0) by Lqa.lra.
  unfold nodeField.
  change (beamType q) with (beamType params).
  change (length q) with (length params).
  change (force q) with (force params).
  change (youngsModulus q) with E'.
  change (calculateSectionProperties q) with (calculateSectionProperties params).
  change (safeA q) with (safeA params).
  destruct (beamType params); try destruct (Qle_bool x (safeA params));
    cbn [f_v f_theta f_M]; (split; [|split]); try reflexivity; field; auto.
Qed.

Lemma getNode_material (params : SimulationParams) (type : Material) (i j : nat) :
  solvable params ->
  let q := applyMaterial params type in
  let n := getNode params i j in
  let n' := getNode q i j in
  n_stress n' == n_stress n
  /\ youngsModulus q * (n_dy n' - n_y n') == youngsModulus params * (n_dy n - n_y n).
Proof.
  intros Hsol q n n'.
  destruct (getNode_fields params i j) as (Hv & _ & Hs). fold n in Hv, Hs.
  destruct (getNode_fields q i j) as (Hv' & _ & Hs'). fold n' in Hv', Hs'.
  change (n_x n') with (n_x n) in *. change (n_y n') with (n_y n) in *.
  change (scaleOf q) with (scaleOf params) in *.
  change (calculateSectionProperties q) with (calculateSectionProperties params) in *.
  assert (HE : 0 < youngsModulus q) by (destruct type; reflexivity).
  destruct (nodeField_modulus params (youngsModulus q) (n_x n) Hsol HE) as (Fv & _ & Fm).
  change (nodeField (spread params (set_youngsModulus (youngsModulus q))) (n_x n))
    with (nodeField q (n_x n)) in Fv, Fm.
  rewrite Fm in Hs'. split.
  - rewrite Hs', Hs. reflexivity.
  - rewrite Hv', Hv.
    transitivity (youngsModulus q * f_v (nodeField q (n_x n)) * scaleOf params); [ring|].
    rewrite Fv. ring.
Qed.

(** X11. Choosing a material preset ([applyMaterial]: steel, aluminum or
    wood) changes the stiffness only: the stress of every node and
    [maxStress] stay as they were, and the vertical displacement of every
    node changes in inverse proportion to Young's modulus,
    [E' (dy' - y') = E (dy - y)]. *)
Theorem material_changes_stiffness_only (params : SimulationParams) (type : Material)
    (i j : nat) :
  solvable params ->
  let q := applyMaterial params type in
  let n := getNode params i j in
  let n' := getNode q i j in
  n_stress n' == n_stress n
  /\ youngsModulus q * (n_dy n' - n_y n') == youngsModulus params * (n_dy n - n_y n)
  /\ maxStress (calculateBeamStats (calculateBeamPhysics q))
     == maxStress (calculateBeamStats (calculateBeamPhysics params)).
Proof.
  intros Hsol q n n'.
  destruct (getNode_material params type i j Hsol) as (H1 & H2). fold q n n' in H1, H2.
  split; [exact H1|]. split; [exact H2|].
  destruct (mesh_stats params) as [Hs _]. destruct (mesh_stats q) as [Hs' _].
  rewrite Hs, Hs'. change (meshIndices q) with (meshIndices params).
  apply maxAbsQ_ext. intros ij _.
  destruct (getNode_material params type (fst ij) (snd ij) Hsol) as (G1 & _). exact G1.
Qed.

Lemma material_changes_stiffness_only_witness :
  solvable smallMesh
  /\ n_stress (getNode (applyMaterial smallMesh wood) 2 2)
     == n_stress (getNode smallMesh 2 2).
Proof.
  assert (H1 : solvable smallMesh) by solve_solvable.
  split; [exact H1|].
  pose proof (material_changes_stiffness_only smallMesh wood 2 2 H1) as W.
  cbv zeta in W. exact (proj1 W).
Defined.

(** ** The result panel *)

Lemma safety_divisor (stress : Q) : 1 <= Math_max 1 (Math_abs stress).
Proof. unfold Math_max. apply Q.le_max_l. Qed.

Lemma stats_nonneg (elements : list MeshElement) :
  0 <= maxStress (calculateBeamStats elements)
  /\ 0 <= maxDeflection (calculateBeamStats elements).
Proof.
  destruct (stats_as_maxima elements) as [Hs Hd]. rewrite Hs, Hd.
  split; apply maxAbsQ_nonneg.
Qed.

(** X12. The safety factor [yieldStrength / max(1, |maxStress|)] of the
    result panel never divides by zero: for a positive yield strength it
    is positive and at most the yield strength, it is the yield strength
    itself while the stress is at most 1, and [yield / |stress|] from
    there on.  The assistant's context computes it without the absolute
    value and gets the same number, because [maxStress] is never
    negative. *)
Theorem safety_factor_bounds (params : SimulationParams) (stress : Q)
    (elements : list MeshElement) :
  0 < yieldStrength params ->
  0 < safetyFactor params stress <= yieldStrength params
  /\ (Qabs stress <= 1 -> safetyFactor params stress == yieldStrength params)
  /\ (1 <= Qabs stress ->
      safetyFactor params stress * Qabs stress == yieldStrength params)
  /\ contextSafetyFactor params (calculateBeamStats elements)
     == safetyFactor params (maxStress (calculateBeamStats elements)).
Proof.
  intro HY. split; [|split; [|split]].
  - unfold safetyFactor. pose proof (safety_divisor stress) as Hd.
    set (d := Math_max 1 (Math_abs stress)) in *. split.
    + apply Qlt_shift_div_l; Lqa.lra.
    + apply Qle_shift_div_r; [Lqa.lra|]. Lqa.nra.
  - intro H. unfold safetyFactor, Math_max, Math_abs.
    rewrite Q.max_l by exact H. field.
  - intro H. unfold safetyFactor, Math_max, Math_abs.
    rewrite Q.max_r by exact H. field. Lqa.lra.
  - unfold contextSafetyFactor, safetyFactor, Math_abs.
    destruct (stats_nonneg elements) as [H _].
    rewrite (Qabs_pos _ H). reflexivity.
Qed.

Lemma safety_factor_bounds_witness :
  0 < yieldStrength defaultParams
  /\ 0 < safetyFactor defaultParams 12000000 <= yieldStrength defaultParams.
Proof.
  assert (H1 : 0 < yieldStrength defaultParams) by reflexivity.
  split; [exact H1|].
  exact (proj1 (safety_factor_bounds defaultParams 12000000 [] H1)).
Defined.

(** X13. The two warnings of the panel agree: whenever the stress bar is
    red ([maxStress > yieldStrength]) the safety factor is printed in red
    ([sf < 1]); and for a stress of at least 1 the safety factor is red
    exactly when the bar is. *)
Theorem red_bar_means_red_factor (params : SimulationParams) (stress : Q) :
  (stressBarRed params stress = true ->
   getSafetyColor (safetyFactor params stress) = text_red)
  /\ (1 <= stress ->
      (getSafetyColor (safetyFactor params stress) = text_red
       <-> stressBarRed params stress = true)).
Proof.
  unfold stressBarRed, getSafetyColor, safetyFactor, Math_abs.
  pose proof (safety_divisor stress) as Hd. unfold Math_abs in Hd.
  pose proof (Q.le_max_r 1 (Qabs stress)) as Hr. fold (Math_max 1 (Qabs stress)) in Hr.
  pose proof (Qle_Qabs stress) as Ha.
  set (d := Math_max 1 (Qabs stress)) in *.
  split.
  - intro H. field_flags.
    assert (E : Qlt_bool (yieldStrength params / d) 1 = true).
    { apply Qlt_bool_iff. apply Qlt_shift_div_r; Lqa.lra. }
    rewrite E. reflexivity.
  - intro H1.
    assert (Ed : d == stress).
    { subst d. unfold Math_max. rewrite Qabs_pos by Lqa.lra. apply Q.max_r. exact H1. }
    split; intro H.
    + destruct (Qlt_bool (yieldStrength params / d) 1) eqn:E.
      * field_flags. apply Qlt_bool_iff.
        assert (yieldStrength params == yieldStrength params / d * d) by (field; Lqa.lra).
        rewrite <- Ed. Lqa.nra.
      * destruct (Qlt_bool (yieldStrength params / d) (3 # 2)); discriminate.
    + field_flags.
      assert (E : Qlt_bool (yieldStrength params / d) 1 = true).
      { apply Qlt_bool_iff. apply Qlt_shift_div_r; Lqa.lra. }
      rewrite E. reflexivity.
Qed.

Lemma red_bar_means_red_factor_witness :
  stressBarRed defaultParams 300000000 = true
  /\ getSafetyColor (safetyFactor defaultParams 300000000) = text_red.
Proof.
  assert (H1 : stressBarRed defaultParams 300000000 = true) by reflexivity.
  split; [exact H1|].
  exact (proj1 (red_bar_means_red_factor defaultParams 300000000) H1).
Defined.

Lemma default_sums (params : SimulationParams) (s : Q) :
  customLoads params = [] ->
  loadSums s (loadsOf params)
  = (0 - Math_abs (force params),
     0 - Math_abs (force params) * (loadPosition params - s)).
Proof.
  intro H. unfold loadSums, loadsOf. rewrite H. reflexivity.
Qed.

(** The reactions in terms of the two load sums. *)
Lemma solveReactions_sums (params : SimulationParams) :
  let sums := loadSums (diagSupA params) (loadsOf params) in
  let span := effectiveSpan (diagSupA params) (diagSupB params) in
  (beamType params = cantilever ->
     Ra (solveReactions params) == - fst sums /\ Rb (solveReactions params) == 0
     /\ Ma (solveReactions params) == - snd sums)
  /\ (beamType params <> cantilever ->
     Ra (solveReactions params) == - fst sums + snd sums / span
     /\ Rb (solveReactions params) == - snd sums / span
     /\ Ma (solveReactions params) == 0).
Proof.
  intros sums span. split; intro Hb.
  - rewrite solveReactions_cantilever by exact Hb. cbn [Ra Rb Ma].
    repeat split; reflexivity.
  - rewrite solveReactions_supported by exact Hb. cbn [Ra Rb Ma]. fold sums span.
    split; [|split]; try reflexivity. unfold Qdiv. ring.
Qed.

(** X14. For the base load placed on the beam the reactions printed by
    the result panel are those of the diagram solver: on a simply
    supported beam [R1 = Ra] and [R2 = Rb], and they add up to [|force|];
    on a cantilever [R1 = Ra] and the wall moment [M1 = Ma]. *)
Theorem panel_reactions_match_solver (params : SimulationParams) :
  customLoads params = [] ->
  (1 # 1000000) <= length params ->
  0 <= loadPosition params <= length params ->
  let r := reactions (calculateAnalyticalDiagrams params) in
  let q := panelReactions params in
  (beamType params = simplySupported ->
     R1 q == Ra r /\ R2 q == Rb r /\ R1 q + R2 q == Qabs (force params))
  /\ (beamType params = cantilever -> R1 q == Ra r /\ M1 q == Ma r).
Proof.
  intros Hc HL Ha r q. subst r q. cbn [calculateAnalyticalDiagrams reactions].
  assert (HL0 : 0 < length params) by Lqa.lra.
  split; intro Hb.
  - rewrite solveReactions_supported by congruence.
    rewrite default_sums by exact Hc. cbn [fst snd Ra Rb].
    unfold panelReactions, diagSupA, diagSupB. rewrite Hb. cbn [R1 R2].
    rewrite effectiveSpan_apart by (rewrite Qabs_pos; Lqa.lra).
    unfold Math_abs.
    set (L := length params) in *. set (a := loadPosition params) in *.
    assert (E1 : Qabs (force params * (L - a) / L) == Qabs (force params) * ((L - a) / L)).
    { unfold Qdiv. rewrite <- Qmult_assoc, Qabs_Qmult.
      rewrite (Qabs_pos ((L - a) * / L)); [reflexivity|].
      apply Qle_shift_div_l; Lqa.lra. }
    assert (E2 : Qabs (force params * a / L) == Qabs (force params) * (a / L)).
    { unfold Qdiv. rewrite <- Qmult_assoc, Qabs_Qmult.
      rewrite (Qabs_pos (a * / L)); [reflexivity|].
      apply Qle_shift_div_l; Lqa.lra. }
    rewrite E1, E2. split; [|split]; field; Lqa.lra.
  - rewrite solveReactions_cantilever by exact Hb.
    rewrite default_sums by exact Hc. cbn [fst snd Ra Ma].
    unfold panelReactions, diagSupA. rewrite Hb. cbn [R1 M1]. unfold Math_abs.
    rewrite Qabs_Qmult, (Qabs_pos (loadPosition params)) by Lqa.lra.
    split; ring.
Qed.

Lemma panel_reactions_match_solver_witness :
  customLoads defaultParams = []
  /\ (1 # 1000000) <= length defaultParams
  /\ 0 <= loadPosition defaultParams <= length defaultParams
  /\ beamType defaultParams = simplySupported
  /\ R1 (panelReactions defaultParams) + R2 (panelReactions defaultParams)
     == Qabs (force defaultParams).
Proof.
  assert (H1 : customLoads defaultParams = []) by reflexivity.
  assert (H2 : (1 # 1000000) <= length defaultParams) by (vm_compute; discriminate).
  assert (H3 : 0 <= loadPosition defaultParams <= length defaultParams)
    by (split; vm_compute; discriminate).
  assert (H4 : beamType defaultParams = simplySupported) by reflexivity.
  split; [exact H1|]. split; [exact H2|]. split; [exact H3|]. split; [exact H4|].
  pose proof (panel_reactions_match_solver defaultParams H1 H2 H3) as W.
  cbv zeta in W. exact (proj2 (proj2 (proj1 W H4))).
Defined.

(** ** Segment polynomials: slopes *)

Lemma slope_zero : shearIsMomentSlope polyZero.
Proof. unfold shearIsMomentSlope, polyZero. cbn. repeat split; ring. Qed.

Lemma slope_add (c d : PolyCoeffs) :
  shearIsMomentSlope c -> shearIsMomentSlope d -> shearIsMomentSlope (polyAdd c d).
Proof.
  unfold shearIsMomentSlope, polyAdd. cbn [m3 m2 m1 v2 v1 v0].
  intros (C3 & C2 & C1) (D3 & D2 & D1). rewrite <- C3, <- C2, <- C1, <- D3, <- D2, <- D1.
  split; [|split]; ring.
Qed.

Lemma slope_force (F at_ : Q) : shearIsMomentSlope (forceTerms F at_).
Proof. unfold shearIsMomentSlope, forceTerms. cbn. split; [|split]; ring. Qed.

Lemma Qinv_6 (L : Q) : / (6 * L) == (1 # 6) * / L.
Proof. rewrite Qinv_mult_distr. reflexivity. Qed.

Lemma Qinv_2 (L : Q) : / (2 * L) == (1 # 2) * / L.
Proof. rewrite Qinv_mult_distr. reflexivity. Qed.

Lemma slope_load (xA xB : Q) (l : LoadDefinition) : shearIsMomentSlope (loadTerms xA xB l).
Proof.
  unfold loadTerms.
  destruct (l_type l); destruct (l_x l) as [x|]; destruct (l_x1 l) as [x1|];
    destruct (l_x2 l) as [x2|]; try apply slope_zero;
    repeat match goal with
    | |- context [if ?c then _ else _] => destruct c
    end; try apply slope_zero;
    unfold shearIsMomentSlope; cbn [m3 m2 m1 v2 v1 v0];
    unfold Qdiv; rewrite ?Qinv_6, ?Qinv_2; (split; [|split]); ring.
Qed.

Lemma slope_reactions (xA : Q) (params : SimulationParams) (r : Reactions) :
  shearIsMomentSlope (reactionTerms xA params r).
Proof.
  unfold reactionTerms. destruct (isCantilever params).
  - unfold shearIsMomentSlope. cbn. split; [|split]; ring.
  - apply slope_add; match goal with |- context [if ?c then _ else _] => destruct c end;
      first [apply slope_force | apply slope_zero].
Qed.

Lemma getPolynomial_slope (xA xB : Q) (params : SimulationParams) (r : Reactions) :
  shearIsMomentSlope (getPolynomial xA xB params r).
Proof.
  unfold getPolynomial.
  assert (H0 : shearIsMomentSlope (polyAdd polyZero (reactionTerms xA params r))).
  { apply slope_add; [apply slope_zero | apply slope_reactions]. }
  revert H0. generalize (polyAdd polyZero (reactionTerms xA params r)).
  induction (loadsOf params) as [|l loads IH]; intros c Hc; cbn [fold_left].
  - exact Hc.
  - apply IH. apply slope_add; [exact Hc | apply slope_load].
Qed.

Lemma fold_polyAdd_slopeV (f : LoadDefinition -> PolyCoeffs) (loads : list LoadDefinition)
    (c : PolyCoeffs) (x : Q) :
  slopeV (fold_left (fun c l => polyAdd c (f l)) loads c) x
  == slopeV c x + sumQ (map (fun l => slopeV (f l) x) loads).
Proof.
  revert c. induction loads as [|l loads IH]; intro c; cbn [fold_left map sumQ fold_right].
  - ring.
  - rewrite IH. fold (sumQ (map (fun l => slopeV (f l) x) loads)).
    unfold slopeV, polyAdd. cbn [v2 v1]. ring.
Qed.

Lemma slopeV_reactions (xA : Q) (params : SimulationParams) (r : Reactions) (x : Q) :
  slopeV (polyAdd polyZero (reactionTerms xA params r)) x == 0.
Proof.
  unfold reactionTerms, slopeV.
  destruct (isCantilever params); cbn [polyAdd polyZero v2 v1]; [ring|].
  repeat match goal with |- context [if ?c then _ else _] => destruct c end;
    cbn [polyAdd polyZero forceTerms v2 v1]; ring.
Qed.

Lemma slopeV_load (xA xB x : Q) (l : LoadDefinition) :
  rangeStrict l ->
  (forall p, In p (loadPoints l) -> p <= xA \/ xB <= p) ->
  xA < x < xB ->
  slopeV (loadTerms xA xB l) x == - intensity x 0 l.
Proof.
  intros Hr Hgap Hx. unfold loadTerms, intensity, slopeV, rangeStrict, loadPoints in *.
  destruct (l_type l) eqn:Et; destruct (l_x l) as [lx|]; destruct (l_x1 l) as [x1|];
    destruct (l_x2 l) as [x2|];
    repeat match goal with
    | |- context [if Qle_bool ?a ?b then _ else _] => destruct (Qle_bool a b) eqn:?
    | |- context [if Qle_bool ?a ?b && _ then _ else _] => destruct (Qle_bool a b) eqn:?
    | |- context [if _ && Qle_bool ?a ?b then _ else _] => destruct (Qle_bool a b) eqn:?
    | |- context [if peakRight l then _ else _] => destruct (peakRight l) eqn:?
    end; cbn [andb polyZero v2 v1]; try ring; field_flags;
    try (pose proof (Hgap x1 (or_introl eq_refl)) as G1;
         pose proof (Hgap x2 (or_intror (or_introl eq_refl))) as G2);
    try (exfalso; Lqa.lra); try (field; Lqa.lra).
Qed.

(** X15. On every segment of the step list the polynomials obey the
    differential relations of beam statics: the shear polynomial is the
    derivative of the moment polynomial, coefficient by coefficient
    ([3 m3 = v2], [2 m2 = v1] and [m1 = v0]), and, for loads whose ranges
    have [x1 < x2], the slope of the shear polynomial strictly inside the
    segment is minus the distributed-load intensity [q] that the numeric
    sweep reads at the same position. *)
Theorem segment_polynomials_differentiate (params : SimulationParams) (r : Reactions)
    (s : StepResult) :
  In s (generateDetailedSteps params r) ->
  let c := s_poly s in
  (3 * m3 c == v2 c /\ 2 * m2 c == v1 c /\ m1 c == v0 c)
  /\ (forall x : Q,
        Forall rangeStrict (loadsOf params) ->
        s_xA s < x < s_xB s ->
        slopeV c x == - fold_left (intensity x) (loadsOf params) 0).
Proof.
  intros Hs c. destruct (segment_facts params r s Hs) as (Hp & _ & _ & _ & Hgap).
  subst c. split; [rewrite Hp; apply getPolynomial_slope|].
  intros x Hr Hx. rewrite Hp. unfold getPolynomial.
  rewrite fold_polyAdd_slopeV, slopeV_reactions.
  rewrite (fold_acc (intensity x)) by apply intensity_acc.
  rewrite Forall_forall in Hr.
  rewrite (sumQ_map_eq _ (fun l => intensity x 0 l * (-1))).
  - rewrite (sumQ_map_scale (-1) (intensity x 0)). ring.
  - intros l Hl. rewrite slopeV_load; [ring | apply Hr, Hl | | exact Hx].
    intros p Hp'. apply Hgap. apply (loadPoints_raw params l p Hl Hp').
Qed.

Lemma segment_polynomials_differentiate_witness :
  In (nth 2 mixedSegments noSegment) mixedSegments
  /\ Forall rangeStrict (loadsOf mixedLoads)
  /\ s_xA (nth 2 mixedSegments noSegment) < 5 < s_xB (nth 2 mixedSegments noSegment)
  /\ 3 * m3 (s_poly (nth 2 mixedSegments noSegment))
     == v2 (s_poly (nth 2 mixedSegments noSegment))
  /\ slopeV (s_poly (nth 2 mixedSegments noSegment)) 5
     == - fold_left (intensity 5) (loadsOf mixedLoads) 0.
Proof.
  assert (H1 : In (nth 2 mixedSegments noSegment) mixedSegments)
    by (vm_compute; right; right; left; reflexivity).
  assert (H2 : Forall rangeStrict (loadsOf mixedLoads)) by (repeat constructor).
  assert (H3 : s_xA (nth 2 mixedSegments noSegment) < 5
               < s_xB (nth 2 mixedSegments noSegment))
    by (split; vm_compute; reflexivity).
  split; [exact H1|]. split; [exact H2|]. split; [exact H3|].
  pose proof (segment_polynomials_differentiate mixedLoads (solveReactions mixedLoads) _ H1)
    as W.
  cbv zeta in W. split; [exact (proj1 (proj1 W)) | exact (proj2 W 5 H2 H3)].
Defined.

(** ** Closure of the diagrams *)

(** The reactions balance the loads. *)
Lemma equilibrium_sums (params : SimulationParams) (pivot : Q) :
  beamType params = cantilever \/ supportsApart params ->
  totalForce params (solveReactions params) == 0
  /\ totalMoment params (solveReactions params) pivot == 0.
Proof.
  intro Hcfg. unfold totalForce, totalMoment.
  destruct (loadSums_spec (diagSupA params) (loadsOf params)) as [Hf Hm].
  rewrite (sum_loadMoment_shift (diagSupA params) pivot).
  destruct (solveReactions_sums params) as [Hc Hs].
  destruct (BeamType_eqb (beamType params) cantilever) eqn:E.
  - assert (Hb : beamType params = cantilever)
      by (destruct (beamType params); auto; discriminate).
    destruct (Hc Hb) as (A & B & C). rewrite A, B, C, Hf, Hm.
    unfold diagSupA, diagSupB. rewrite Hb. split; ring.
  - assert (Hb : beamType params <> cantilever) by (intro H; rewrite H in E; discriminate).
    destruct Hcfg as [Hcant|Hap]; [contradiction|].
    destruct (Hs Hb) as (A & B & C). rewrite A, B, C.
    rewrite (effectiveSpan_apart _ _ Hap), Hf, Hm.
    pose proof (supportsApart_ne params Hap) as Hne.
    split; field; exact Hne.
Qed.

(** To the right of all its points a load enters the polynomials as its
    resultant. *)
Lemma loadTerms_beyond (xA xB x : Q) (l : LoadDefinition) :
  momentPlaced l ->
  (forall p, In p (loadPoints l) -> p <= xA) ->
  evalV (loadTerms xA xB l) x == loadForce l
  /\ evalM (loadTerms xA xB l) x == - loadMoment x l.
Proof.
  intros Hm H.
  unfold momentPlaced, loadTerms, loadForce, loadMoment, loadPoints, triangleCentroid in *.
  destruct (l_type l); destruct (l_x l) as [p|]; destruct (l_x1 l) as [x1|];
    destruct (l_x2 l) as [x2|];
    try (exfalso; apply Hm; reflexivity);
    try (rewrite evalV_zero, evalM_zero; split; ring);
    try (assert (E : Qle_bool p xA = true)
           by (apply Qle_bool_iff, H; now left); rewrite E);
    try (assert (E2 : Qle_bool x2 xA = true)
           by (apply Qle_bool_iff, H; right; now left); rewrite E2);
    try destruct (peakRight l);
    unfold evalV, evalM, polyZero; cbn [m3 m2 m1 m0 v2 v1 v0];
    split; try ring; field.
Qed.

Lemma reactionTerms_beyond (params : SimulationParams) (r : Reactions) (xA x : Q) :
  (forall p, In p (rawPoints params) -> p <= xA) ->
  evalV (reactionTerms xA params r) x
    == Ra r + (if isCantilever params then 0 else Rb r)
  /\ evalM (reactionTerms xA params r) x
    == - (Ra r * (diagSupA params - x)
          + (if isCantilever params then Ma r else Rb r * (diagSupB params - x))).
Proof.
  intro H. unfold reactionTerms.
  destruct (isCantilever params) eqn:Ec.
  - unfold evalV, evalM. cbn [m3 m2 m1 m0 v2 v1 v0].
    assert (E : diagSupA params = 0).
    { unfold isCantilever in Ec. unfold diagSupA.
      destruct (beamType params); try discriminate. reflexivity. }
    rewrite E. split; ring.
  - destruct (supports_are_points params Ec) as [HA HB].
    destruct (polySup_diag params Ec) as [EA EB].
    assert (E1 : Qle_bool (polySupA params) xA = true) by (apply Qle_bool_iff, H, HA).
    assert (E2 : Qle_bool (polySupB params) xA = true) by (apply Qle_bool_iff, H, HB).
    rewrite E1, E2, EA, EB.
    unfold evalV, evalM, polyAdd, forceTerms. cbn [m3 m2 m1 m0 v2 v1 v0]. split; ring.
Qed.

(** Beyond every point of the beam the polynomials vanish. *)
Lemma polynomial_beyond (params : SimulationParams) (xA xB x : Q) :
  beamType params = cantilever \/ supportsApart params ->
  Forall momentPlaced (loadsOf params) ->
  (forall p, In p (rawPoints params) -> p <= xA) ->
  evalV (getPolynomial xA xB params (solveReactions params)) x == 0
  /\ evalM (getPolynomial xA xB params (solveReactions params)) x == 0.
Proof.
  intros Hcfg Hpl H. rewrite Forall_forall in Hpl. rewrite getPolynomial_V, getPolynomial_M.
  destruct (reactionTerms_beyond params (solveReactions params) xA x H) as [RV RM].
  rewrite RV, RM.
  rewrite (sumQ_map_eq (fun l => evalV (loadTerms xA xB l) x) loadForce)
    by (intros l Hl; apply loadTerms_beyond; [apply Hpl, Hl|]; intros p Hp;
        apply H, (loadPoints_raw params l p Hl Hp)).
  rewrite (sumQ_map_eq (fun l => evalM (loadTerms xA xB l) x)
                       (fun l => loadMoment x l * (-1)))
    by (intros l Hl; destruct (loadTerms_beyond xA xB x l) as [_ E];
        [apply Hpl, Hl | intros p Hp; apply H, (loadPoints_raw params l p Hl Hp)
        | rewrite E; ring]).
  rewrite (sumQ_map_scale (-1) (loadMoment x)).
  destruct (equilibrium_sums params x Hcfg) as [HF HM].
  unfold totalForce, totalMoment in HF, HM.
  destruct (solveReactions_sums params) as [Hc Hs].
  destruct (isCantilever params) eqn:Ec.
  - assert (Hb : beamType params = cantilever).
    { unfold isCantilever in Ec. destruct (beamType params); auto; discriminate. }
    destruct (Hc Hb) as (_ & B & _). rewrite B in HF, HM.
    assert (E : diagSupB params = 0) by (unfold diagSupB; rewrite Hb; reflexivity).
    split; Lqa.lra.
  - assert (Hb : beamType params <> cantilever).
    { unfold isCantilever in Ec. intro Hb. rewrite Hb in Ec. discriminate. }
    destruct (Hs Hb) as (_ & _ & C). rewrite C in HM. split; Lqa.lra.
Qed.

(** X16. The diagrams close at the right end of the beam: with the
    supports apart (or a cantilever), every load range ordered, every
    applied moment placed and no point beyond the end, the polynomials of
    the last segment arrive at the end with exactly what the point
    actions there take away: the shear is minus the shear jump at the
    end, the moment minus the moment jump, hence zero where no moment is
    applied at the end. *)
Theorem diagrams_close_at_right_end (params : SimulationParams) (s : StepResult) :
  beamType params = cantilever \/ supportsApart params ->
  Forall rangeOrdered (loadsOf params) ->
  Forall momentPlaced (loadsOf params) ->
  (forall p, In p (rawPoints params) -> p <= length params) ->
  let r := solveReactions params in
  In s (generateDetailedSteps params r) ->
  s_xB s == length params ->
  evalV (s_poly s) (s_xB s) == - shearJumpAt params r (s_xB s)
  /\ evalM (s_poly s) (s_xB s) == - momentJumpAt params (s_xB s)
  /\ (noMomentAt params (s_xB s) -> evalM (s_poly s) (s_xB s) == 0).
Proof.
  intros Hcfg Hord Hpl Hpts r Hs HL.
  destruct (segment_facts params r s Hs) as (Hp & Hlen & _ & _ & Hg).
  set (xA := s_xA s) in *. set (b := s_xB s) in *.
  assert (HA : xA < b) by Lqa.lra. assert (HC : b < b + 1) by Lqa.lra.
  assert (Hb : b == b) by reflexivity.
  assert (Hright : forall p, In p (rawPoints params) -> p <= b).
  { intros p Hin. rewrite HL. apply Hpts, Hin. }
  destruct (reactionTerms_jump params r xA b b Hb HA Hg) as [HRV HRM].
  assert (Hloads : forall l, In l (loadsOf params) ->
            evalV (loadTerms b (b + 1) l) b - evalV (loadTerms xA b l) b == loadJumpV b l
            /\ evalM (loadTerms b (b + 1) l) b - evalM (loadTerms xA b l) b == loadJumpM b l).
  { intros l Hl. apply loadTerms_jump; try assumption.
    - rewrite Forall_forall in Hord. apply Hord, Hl.
    - intros p Hin. pose proof (loadPoints_raw params l p Hl Hin) as Hraw.
      split; [apply Hg, Hraw | left; apply Hright, Hraw]. }
  destruct (polynomial_beyond params b (b + 1) b Hcfg Hpl Hright) as [ZV ZM].
  fold r in ZV, ZM. rewrite getPolynomial_V in ZV. rewrite getPolynomial_M in ZM.
  assert (EV : evalV (s_poly s) b == - shearJumpAt params r b).
  { rewrite Hp, getPolynomial_V. unfold shearJumpAt.
    rewrite <- (sumQ_map_sub (fun l => evalV (loadTerms b (b + 1) l) b)
                             (fun l => evalV (loadTerms xA b l) b) (loadJumpV b))
      by (intros l Hl; apply (Hloads l Hl)).
    rewrite <- HRV. Lqa.lra. }
  assert (EM : evalM (s_poly s) b == - momentJumpAt params b).
  { rewrite Hp, getPolynomial_M. unfold momentJumpAt.
    rewrite <- (sumQ_map_sub (fun l => evalM (loadTerms b (b + 1) l) b)
                             (fun l => evalM (loadTerms xA b l) b) (loadJumpM b))
      by (intros l Hl; apply (Hloads l Hl)).
    Lqa.lra. }
  split; [exact EV|]. split; [exact EM|].
  intro Hno. rewrite EM, (sumQ_loadJumpM_zero params b Hno). reflexivity.
Qed.

Lemma diagrams_close_at_right_end_witness :
  (beamType defaultParams = cantilever \/ supportsApart defaultParams)
  /\ Forall rangeOrdered (loadsOf defaultParams)
  /\ Forall momentPlaced (loadsOf defaultParams)
  /\ (forall p, In p (rawPoints defaultParams) -> p <= length defaultParams)
  /\ In (nth 1 defaultSegments noSegment) defaultSegments
  /\ s_xB (nth 1 defaultSegments noSegment) == length defaultParams
  /\ evalM (s_poly (nth 1 defaultSegments noSegment)) (s_xB (nth 1 defaultSegments noSegment))
     == - momentJumpAt defaultParams (s_xB (nth 1 defaultSegments noSegment)).
Proof.
  assert (H1 : beamType defaultParams = cantilever \/ supportsApart defaultParams).
  { right. vm_compute. discriminate. }
  assert (H2 : Forall rangeOrdered (loadsOf defaultParams)) by (repeat constructor).
  assert (H2' : Forall momentPlaced (loadsOf defaultParams))
    by (repeat constructor; discriminate).
  assert (H3 : forall p, In p (rawPoints defaultParams) -> p <= length defaultParams).
  { intros p Hp. vm_compute in Hp.
    repeat (destruct Hp as [<-|Hp]; [vm_compute; discriminate|]). destruct Hp. }
  assert (H4 : In (nth 1 defaultSegments noSegment) defaultSegments)
    by (vm_compute; right; left; reflexivity).
  assert (H5 : s_xB (nth 1 defaultSegments noSegment) == length defaultParams)
    by (vm_compute; reflexivity).
  split; [exact H1|]. split; [exact H2|]. split; [exact H2'|]. split; [exact H3|].
  split; [exact H4|]. split; [exact H5|].
  pose proof (diagrams_close_at_right_end defaultParams _ H1 H2 H2' H3 H4 H5) as W.
  exact (proj1 (proj2 W)).
Defined.

(** ** The direction of the base load *)

Lemma Qabs_opp_eq (x : Q) : Qabs (- x) = Qabs x.
Proof. destruct x as [n d]. unfold Qabs, Qopp. cbn. f_equal. apply Z.abs_opp. Qed.

(** X17. The diagram solver ignores the direction of the base load: it
    takes [|force|], so reversing the force changes neither the arrays
    and reactions of [calculateAnalyticalDiagrams] nor the segments of
    [generateDetailedSteps]. *)
Theorem diagrams_ignore_force_direction (params : SimulationParams) (r : Reactions) :
  let q := spread params (set_force (- force params)) in
  calculateAnalyticalDiagrams q = calculateAnalyticalDiagrams params
  /\ generateDetailedSteps q r = generateDetailedSteps params r.
Proof.
  intro q.
  assert (Hl : loadsOf q = loadsOf params).
  { unfold loadsOf, defaultLoad. change (customLoads q) with (customLoads params).
    change (force q) with (- force params).
    change (loadPosition q) with (loadPosition params).
    unfold Math_abs. rewrite Qabs_opp_eq. reflexivity. }
  assert (Hr : solveReactions q = solveReactions params).
  { unfold solveReactions. rewrite Hl. reflexivity. }
  split.
  - unfold calculateAnalyticalDiagrams. rewrite Hl, Hr.
    change (stepSize q) with (stepSize params).
    rewrite (sweep_ext (sweepStep q (solveReactions params) (loadsOf params) (stepSize params))
                       (sweepStep params (solveReactions params) (loadsOf params)
                                  (stepSize params))) by reflexivity.
    reflexivity.
  - unfold generateDetailedSteps, breakpoints, rawPoints. rewrite Hl.
    change (length q) with (length params). change (beamType q) with (beamType params).
    change (supportA q) with (supportA params). change (supportB q) with (supportB params).
    generalize (sortQ (uniqueQ ([0; length params] ++
      match beamType params with
      | overhanging => [supportA params; supportB params]
      | _ => []
      end ++ flat_map loadPoints (loadsOf params)))).
    intro pts. induction pts as [|xA [|xB rest] IH]; try reflexivity.
    rewrite !segmentsOf_cons, IH. unfold getPolynomial. rewrite Hl. reflexivity.
Qed.

(** ** Load records without a position *)

Lemma fold_left_skip {A B : Type} (f : A -> B -> A) (l : B) (before after : list B) (a : A) :
  (forall a, f a l = a) ->
  fold_left f (before ++ l :: after) a = fold_left f (before ++ after) a.
Proof.
  intro H. rewrite !fold_left_app. cbn [fold_left]. rewrite H. reflexivity.
Qed.

Lemma polyAdd_zero (c : PolyCoeffs) : polyAdd c polyZero = c.
Proof.
  destruct c as [a3 a2 a1 a0 b2 b1 b0]. unfold polyAdd, polyZero. cbn [m3 m2 m1 m0 v2 v1 v0].
  rewrite !Qplus_zero_r_eq. reflexivity.
Qed.

Lemma loadsOf_custom (params : SimulationParams) (ls : list LoadDefinition) :
  ls <> [] -> loadsOf (spread params (set_customLoads ls)) = ls.
Proof. intro H. unfold loadsOf. cbn [customLoads spread]. destruct ls; congruence. Qed.

Lemma unplaced_effect (l : LoadDefinition) :
  unplaced l ->
  (forall s acc, accumLoad s acc l = acc)
  /\ (forall x dx V, pointShear x dx V l = V)
  /\ (forall x q, intensity x q l = q)
  /\ (forall x dx Mo, pointMoment x dx Mo l = Mo)
  /\ (forall xA xB, loadTerms xA xB l = polyZero)
  /\ loadPoints l = [].
Proof.
  unfold unplaced, accumLoad, pointShear, intensity, pointMoment, loadTerms, loadPoints.
  intro H.
  destruct (l_type l); destruct (l_x l); destruct (l_x1 l); destruct (l_x2 l);
    try discriminate; try contradiction; try (destruct H; discriminate);
    repeat split; intros; try reflexivity;
    try match goal with acc : (Q * Q)%type |- _ => destruct acc; reflexivity end;
    match goal with |- context [if ?c then _ else _] => destruct c; reflexivity end.
Qed.

Lemma sweepStep_ext (params : SimulationParams) (ls1 ls0 : list LoadDefinition)
    (r : Reactions) (dx : Q) (st : Q * Q) (i : nat) :
  (forall x dx V, fold_left (pointShear x dx) ls1 V = fold_left (pointShear x dx) ls0 V) ->
  (forall x q, fold_left (intensity x) ls1 q = fold_left (intensity x) ls0 q) ->
  (forall x dx Mo, fold_left (pointMoment x dx) ls1 Mo = fold_left (pointMoment x dx) ls0 Mo) ->
  sweepStep (spread params (set_customLoads ls1)) r ls1 dx st i
  = sweepStep (spread params (set_customLoads ls0)) r ls0 dx st i.
Proof.
  intros Hps Hint Hpm. destruct st as [V Mo]. unfold sweepStep.
  set (p1 := spread params (set_customLoads ls1)).
  set (p0 := spread params (set_customLoads ls0)).
  change (diagSupA p1) with (diagSupA p0). change (diagSupB p1) with (diagSupB p0).
  change (isCantilever p1) with (isCantilever p0).
  rewrite Hps, Hint, Hpm. reflexivity.
Qed.

Lemma steps_ext (params : SimulationParams) (ls1 ls0 : list LoadDefinition)
    (r : Reactions) :
  ls1 <> [] -> ls0 <> [] ->
  (forall xA xB c, fold_left (fun c l => polyAdd c (loadTerms xA xB l)) ls1 c
                   = fold_left (fun c l => polyAdd c (loadTerms xA xB l)) ls0 c) ->
  flat_map loadPoints ls1 = flat_map loadPoints ls0 ->
  generateDetailedSteps (spread params (set_customLoads ls1)) r
  = generateDetailedSteps (spread params (set_customLoads ls0)) r.
Proof.
  intros N1 N0 Hpoly Hpts.
  set (p1 := spread params (set_customLoads ls1)).
  set (p0 := spread params (set_customLoads ls0)).
  pose proof (loadsOf_custom params ls1 N1) as L1. fold p1 in L1.
  pose proof (loadsOf_custom params ls0 N0) as L0. fold p0 in L0.
  unfold generateDetailedSteps, breakpoints, rawPoints. rewrite L1, L0, Hpts.
  change (length p1) with (length p0). change (beamType p1) with (beamType p0).
  change (supportA p1) with (supportA p0). change (supportB p1) with (supportB p0).
  generalize (sortQ (uniqueQ ([0; length p0] ++
    match beamType p0 with
    | overhanging => [supportA p0; supportB p0]
    | _ => []
    end ++ flat_map loadPoints ls0))).
  intro pts. induction pts as [|xA [|xB rest] IH]; try reflexivity.
  rewrite !segmentsOf_cons, IH. unfold getPolynomial. rewrite L1, L0, Hpoly.
  reflexivity.
Qed.

Lemma analysis_ext (params : SimulationParams) (ls1 ls0 : list LoadDefinition)
    (r : Reactions) :
  ls1 <> [] -> ls0 <> [] ->
  (forall s, loadSums s ls1 = loadSums s ls0) ->
  (forall x dx V, fold_left (pointShear x dx) ls1 V = fold_left (pointShear x dx) ls0 V) ->
  (forall x q, fold_left (intensity x) ls1 q = fold_left (intensity x) ls0 q) ->
  (forall x dx Mo, fold_left (pointMoment x dx) ls1 Mo = fold_left (pointMoment x dx) ls0 Mo) ->
  (forall xA xB c, fold_left (fun c l => polyAdd c (loadTerms xA xB l)) ls1 c
                   = fold_left (fun c l => polyAdd c (loadTerms xA xB l)) ls0 c) ->
  flat_map loadPoints ls1 = flat_map loadPoints ls0 ->
  let p1 := spread params (set_customLoads ls1) in
  let p0 := spread params (set_customLoads ls0) in
  calculateAnalyticalDiagrams p1 = calculateAnalyticalDiagrams p0
  /\ generateDetailedSteps p1 r = generateDetailedSteps p0 r.
Proof.
  intros N1 N0 Hsum Hps Hint Hpm Hpoly Hpts p1 p0.
  pose proof (loadsOf_custom params ls1 N1) as L1. fold p1 in L1.
  pose proof (loadsOf_custom params ls0 N0) as L0. fold p0 in L0.
  assert (Hr : solveReactions p1 = solveReactions p0).
  { unfold solveReactions. rewrite L1, L0.
    change (diagSupA p1) with (diagSupA p0). change (diagSupB p1) with (diagSupB p0).
    rewrite Hsum. reflexivity. }
  split.
  - unfold calculateAnalyticalDiagrams. rewrite Hr, L1, L0.
    change (stepSize p1) with (stepSize p0).
    rewrite (sweep_ext (sweepStep p1 (solveReactions p0) ls1 (stepSize p0))
                       (sweepStep p0 (solveReactions p0) ls0 (stepSize p0))); [reflexivity|].
    intros st i. apply sweepStep_ext; assumption.
  - apply steps_ext; assumption.
Qed.

Lemma app_cons_nonempty {A : Type} (before after : list A) (l : A) :
  before ++ l :: after <> [].
Proof. destruct before; discriminate. Qed.

(** X18. A point, uniform or triangular load whose record lacks a
    position it needs is ignored everywhere: inserted at any place of a
    non-empty custom load list it leaves the reactions, the sweep arrays
    and the step list as they are. *)
Theorem unplaced_loads_are_ignored (params : SimulationParams) (l : LoadDefinition)
    (before after : list LoadDefinition) (r : Reactions) :
  unplaced l ->
  before ++ after <> [] ->
  let p1 := spread params (set_customLoads (before ++ l :: after)) in
  let p0 := spread params (set_customLoads (before ++ after)) in
  calculateAnalyticalDiagrams p1 = calculateAnalyticalDiagrams p0
  /\ generateDetailedSteps p1 r = generateDetailedSteps p0 r.
Proof.
  intros Hu Hne.
  destruct (unplaced_effect l Hu) as (H1 & H2 & H3 & H4 & H5 & H6).
  apply analysis_ext; [apply app_cons_nonempty | exact Hne | ..].
  - intro s. unfold loadSums. apply fold_left_skip. apply H1.
  - intros x dx V. apply fold_left_skip. intro a. apply H2.
  - intros x q. apply fold_left_skip. intro a. apply H3.
  - intros x dx Mo. apply fold_left_skip. intro a. apply H4.
  - intros xA xB c. apply fold_left_skip. intro a. rewrite H5. apply polyAdd_zero.
  - rewrite !flat_map_app. cbn [flat_map]. rewrite H6. reflexivity.
Qed.

Lemma unplaced_loads_are_ignored_witness :
  unplaced strayLoad
  /\ customLoads mixedLoads ++ [] <> []
  /\ generateDetailedSteps
       (spread defaultParams (set_customLoads (customLoads mixedLoads ++ strayLoad :: [])))
       (solveReactions mixedLoads)
     = generateDetailedSteps
         (spread defaultParams (set_customLoads (customLoads mixedLoads ++ [])))
         (solveReactions mixedLoads).
Proof.
  assert (H1 : unplaced strayLoad) by reflexivity.
  assert (H2 : customLoads mixedLoads ++ [] <> []) by discriminate.
  split; [exact H1|]. split; [exact H2|].
  pose proof (unplaced_loads_are_ignored defaultParams strayLoad (customLoads mixedLoads) []
                (solveReactions mixedLoads) H1 H2) as W.
  cbv zeta in W. exact (proj2 W).
Defined.

Lemma sumQ_app (l1 l2 : list Q) : sumQ (l1 ++ l2) == sumQ l1 + sumQ l2.
Proof.
  unfold sumQ. induction l1 as [|a l1 IH]; cbn [app fold_right].
  - ring.
  - rewrite IH. ring.
Qed.

Lemma loadSums_app (s : Q) (ls1 ls2 : list LoadDefinition) :
  fst (loadSums s (ls1 ++ ls2)) == fst (loadSums s ls1) + fst (loadSums s ls2)
  /\ snd (loadSums s (ls1 ++ ls2)) == snd (loadSums s ls1) + snd (loadSums s ls2).
Proof.
  destruct (loadSums_spec s (ls1 ++ ls2)) as [F M].
  destruct (loadSums_spec s ls1) as [F1 M1]. destruct (loadSums_spec s ls2) as [F2 M2].
  rewrite F, M, F1, M1, F2, M2, !map_app, !sumQ_app. split; reflexivity.
Qed.

Lemma loadSums_insert (s : Q) (l : LoadDefinition) (before after : list LoadDefinition) :
  fst (loadSums s (before ++ l :: after))
    == fst (loadSums s (before ++ after)) + loadForce l
  /\ snd (loadSums s (before ++ l :: after))
    == snd (loadSums s (before ++ after)) + loadMoment s l.
Proof.
  destruct (loadSums_spec s (before ++ l :: after)) as [F M].
  destruct (loadSums_spec s (before ++ after)) as [F0 M0].
  rewrite F, M, F0, M0, !map_app, !sumQ_app. cbn [map sumQ fold_right].
  fold (sumQ (map loadForce after)). fold (sumQ (map (loadMoment s) after)).
  split; ring.
Qed.

(** X19. An applied moment whose record carries no position is not
    ignored by the reactions: inserted into a non-empty custom load list
    it lowers the wall moment of a cantilever by [val], and on a
    two-support beam it moves [val / span] from [Rb] to [Ra]; the step
    list and every step of the sweep leave it out. *)
Theorem unplaced_moment_shifts_reactions (params : SimulationParams) (l : LoadDefinition)
    (before after : list LoadDefinition) (r : Reactions) :
  l_type l = M -> l_x l = None ->
  before ++ after <> [] ->
  let p1 := spread params (set_customLoads (before ++ l :: after)) in
  let p0 := spread params (set_customLoads (before ++ after)) in
  let span := effectiveSpan (diagSupA params) (diagSupB params) in
  (beamType params = cantilever ->
     Ra (solveReactions p1) == Ra (solveReactions p0)
     /\ Ma (solveReactions p1) == Ma (solveReactions p0) - l_val l)
  /\ (beamType params <> cantilever ->
     Ra (solveReactions p1) == Ra (solveReactions p0) + l_val l / span
     /\ Rb (solveReactions p1) == Rb (solveReactions p0) - l_val l / span)
  /\ generateDetailedSteps p1 r = generateDetailedSteps p0 r
  /\ (forall dx st i, sweepStep p1 r (loadsOf p1) dx st i
                      = sweepStep p0 r (loadsOf p0) dx st i).
Proof.
  intros Ht Hx Hne p1 p0 span.
  pose proof (app_cons_nonempty before after l) as N1.
  assert (Hps : forall x dx V, pointShear x dx V l = V).
  { intros. unfold pointShear. rewrite Ht. reflexivity. }
  assert (Hint : forall x q, intensity x q l = q).
  { intros. unfold intensity. rewrite Ht.
    destruct (l_x1 l); destruct (l_x2 l); try reflexivity.
    match goal with |- context [if ?c then _ else _] => destruct c; reflexivity end. }
  assert (Hpm : forall x dx Mo, pointMoment x dx Mo l = Mo).
  { intros. unfold pointMoment. rewrite Ht, Hx. reflexivity. }
  assert (Hlt : forall xA xB, loadTerms xA xB l = polyZero).
  { intros. unfold loadTerms. rewrite Ht, Hx. reflexivity. }
  assert (Hlp : loadPoints l = []).
  { unfold loadPoints. rewrite Ht, Hx. reflexivity. }
  pose proof (solveReactions_sums p1) as [Hc1 Hs1].
  pose proof (solveReactions_sums p0) as [Hc0 Hs0].
  change (diagSupA p1) with (diagSupA params) in *.
  change (diagSupB p1) with (diagSupB params) in *.
  change (diagSupA p0) with (diagSupA params) in *.
  change (diagSupB p0) with (diagSupB params) in *.
  change (beamType p1) with (beamType params) in *.
  change (beamType p0) with (beamType params) in *.
  fold span in Hs1, Hs0.
  pose proof (loadsOf_custom params _ N1) as L1. fold p1 in L1.
  pose proof (loadsOf_custom params _ Hne) as L0. fold p0 in L0.
  rewrite L1 in Hc1, Hs1. rewrite L0 in Hc0, Hs0.
  destruct (loadSums_insert (diagSupA params) l before after) as [F Mo].
  assert (HF : loadForce l == 0) by (unfold loadForce; rewrite Ht; reflexivity).
  assert (HM : loadMoment (diagSupA params) l == l_val l)
    by (unfold loadMoment; rewrite Ht; reflexivity).
  rewrite HF in F. rewrite HM in Mo.
  split; [|split; [|split]].
  - intro Hb. destruct (Hc1 Hb) as (A1 & _ & C1). destruct (Hc0 Hb) as (A0 & _ & C0).
    rewrite A1, C1, A0, C0, F, Mo. split; ring.
  - intro Hb. destruct (Hs1 Hb) as (A1 & B1 & _). destruct (Hs0 Hb) as (A0 & B0 & _).
    rewrite A1, B1, A0, B0, F, Mo. split; unfold Qdiv; ring.
  - apply steps_ext; [exact N1 | exact Hne | |].
    + intros xA xB c. apply fold_left_skip. intro a. rewrite Hlt. apply polyAdd_zero.
    + rewrite !flat_map_app. cbn [flat_map]. rewrite Hlp. reflexivity.
  - intros dx st i. rewrite L1, L0. apply sweepStep_ext.
    + intros x dx' V. apply fold_left_skip. intro a. apply Hps.
    + intros x q. apply fold_left_skip. intro a. apply Hint.
    + intros x dx' Mo'. apply fold_left_skip. intro a. apply Hpm.
Qed.

Lemma unplaced_moment_shifts_reactions_witness :
  l_type strayMoment = M /\ l_x strayMoment = None
  /\ customLoads mixedLoads ++ [] <> []
  /\ beamType defaultParams <> cantilever
  /\ Rb (solveReactions
           (spread defaultParams
              (set_customLoads (customLoads mixedLoads ++ strayMoment :: []))))
     == Rb (solveReactions
              (spread defaultParams (set_customLoads (customLoads mixedLoads ++ []))))
        - l_val strayMoment
          / effectiveSpan (diagSupA defaultParams) (diagSupB defaultParams).
Proof.
  assert (H1 : l_type strayMoment = M) by reflexivity.
  assert (H2 : l_x strayMoment = None) by reflexivity.
  assert (H3 : customLoads mixedLoads ++ [] <> []) by discriminate.
  assert (H4 : beamType defaultParams <> cantilever) by discriminate.
  split; [exact H1|]. split; [exact H2|]. split; [exact H3|]. split; [exact H4|].
  pose proof (unplaced_moment_shifts_reactions defaultParams strayMoment
                (customLoads mixedLoads) [] (solveReactions mixedLoads) H1 H2 H3) as W.
  cbv zeta in W. exact (proj2 (proj1 (proj2 W) H4)).
Defined.

(** ** Superposition *)

(** X20. The reactions superpose: for two non-empty custom load lists
    the reactions of the concatenated list are the sums of the reactions
    of the two lists. *)
Theorem reactions_superpose (params : SimulationParams) (ls1 ls2 : list LoadDefinition) :
  ls1 <> [] -> ls2 <> [] ->
  let solve := fun ls => solveReactions (spread params (set_customLoads ls)) in
  Ra (solve (ls1 ++ ls2)) == Ra (solve ls1) + Ra (solve ls2)
  /\ Rb (solve (ls1 ++ ls2)) == Rb (solve ls1) + Rb (solve ls2)
  /\ Ma (solve (ls1 ++ ls2)) == Ma (solve ls1) + Ma (solve ls2).
Proof.
  intros N1 N2 solve. subst solve. cbv beta.
  assert (N : ls1 ++ ls2 <> []) by (destruct ls1; [congruence | discriminate]).
  set (p := spread params (set_customLoads (ls1 ++ ls2))).
  set (p1 := spread params (set_customLoads ls1)).
  set (p2 := spread params (set_customLoads ls2)).
  pose proof (solveReactions_sums p) as [Hc Hs].
  pose proof (solveReactions_sums p1) as [Hc1 Hs1].
  pose proof (solveReactions_sums p2) as [Hc2 Hs2].
  change (diagSupA p) with (diagSupA params) in *. change (diagSupB p) with (diagSupB params) in *.
  change (diagSupA p1) with (diagSupA params) in *. change (diagSupB p1) with (diagSupB params) in *.
  change (diagSupA p2) with (diagSupA params) in *. change (diagSupB p2) with (diagSupB params) in *.
  change (beamType p) with (beamType params) in *.
  change (beamType p1) with (beamType params) in *.
  change (beamType p2) with (beamType params) in *.
  unfold p, p1, p2 in Hc, Hs, Hc1, Hs1, Hc2, Hs2. 
  rewrite (loadsOf_custom params _ N) in Hc, Hs.
  rewrite (loadsOf_custom params _ N1) in Hc1, Hs1.
  rewrite (loadsOf_custom params _ N2) in Hc2, Hs2.
  fold p p1 p2 in Hc, Hs, Hc1, Hs1, Hc2, Hs2.
  destruct (loadSums_app (diagSupA params) ls1 ls2) as [F M].
  destruct (BeamType_eqb (beamType params) cantilever) eqn:E.
  - assert (Hb : beamType params = cantilever) by (destruct (beamType params); auto; discriminate).
    destruct (Hc Hb) as (A & B & C). destruct (Hc1 Hb) as (A1 & B1 & C1).
    destruct (Hc2 Hb) as (A2 & B2 & C2).
    rewrite A, B, C, A1, B1, C1, A2, B2, C2, F, M. split; [|split]; ring.
  - assert (Hb : beamType params <> cantilever) by (intro H; rewrite H in E; discriminate).
    destruct (Hs Hb) as (A & B & C). destruct (Hs1 Hb) as (A1 & B1 & C1).
    destruct (Hs2 Hb) as (A2 & B2 & C2).
    rewrite A, B, C, A1, B1, C1, A2, B2, C2, F, M. split; [|split]; unfold Qdiv; ring.
Qed.

Lemma reactions_superpose_witness :
  customLoads mixedLoads <> [] /\ [defaultLoad defaultParams] <> []
  /\ Ra (solveReactions
           (spread defaultParams
              (set_customLoads (customLoads mixedLoads ++ [defaultLoad defaultParams]))))
     == Ra (solveReactions (spread defaultParams (set_customLoads (customLoads mixedLoads))))
        + Ra (solveReactions
                (spread defaultParams (set_customLoads [defaultLoad defaultParams]))).
Proof.
  assert (H1 : customLoads mixedLoads <> []) by discriminate.
  assert (H2 : [defaultLoad defaultParams] <> []) by discriminate.
  split; [exact H1|]. split; [exact H2|].
  pose proof (reactions_superpose defaultParams (customLoads mixedLoads)
                [defaultLoad defaultParams] H1 H2) as W.
  cbv zeta beta in W. exact (proj1 W).
Defined.

(** ** The two solvers against each other *)

(** X21. For the base load on a simply supported beam, pointing down and
    placed on the beam, the two solvers compute the same bending moment
    with opposite signs: on every segment of the step list the moment
    polynomial of the diagram solver is minus the moment [M] of the field
    solver. *)
Theorem field_moment_matches_diagram (params : SimulationParams) (s : StepResult) (x : Q) :
  beamType params = simplySupported ->
  customLoads params = [] ->
  force params <= 0 ->
  (1 # 1000000) <= length params ->
  0 <= loadPosition params <= length params ->
  In s (generateDetailedSteps params (solveReactions params)) ->
  s_xA s <= x <= s_xB s ->
  evalM (s_poly s) x == - f_M (nodeField params x).
Proof.
  intros Hb Hc HP HL Ha Hs Hx.
  destruct (segment_facts params _ s Hs) as (Hp & Hlen & HA & HB & Hgap).
  assert (Hl : loadsOf params = [defaultLoad params]) by (unfold loadsOf; rewrite Hc; reflexivity).
  assert (Hraw : forall p, In p (rawPoints params) ->
                 p = 0 \/ p = length params \/ p = loadPosition params).
  { intros p Hin. unfold rawPoints in Hin. rewrite Hb, Hl in Hin.
    cbn in Hin. intuition. }
  assert (Hin_a : In (loadPosition params) (rawPoints params)).
  { unfold rawPoints. rewrite Hb, Hl. cbn. auto. }
  assert (HA0 : 0 <= s_xA s).
  { destruct (Hraw _ HA) as [E|[E|E]]; rewrite E; Lqa.lra. }
  assert (HBL : s_xB s <= length params).
  { destruct (Hraw _ HB) as [E|[E|E]]; rewrite E; Lqa.lra. }
  rewrite Hp, getPolynomial_M, Hl. cbn [map sumQ fold_right].
  pose proof (solveReactions_sums params) as [_ Hsup].
  destruct Hsup as (ERa & _ & _); [congruence|].
  rewrite default_sums in ERa by exact Hc. cbn [fst snd] in ERa.
  unfold diagSupA, diagSupB in ERa. rewrite Hb in ERa.
  rewrite effectiveSpan_apart in ERa by (rewrite Qabs_pos; Lqa.lra).
  assert (Eabs : Math_abs (force params) == - force params).
  { unfold Math_abs. apply Qabs_neg. exact HP. }
  rewrite Eabs in ERa.
  unfold reactionTerms, isCantilever, polySupA, polySupB. rewrite Hb. cbn [BeamType_eqb].
  assert (E0 : Qle_bool 0 (s_xA s) = true) by (apply Qle_bool_iff; exact HA0).
  assert (E1 : Qle_bool (length params) (s_xA s) = false).
  { apply Qle_bool_false. Lqa.lra. }
  rewrite E0, E1.
  unfold loadTerms, defaultLoad. cbn [l_type l_x l_val].
  pose proof (safeA_inside params Ha) as Hsafe.
  unfold nodeField. rewrite Hb.
  set (L := length params) in *. set (a := loadPosition params) in *.
  assert (HL0 : ~ L == 0) by Lqa.lra.
  destruct (Hgap a Hin_a) as [G|G].
  - assert (Ea : Qle_bool a (s_xA s) = true) by (apply Qle_bool_iff; exact G).
    rewrite Ea. unfold evalM, polyAdd, forceTerms, polyZero. cbn [m3 m2 m1 m0].
    rewrite ERa, Eabs.
    destruct (Qle_bool x (safeA params)) eqn:E; field_flags; cbn [f_M]; rewrite Hsafe in *.
    + assert (Exa : x == a) by Lqa.lra. rewrite Exa. field. exact HL0.
    + field. exact HL0.
  - assert (Ea : Qle_bool a (s_xA s) = false) by (apply Qle_bool_false; Lqa.lra).
    rewrite Ea. unfold evalM, polyAdd, forceTerms, polyZero. cbn [m3 m2 m1 m0].
    rewrite ERa.
    destruct (Qle_bool x (safeA params)) eqn:E; field_flags; cbn [f_M]; rewrite Hsafe in *.
    + field. exact HL0.
    + exfalso. Lqa.lra.
Qed.

Lemma field_moment_matches_diagram_witness :
  beamType defaultParams = simplySupported
  /\ customLoads defaultParams = []
  /\ force defaultParams <= 0
  /\ (1 # 1000000) <= length defaultParams
  /\ 0 <= loadPosition defaultParams <= length defaultParams
  /\ In (nth 0 defaultSegments noSegment) defaultSegments
  /\ s_xA (nth 0 defaultSegments noSegment) <= 2 <= s_xB (nth 0 defaultSegments noSegment)
  /\ evalM (s_poly (nth 0 defaultSegments noSegment)) 2
     == - f_M (nodeField defaultParams 2).
Proof.
  assert (H1 : beamType defaultParams = simplySupported) by reflexivity.
  assert (H2 : customLoads defaultParams = []) by reflexivity.
  assert (H3 : force defaultParams <= 0) by (vm_compute; discriminate).
  assert (H4 : (1 # 1000000) <= length defaultParams) by (vm_compute; discriminate).
  assert (H5 : 0 <= loadPosition defaultParams <= length defaultParams)
    by (split; vm_compute; discriminate).
  assert (H6 : In (nth 0 defaultSegments noSegment) defaultSegments)
    by (vm_compute; left; reflexivity).
  assert (H7 : s_xA (nth 0 defaultSegments noSegment) <= 2
               <= s_xB (nth 0 defaultSegments noSegment))
    by (split; vm_compute; discriminate).
  split; [exact H1|]. split; [exact H2|]. split; [exact H3|]. split; [exact H4|].
  split; [exact H5|]. split; [exact H6|]. split; [exact H7|].
  exact (field_moment_matches_diagram defaultParams _ 2 H1 H2 H3 H4 H5 H6 H7).
Defined.

(** ** The load manager *)

Lemma filter_keep_all {A : Type} (f : A -> bool) (l : list A) :
  (forall a, In a l -> f a = true) -> filter f l = l.
Proof.
  induction l as [|a l IH]; intro H; cbn [filter]; [reflexivity|].
  rewrite (H a) by now left. f_equal. apply IH. intros; apply H; now right.
Qed.

(** X22. The load manager round trip: removing a load that has just been
    added, under an id no other custom load carries, gives back the
    parameters as they were.  While the added load is there the analysed
    load list is the custom list ending with it, without the base load;
    and when the custom list was empty before, the base load is back
    after the removal. *)
Theorem removeLoad_undoes_addLoad (params : SimulationParams) (id : nat)
    (type : LoadType) (val x x2 : Q) (peak : PeakSide) :
  (forall l, In l (customLoads params) -> l_id l <> id) ->
  let added := addLoad params id type val x x2 peak in
  removeLoad added id = params
  /\ loadsOf added
     = customLoads params ++ [mkLoad id type val (Some x) (Some x) (Some x2) (Some peak)]
  /\ (customLoads params = [] -> loadsOf (removeLoad added id) = [defaultLoad params]).
Proof.
  intros Hfresh added.
  assert (Hrm : removeLoad added id = params).
  { unfold removeLoad, added, addLoad. cbn [customLoads spread].
    rewrite filter_app. cbn [filter l_id]. rewrite Nat.eqb_refl. cbn [negb].
    rewrite app_nil_r, filter_keep_all.
    - destruct params. reflexivity.
    - intros l Hl. apply negb_true_iff, Nat.eqb_neq, Hfresh, Hl. }
  split; [exact Hrm|]. split.
  - unfold added, addLoad, loadsOf. cbn [customLoads spread].
    destruct (customLoads params); reflexivity.
  - intro Hc. rewrite Hrm. unfold loadsOf. rewrite Hc. reflexivity.
Qed.

Lemma removeLoad_undoes_addLoad_witness :
  (forall l, In l (customLoads mixedLoads) -> l_id l <> 9%nat)
  /\ removeLoad (addLoad mixedLoads 9 U 250 1 3 peak_right) 9 = mixedLoads.
Proof.
  assert (H1 : forall l, In l (customLoads mixedLoads) -> l_id l <> 9%nat).
  { intros l Hl. cbn in Hl. destruct Hl as [<-|[<-|[<-|[<-|[]]]]]; cbn; lia. }
  split; [exact H1|].
  pose proof (removeLoad_undoes_addLoad mixedLoads 9 U 250 1 3 peak_right H1) as W.
  cbv zeta in W. exact (proj1 W).
Defined.

(** ** The scaling of the graphs *)

Lemma graphMaxVal_ge (data : list Q) :
  (1 # 10) <= graphMaxVal data /\ forall v, In v data -> Qabs v <= graphMaxVal data.
Proof.
  induction data as [|w data [IH1 IH2]]; cbn [graphMaxVal fold_right].
  - split; [Lqa.lra | intros v []].
  - fold (graphMaxVal data). unfold Math_max, Math_abs.
    pose proof (Q.le_max_l (Qabs w) (graphMaxVal data)) as Hl.
    pose proof (Q.le_max_r (Qabs w) (graphMaxVal data)) as Hr.
    split; [Lqa.lra|]. intros v [<-|Hv]; [exact Hl|].
    pose proof (IH2 v Hv). Lqa.lra.
Qed.

(** X23. [drawGraph] keeps a record of at least two values inside its
    frame: every sample is drawn between the paddings, the first one at
    [pad] and the last one at [W - pad], and at most 40 (half the band
    height) above or below the base line, the divisor [maxVal] being at
    least 0.1. *)
Theorem graph_stays_in_frame (W pad : Q) (data : list Q) (i : nat) :
  2 * pad <= W ->
  (1 < List.length data)%nat ->
  (i < List.length data)%nat ->
  pad <= graphX W pad data i <= W - pad
  /\ Qabs (graphHeight data (nth i data 0)) <= 40
  /\ graphX W pad data 0 == pad
  /\ graphX W pad data (List.length data - 1) == W - pad.
Proof.
  intros HW Hlen Hi.
  set (n := (List.length data - 1)%nat).
  assert (Hn : 0 < inject_Z (Z.of_nat n)).
  { rewrite <- (Zlt_Qlt 0). subst n. lia. }
  assert (Hi0 : 0 <= inject_Z (Z.of_nat i)).
  { rewrite <- (Zle_Qle 0). lia. }
  assert (Hin : inject_Z (Z.of_nat i) <= inject_Z (Z.of_nat n)).
  { rewrite <- Zle_Qle. subst n. lia. }
  assert (Hfrac : 0 <= inject_Z (Z.of_nat i) / inject_Z (Z.of_nat n) <= 1).
  { split; [apply Qle_shift_div_l | apply Qle_shift_div_r]; Lqa.lra. }
  unfold graphX. fold n.
  split; [|split; [|split]].
  - set (t := inject_Z (Z.of_nat i) / inject_Z (Z.of_nat n)) in *. split; Lqa.nra.
  - destruct (graphMaxVal_ge data) as [Hm Hv].
    pose proof (Hv _ (nth_In data 0 Hi)) as Hb.
    unfold graphHeight. set (v := nth i data 0) in *. set (m := graphMaxVal data) in *.
    assert (E : v * (80 / 2 / m) == 40 * (v / m)) by (field; Lqa.lra).
    rewrite E, Qabs_Qmult. rewrite (Qabs_pos 40) by Lqa.lra.
    assert (Hq : Qabs (v / m) <= 1).
    { unfold Qdiv. rewrite Qabs_Qmult, (Qabs_pos (/ m)).
      - apply Qle_shift_div_r; Lqa.lra.
      - apply Qinv_le_0_compat. Lqa.lra. }
    Lqa.lra.
  - cbn [Z.of_nat inject_Z]. unfold Qdiv. ring.
  - field. Lqa.lra.
Qed.

Lemma graph_stays_in_frame_witness :
  2 * 50 <= 800
  /\ (1 < List.length sampleData)%nat /\ (3 < List.length sampleData)%nat
  /\ Qabs (graphHeight sampleData (nth 3 sampleData 0)) <= 40.
Proof.
  assert (H1 : 2 * 50 <= 800) by (vm_compute; discriminate).
  assert (H2 : (1 < List.length sampleData)%nat) by (cbn; lia).
  assert (H3 : (3 < List.length sampleData)%nat) by (cbn; lia).
  split; [exact H1|]. split; [exact H2|]. split; [exact H3|].
  exact (proj1 (proj2 (graph_stays_in_frame 800 50 sampleData 3 H1 H2 H3))).
Defined.

(** ** Parameter edits *)

(** X24. Edits through [handleChange] keep the load on the beam: if the
    load position lies in [[0, L]], then after any change (a new load
    position taken from its slider range [[0, L]], a new non-negative
    length, or any other field) it still does, a shortened beam pulling
    the load back to its new end; the clamp of the field solver then
    changes nothing. *)
Theorem handleChange_keeps_load_on_beam (params : SimulationParams) (c : ParamChange) :
  0 <= loadPosition params <= length params ->
  match c with
  | set_loadPosition value => 0 <= value <= length params
  | set_length value => 0 <= value
  | _ => True
  end ->
  let q := handleChange params c in
  0 <= loadPosition q <= length q /\ safeA q == loadPosition q.
Proof.
  intros [H0 HL] Hc q.
  assert (Hq : 0 <= loadPosition q <= length q).
  { subst q. unfold handleChange.
    destruct c; cbn [spread loadPosition length]; try (split; assumption).
    - destruct (Qlt_bool value (loadPosition params)) eqn:E; field_flags;
        cbn [withLoadPosition spread loadPosition length]; split; Lqa.lra.
    - exact Hc. }
  split; [exact Hq|]. unfold safeA, Math_max, Math_min.
  rewrite Q.min_l by apply Hq. apply Q.max_r. apply Hq.
Qed.

Lemma handleChange_keeps_load_on_beam_witness :
  0 <= loadPosition defaultParams <= length defaultParams
  /\ 0 <= 3
  /\ loadPosition (handleChange defaultParams (set_length 3)) == 3
  /\ safeA (handleChange defaultParams (set_length 3))
     == loadPosition (handleChange defaultParams (set_length 3)).
Proof.
  assert (H1 : 0 <= loadPosition defaultParams <= length defaultParams)
    by (split; vm_compute; discriminate).
  assert (H2 : 0 <= 3) by (vm_compute; discriminate).
  split; [exact H1|]. split; [exact H2|]. split; [reflexivity|].
  exact (proj2 (handleChange_keeps_load_on_beam defaultParams (set_length 3) H1 H2)).
Defined.

(** ** The list of simulations *)

Lemma find_id_some (l : list SimulationInstance) (id : nat) :
  In id (map sim_id l) ->
  exists s, find (fun s => Nat.eqb (sim_id s) id) l = Some s /\ In s l /\ sim_id s = id.
Proof.
  induction l as [|a l IH]; cbn [map In find]; [intros []|].
  intro H. destruct (Nat.eqb (sim_id a) id) eqn:E.
  - exists a. apply Nat.eqb_eq in E. auto.
  - destruct H as [H|H]; [apply Nat.eqb_neq in E; congruence|].
    destruct (IH H) as (s & Hs & Hin & Hid). exists s. auto.
Qed.

Lemma filter_ids_NoDup (l : list SimulationInstance) (f : SimulationInstance -> bool) :
  NoDup (map sim_id l) -> NoDup (map sim_id (filter f l)).
Proof.
  induction l as [|a l IH]; cbn [map filter]; intro H; [constructor|].
  inversion H as [|? ? Hn Hd]; subst. destruct (f a); cbn [map]; [|apply IH, Hd].
  constructor; [|apply IH, Hd]. intro Hin. apply Hn.
  apply in_map_iff in Hin. destruct Hin as (s & Hs & Hin).
  apply filter_In in Hin. apply in_map_iff. exists s. tauto.
Qed.

Lemma lastSim_In (l : list SimulationInstance) :
  l <> [] -> exists s, lastSim l = Some s /\ In s l.
Proof.
  intro H. unfold lastSim.
  destruct (nth_error l (List.length l - 1)) as [s|] eqn:E.
  - exists s. split; [reflexivity|]. eapply nth_error_In, E.
  - exfalso. apply nth_error_None in E. destruct l; [congruence|]. cbn in E. lia.
Qed.

Lemma other_id (l : list SimulationInstance) (id : nat) :
  NoDup (map sim_id l) -> (1 < List.length l)%nat ->
  exists s, In s l /\ sim_id s <> id.
Proof.
  intros Hd Hlen. destruct l as [|a [|b l]]; cbn in Hlen; try lia.
  cbn [map] in Hd. inversion Hd as [|? ? Hn _]; subst.
  destruct (Nat.eq_dec (sim_id a) id) as [Ea|Ea].
  - exists b. split; [right; now left|]. intro Eb. apply Hn. left. congruence.
  - exists a. split; [now left | exact Ea].
Qed.

(** X25. Removing a case never empties the list: with pairwise distinct
    ids, a non-empty list and a valid active id, [removeSimulation]
    returns normally, leaves at least one case, keeps the ids distinct and
    the active id valid; a single case is never removed, and otherwise
    exactly the cases with the given id go. *)
Theorem removeSimulation_keeps_a_case (st : AppState) (id : nat) :
  NoDup (map sim_id (simulations st)) ->
  simulations st <> [] ->
  In (activeId st) (map sim_id (simulations st)) ->
  exists st',
    removeSimulation st id = Some st'
    /\ simulations st' <> []
    /\ In (activeId st') (map sim_id (simulations st'))
    /\ NoDup (map sim_id (simulations st'))
    /\ ((List.length (simulations st) <= 1)%nat -> st' = st)
    /\ ((1 < List.length (simulations st))%nat ->
        forall s, In s (simulations st') <-> In s (simulations st) /\ sim_id s <> id).
Proof.
  intros Hd Hne Hact. unfold removeSimulation.
  destruct (Nat.leb (List.length (simulations st)) 1) eqn:E.
  - apply Nat.leb_le in E. exists st.
    split; [reflexivity|]. split; [exact Hne|]. split; [exact Hact|]. split; [exact Hd|].
    split; [reflexivity|]. intro; lia.
  - apply Nat.leb_gt in E.
    set (newSims := filter (fun s => negb (Nat.eqb (sim_id s) id)) (simulations st)).
    assert (Hin : forall s, In s newSims <-> In s (simulations st) /\ sim_id s <> id).
    { intro s. subst newSims. rewrite filter_In, negb_true_iff, Nat.eqb_neq. tauto. }
    assert (Hne' : newSims <> []).
    { destruct (other_id _ id Hd E) as (s & Hs & Hid).
      intro H0. assert (Hs' : In s newSims) by (apply Hin; auto).
      rewrite H0 in Hs'. destruct Hs'. }
    assert (Hd' : NoDup (map sim_id newSims)) by (apply filter_ids_NoDup, Hd).
    destruct (Nat.eqb (activeId st) id) eqn:Ea.
    + destruct (lastSim_In newSims Hne') as (s & Hs & Hsin). rewrite Hs.
      exists (mkApp newSims (sim_id s)). cbn [simulations activeId].
      split; [reflexivity|]. split; [exact Hne'|].
      split; [apply in_map, Hsin|]. split; [exact Hd'|].
      split; [intro; lia|]. intros _ s0. apply Hin.
    + apply Nat.eqb_neq in Ea.
      exists (mkApp newSims (activeId st)). cbn [simulations activeId].
      split; [reflexivity|]. split; [exact Hne'|].
      split.
      { apply in_map_iff in Hact. destruct Hact as (s & Hs & Hsin).
        apply in_map_iff. exists s. split; [exact Hs|]. apply Hin. split; [exact Hsin|].
        congruence. }
      split; [exact Hd'|].
      split; [intro; lia|]. intros _ s0. apply Hin.
Qed.

Lemma removeSimulation_keeps_a_case_witness :
  NoDup (map sim_id (simulations twoCases))
  /\ simulations twoCases <> []
  /\ In (activeId twoCases) (map sim_id (simulations twoCases))
  /\ exists st', removeSimulation twoCases 1 = Some st' /\ simulations st' <> [].
Proof.
  assert (H1 : NoDup (map sim_id (simulations twoCases))).
  { cbn. repeat constructor; cbn; intuition lia. }
  assert (H2 : simulations twoCases <> []) by discriminate.
  assert (H3 : In (activeId twoCases) (map sim_id (simulations twoCases)))
    by (cbn; auto).
  split; [exact H1|]. split; [exact H2|]. split; [exact H3|].
  destruct (removeSimulation_keeps_a_case twoCases 1 H1 H2 H3) as (st' & A & B & _).
  exists st'. split; [exact A | exact B].
Defined.

(** X26. Editing parameters touches the active case only:
    [handleParamChange] keeps the ids, the names and the active id, makes
    the new parameters those of the active case, and leaves every case
    with another id as it was. *)
Theorem handleParamChange_edits_active_case (st : AppState) (newParams : SimulationParams) :
  In (activeId st) (map sim_id (simulations st)) ->
  let st' := handleParamChange st newParams in
  map sim_id (simulations st') = map sim_id (simulations st)
  /\ map sim_name (simulations st') = map sim_name (simulations st)
  /\ activeId st' = activeId st
  /\ option_map sim_params (activeSim st') = Some newParams
  /\ (forall s, In s (simulations st) -> sim_id s <> activeId st -> In s (simulations st')).
Proof.
  intros Hact st'. subst st'. unfold handleParamChange. cbn [simulations activeId].
  set (f := fun sim => if Nat.eqb (sim_id sim) (activeId st)
                       then mkSim (sim_id sim) (sim_name sim) newParams else sim).
  assert (Hid : forall s, sim_id (f s) = sim_id s).
  { intro s. unfold f. destruct (Nat.eqb (sim_id s) (activeId st)); reflexivity. }
  assert (Hnm : forall s, sim_name (f s) = sim_name s).
  { intro s. unfold f. destruct (Nat.eqb (sim_id s) (activeId st)); reflexivity. }
  split; [rewrite map_map; apply map_ext, Hid|].
  split; [rewrite map_map; apply map_ext, Hnm|].
  split; [reflexivity|]. split.
  - unfold activeSim. cbn [simulations activeId].
    assert (G : forall l, In (activeId st) (map sim_id l) ->
              option_map sim_params
                (find (fun s => Nat.eqb (sim_id s) (activeId st)) (map f l)) = Some newParams).
    { induction l as [|a l IH]; cbn [map In find]; [intros []|]. intro H.
      rewrite Hid. destruct (Nat.eqb (sim_id a) (activeId st)) eqn:E.
      - unfold f. rewrite E. reflexivity.
      - apply IH. destruct H as [H|H]; [apply Nat.eqb_neq in E; congruence | exact H]. }
    specialize (G _ Hact).
    destruct (find (fun s => Nat.eqb (sim_id s) (activeId st)) (map f (simulations st)));
      [exact G | discriminate].
  - intros s Hs Hne. apply in_map_iff. exists s. split; [|exact Hs].
    unfold f. apply Nat.eqb_neq in Hne. rewrite Hne. reflexivity.
Qed.

Lemma handleParamChange_edits_active_case_witness :
  In (activeId twoCases) (map sim_id (simulations twoCases))
  /\ option_map sim_params (activeSim (handleParamChange twoCases cantileverTip))
     = Some cantileverTip.
Proof.
  assert (H1 : In (activeId twoCases) (map sim_id (simulations twoCases)))
    by (cbn; auto).
  split; [exact H1|].
  pose proof (handleParamChange_edits_active_case twoCases cantileverTip H1) as W.
  cbv zeta in W. exact (proj1 (proj2 (proj2 (proj2 W)))).
Defined.

Lemma find_app_fresh (l : list SimulationInstance) (s : SimulationInstance) :
  ~ In (sim_id s) (map sim_id l) ->
  find (fun t => Nat.eqb (sim_id t) (sim_id s)) (l ++ [s]) = Some s.
Proof.
  induction l as [|a l IH]; cbn [map In app find]; intro H.
  - rewrite Nat.eqb_refl. reflexivity.
  - destruct (Nat.eqb (sim_id a) (sim_id s)) eqn:E.
    + apply Nat.eqb_eq in E. exfalso. apply H. now left.
    + apply IH. intro Hin. apply H. now right.
Qed.

(** X27. Adding a case clones the active one: with a time stamp that no
    case carries yet, [addSimulation] appends one case named
    [Case (n + 1)] holding the parameters of the active case and makes it
    the active case; distinct ids stay distinct. *)
Theorem addSimulation_clones_active (st : AppState) (now : nat)
    (active : SimulationInstance) :
  activeSim st = Some active ->
  ~ In now (map sim_id (simulations st)) ->
  exists st',
    addSimulation st now = Some st'
    /\ simulations st'
       = simulations st
         ++ [mkSim now (CaseN (List.length (simulations st) + 1)) (sim_params active)]
    /\ activeId st' = now
    /\ option_map sim_params (activeSim st') = Some (sim_params active)
    /\ (NoDup (map sim_id (simulations st)) -> NoDup (map sim_id (simulations st'))).
Proof.
  intros Hact Hfresh. unfold addSimulation. rewrite Hact.
  eexists. split; [reflexivity|]. cbn [simulations activeId].
  split; [reflexivity|]. split; [reflexivity|]. split.
  - unfold activeSim. cbn [simulations activeId].
    set (new := mkSim now (CaseN (List.length (simulations st) + 1)) (sim_params active)).
    change now with (sim_id new) at 1.
    rewrite find_app_fresh by exact Hfresh. reflexivity.
  - intro Hd. rewrite map_app. cbn [map sim_id].
    apply NoDup_app; [exact Hd | constructor; [intros [] | constructor] |].
    intros a Ha [<-|[]]. contradiction.
Qed.

Lemma addSimulation_clones_active_witness :
  activeSim twoCases = Some (mkSim 1 DesignCase1 defaultParams)
  /\ ~ In 3%nat (map sim_id (simulations twoCases))
  /\ exists st', addSimulation twoCases 3 = Some st' /\ activeId st' = 3%nat.
Proof.
  assert (H1 : activeSim twoCases = Some (mkSim 1 DesignCase1 defaultParams))
    by reflexivity.
  assert (H2 : ~ In 3%nat (map sim_id (simulations twoCases))).
  { cbn. intuition lia. }
  split; [exact H1|]. split; [exact H2|].
  destruct (addSimulation_clones_active twoCases 3 _ H1 H2) as (st' & A & _ & B & _).
  exists st'. split; [exact A | exact B].
Defined.

(** ** The balls of the bearing and their mesh *)

Section BallMeshProofs.
Local Open Scope R_scope.

Lemma Rpower_le_one (c y : R) : 0 < c <= 1 -> 0 <= y -> 0 < Rpower c y <= 1.
Proof.
  intros [Hc0 Hc1] Hy. unfold Rpower. split; [apply exp_pos|].
  rewrite <- exp_0. assert (Hln : ln c <= 0).
  { rewrite <- ln_1. destruct Hc1 as [Hc1|Hc1]; [left; apply ln_increasing; assumption|].
    rewrite Hc1. right. reflexivity. }
  assert (H : y * ln c <= 0) by nra.
  destruct H as [H|H]; [left; apply exp_increasing; exact H | rewrite H; right; reflexivity].
Qed.

Lemma ballLoad_range (params : BearingParams) (i : nat) :
  (i < ballCount params)%nat ->
  0 <= radialLoad params ->
  0 <= ballLoad params i <= maxBallLoad params.
Proof.
  intros Hi HF.
  assert (Hmax : 0 <= maxBallLoad params).
  { unfold maxBallLoad, stribeckFactor.
    pose proof (Rmax_l 1 (INR (ballCount params))) as Hm.
    apply Rmult_le_pos; [nra|]. left. apply Rinv_0_lt_compat. lra. }
  unfold ballLoad.
  destruct (Rlt_dec (angleDiff params i) (PI / 2)) as [Hlt|Hge]; [|lra].
  pose proof (bearing_pow_base_pos params i Hi Hlt) as Hc.
  pose proof (COS_bound (angleDiff params i)) as [_ Hc1].
  unfold Math_powR. destruct (Rlt_dec 0 (cos (angleDiff params i))); [|lra].
  destruct (Rpower_le_one (cos (angleDiff params i)) (3 / 2)) as [Hp0 Hp1]; [lra|lra|].
  split; nra.
Qed.

Lemma ball_in_list (params : BearingParams) (el : BearingElement) :
  In el (calculateBearingPhysics params) ->
  exists i, (i < ballCount params)%nat /\ el = ballElement params i.
Proof.
  unfold calculateBearingPhysics. intro H. apply in_map_iff in H.
  destruct H as (i & <- & Hi). apply in_seq in Hi. exists i. split; [lia | reflexivity].
Qed.

(** Radius and contact stress of a ball of the list. *)
Lemma ball_radius_stress (params : BearingParams) (el : BearingElement) :
  innerRadius params < outerRadius params ->
  In el (calculateBearingPhysics params) ->
  0 < be_radius el /\ 0 <= be_maxStress el.
Proof.
  intros Hr Hel. destruct (ball_in_list params el Hel) as (i & Hi & ->).
  unfold ballElement. cbn [be_radius be_maxStress]. split; [lra|].
  destruct (Rgt_dec (ballLoad params i) 0); [|lra].
  apply Rmult_le_pos; [lra | apply sqrt_pos].
Qed.

(** X28. Geometry and signs of the bearing elements.  With the outer
    radius above the inner one and a non-negative radial load, every
    ball of [calculateBearingPhysics] sits on the pitch circle, has the
    positive radius [(outer - inner) / 2], carries a load between 0 and
    [Qmax], and has a non-negative contact stress and deformation, both 0
    when the ball is unloaded. *)
Theorem bearing_ball_geometry (params : BearingParams) (el : BearingElement) :
  innerRadius params < outerRadius params ->
  0 <= radialLoad params ->
  In el (calculateBearingPhysics params) ->
  let pitchRadius := (outerRadius params + innerRadius params) / 2 in
  be_x el ^ 2 + be_y el ^ 2 = pitchRadius ^ 2
  /\ be_radius el = (outerRadius params - innerRadius params) / 2
  /\ 0 < be_radius el
  /\ 0 <= be_load el <= maxBallLoad params
  /\ 0 <= be_maxStress el
  /\ 0 <= be_deformation el
  /\ (be_load el = 0 -> be_maxStress el = 0 /\ be_deformation el = 0).
Proof.
  intros Hr HF Hel pitchRadius.
  destruct (ball_in_list params el Hel) as (i & Hi & ->).
  unfold ballElement. cbn [be_x be_y be_radius be_load be_maxStress be_deformation].
  fold pitchRadius.
  pose proof (ballLoad_range params i Hi HF) as Hq.
  split.
  { pose proof (sin2_cos2 (ballAngle params i)) as Hsc. unfold Rsqr in Hsc. nra. }
  split; [reflexivity|]. split; [lra|]. split; [exact Hq|].
  destruct (Rgt_dec (ballLoad params i) 0) as [Hpos|Hzero].
  - split; [apply Rmult_le_pos; [lra | apply sqrt_pos]|].
    split.
    + apply Rmult_le_pos; [lra|]. unfold Math_powR.
      destruct (Rlt_dec 0 (ballLoad params i)); [left; apply exp_pos | lra].
    + intro H0. lra.
  - split; [lra|]. split; [lra|]. intros _. split; reflexivity.
Qed.

Lemma bearing_ball_geometry_witness :
  innerRadius scenarioC < outerRadius scenarioC
  /\ 0 <= radialLoad scenarioC
  /\ In (ballElement scenarioC 9) (calculateBearingPhysics scenarioC)
  /\ 0 <= be_load (ballElement scenarioC 9) <= maxBallLoad scenarioC.
Proof.
  assert (H1 : innerRadius scenarioC < outerRadius scenarioC) by (cbn; lra).
  assert (H2 : 0 <= radialLoad scenarioC) by (cbn; lra).
  assert (H3 : In (ballElement scenarioC 9) (calculateBearingPhysics scenarioC)).
  { unfold calculateBearingPhysics. apply in_map. apply in_seq. cbn. lia. }
  split; [exact H1|]. split; [exact H2|]. split; [exact H3|].
  pose proof (bearing_ball_geometry scenarioC (ballElement scenarioC 9) H1 H2 H3) as W.
  cbv zeta in W. exact (proj1 (proj2 (proj2 (proj2 W)))).
Defined.

Lemma ringCount_pos (r : nat) : (0 < ringCount r)%nat.
Proof. destruct r; cbn; lia. Qed.

Lemma ring_total (n : nat) :
  List.length (flat_map (fun r => seq 0 (ringCount r)) (seq 0 (S n)))
  = (1 + 3 * n * (n + 1))%nat.
Proof.
  induction n as [|n IH].
  - reflexivity.
  - rewrite seq_S, flat_map_app, length_app, IH. cbn [flat_map]. rewrite app_nil_r, length_seq.
    cbn [Nat.add ringCount]. lia.
Qed.

Lemma generateBallMesh_length (element : BearingElement) (meshResolution : nat) :
  List.length (generateBallMesh element meshResolution)
  = (1 + 3 * meshResolution * (meshResolution + 1))%nat.
Proof.
  rewrite <- ring_total. unfold generateBallMesh.
  induction (seq 0 (S meshResolution)) as [|r l IH]; cbn [flat_map]; [reflexivity|].
  rewrite !length_app, IH, length_map. reflexivity.
Qed.

Lemma exp_le_one (x : R) : x <= 0 -> 0 < exp x <= 1.
Proof.
  intro H. split; [apply exp_pos|]. rewrite <- exp_0.
  destruct H as [H|H]; [left; apply exp_increasing; exact H | rewrite H; right; reflexivity].
Qed.

Lemma mesh_point_in_list (element : BearingElement) (meshResolution : nat) (pt : MeshPoint) :
  In pt (generateBallMesh element meshResolution) ->
  exists r a, (r <= meshResolution)%nat /\ (a < ringCount r)%nat
              /\ pt = ballMeshPoint element meshResolution r a.
Proof.
  unfold generateBallMesh. intro H. apply in_flat_map in H. destruct H as (r & Hr & H).
  apply in_map_iff in H. destruct H as (a & <- & Ha).
  apply in_seq in Hr. apply in_seq in Ha. exists r, a. repeat split; lia.
Qed.

Lemma ballMeshPoint_bounds (element : BearingElement) (meshResolution r a : nat) :
  (0 < meshResolution)%nat -> (r <= meshResolution)%nat ->
  0 < be_radius element -> 0 <= be_maxStress element ->
  let pt := ballMeshPoint element meshResolution r a in
  (pt_x pt - be_x element) ^ 2 + (pt_y pt - be_y element) ^ 2 <= be_radius element ^ 2
  /\ 0 <= pt_stress pt <= be_maxStress element.
Proof.
  intros Hres Hr Hrad Hs pt. subst pt. unfold ballMeshPoint. cbn [pt_x pt_y pt_stress].
  set (angle := 2 * PI * INR a / INR (ringCount r)).
  set (t := INR r / INR meshResolution).
  assert (Ht : 0 <= t <= 1).
  { subst t. assert (0 < INR meshResolution) by (apply lt_0_INR; exact Hres).
    assert (0 <= INR r) by apply pos_INR.
    assert (INR r <= INR meshResolution) by (apply le_INR; exact Hr).
    split.
    - apply Rmult_le_pos; [assumption | left; apply Rinv_0_lt_compat; assumption].
    - apply (Rmult_le_reg_r (INR meshResolution)); [assumption|].
      unfold Rdiv. rewrite Rmult_assoc, Rinv_l by lra. lra. }
  split.
  - pose proof (sin2_cos2 angle) as Hsc. unfold Rsqr in Hsc.
    replace ((be_x element + t * be_radius element * cos angle - be_x element) ^ 2
             + (be_y element + t * be_radius element * sin angle - be_y element) ^ 2)
      with ((t * be_radius element) ^ 2 * (sin angle * sin angle + cos angle * cos angle))
      by ring.
    rewrite Hsc. assert (Ht2 : t * t <= 1) by nra.
    assert (HR2 : 0 <= be_radius element * be_radius element) by nra.
    replace ((t * be_radius element) ^ 2 * 1) with (t * t * (be_radius element * be_radius element)) by ring.
    replace (be_radius element ^ 2) with (be_radius element * be_radius element) by ring.
    nra.
  - match goal with |- context [exp ?e] => 
      assert (He : e <= 0); [|destruct (exp_le_one e He) as [E0 E1]; split; nra] end.
    match goal with |- - 2 * (?m / _) <= 0 => assert (Hm : 0 <= m) end.
    { apply Rmin_glb; apply sqrt_pos. }
    assert (Hq : 0 <= Rmin
      (sqrt ((be_x element + t * be_radius element * cos angle
              - (be_x element + be_radius element * cos (be_angle element))) ^ 2
             + (be_y element + t * be_radius element * sin angle
                - (be_y element + be_radius element * sin (be_angle element))) ^ 2))
      (sqrt ((be_x element + t * be_radius element * cos angle
              - (be_x element - be_radius element * cos (be_angle element))) ^ 2
             + (be_y element + t * be_radius element * sin angle
                - (be_y element - be_radius element * sin (be_angle element))) ^ 2))
      / be_radius element).
    { apply Rmult_le_pos; [exact Hm | left; apply Rinv_0_lt_compat; exact Hrad]. }
    lra.
Qed.

Lemma mesh_centre_in_list (element : BearingElement) (meshResolution : nat) :
  In (ballMeshPoint element meshResolution 0 0) (generateBallMesh element meshResolution).
Proof.
  unfold generateBallMesh. apply in_flat_map. exists 0%nat.
  split; [apply in_seq; lia|]. apply in_map. apply in_seq. cbn. lia.
Qed.

(** X29. The mesh of a ball: for a resolution [n > 0], a ball of
    positive radius and a non-negative contact stress,
    [generateBallMesh] returns [1 + 3 n (n + 1)] points, every point lies
    inside the ball, and its local stress lies between 0 and the contact
    stress of the ball. *)
Theorem ball_mesh_is_bounded (element : BearingElement) (meshResolution : nat)
    (pt : MeshPoint) :
  (0 < meshResolution)%nat ->
  0 < be_radius element -> 0 <= be_maxStress element ->
  In pt (generateBallMesh element meshResolution) ->
  List.length (generateBallMesh element meshResolution)
    = (1 + 3 * meshResolution * (meshResolution + 1))%nat
  /\ (pt_x pt - be_x element) ^ 2 + (pt_y pt - be_y element) ^ 2 <= be_radius element ^ 2
  /\ 0 <= pt_stress pt <= be_maxStress element.
Proof.
  intros Hres Hrad Hs Hin. split; [apply generateBallMesh_length|].
  destruct (mesh_point_in_list _ _ _ Hin) as (r & a & Hr & _ & ->).
  apply ballMeshPoint_bounds; assumption.
Qed.

Lemma ball_mesh_is_bounded_witness :
  (0 < 6)%nat /\ 0 < be_radius sampleBall /\ 0 <= be_maxStress sampleBall
  /\ In (ballMeshPoint sampleBall 6 0 0) (generateBallMesh sampleBall 6)
  /\ List.length (generateBallMesh sampleBall 6) = (1 + 3 * 6 * (6 + 1))%nat.
Proof.
  assert (H1 : (0 < 6)%nat) by lia.
  assert (H2 : 0 < be_radius sampleBall) by (cbn; lra).
  assert (H3 : 0 <= be_maxStress sampleBall) by (cbn; lra).
  assert (H4 : In (ballMeshPoint sampleBall 6 0 0) (generateBallMesh sampleBall 6))
    by apply mesh_centre_in_list.
  split; [exact H1|]. split; [exact H2|]. split; [exact H3|]. split; [exact H4|].
  exact (proj1 (ball_mesh_is_bounded sampleBall 6 _ H1 H2 H3 H4)).
Defined.

Lemma globalMaxStress_ge (elements : list BearingElement) :
  10 <= globalMaxStress elements
  /\ forall el, In el elements -> be_maxStress el <= globalMaxStress elements.
Proof.
  unfold globalMaxStress. induction elements as [|e l [IH1 IH2]]; cbn [map fold_right].
  - split; [lra | intros el []].
  - pose proof (Rmax_l (be_maxStress e) (fold_right Rmax 10 (map be_maxStress l))) as Hl.
    pose proof (Rmax_r (be_maxStress e) (fold_right Rmax 10 (map be_maxStress l))) as Hr.
    split; [lra|]. intros el [<-|Hel]; [exact Hl|]. pose proof (IH2 el Hel). lra.
Qed.

(** X30. The colour scale of the bearing view covers every ball: with
    [top = max(all contact stresses, 10)], the local stress of every
    point of every ball mesh that [BearingVisualizer] draws lies between
    0 and [top], below the upper end [1.1 top] of the colour domain. *)
Theorem bearing_colour_scale_covers_balls (params : BearingParams) (el : BearingElement)
    (pt : MeshPoint) :
  innerRadius params < outerRadius params ->
  0 <= radialLoad params ->
  In el (calculateBearingPhysics params) ->
  In pt (generateBallMesh el visualizerResolution) ->
  let top := globalMaxStress (calculateBearingPhysics params) in
  10 <= top /\ 0 <= pt_stress pt <= top /\ pt_stress pt < top * (11 / 10).
Proof.
  intros Hr HF Hel Hpt top.
  destruct (ball_radius_stress params el Hr Hel) as (Hrad & Hs).
  destruct (globalMaxStress_ge (calculateBearingPhysics params)) as [H10 Hge].
  fold top in H10, Hge. pose proof (Hge el Hel) as Hle.
  destruct (mesh_point_in_list _ _ _ Hpt) as (r & a & Hra & _ & ->).
  destruct (ballMeshPoint_bounds el visualizerResolution r a) as [_ Hb];
    [unfold visualizerResolution; lia | exact Hra | exact Hrad | exact Hs |].
  cbv zeta in Hb. split; [exact H10|]. split; lra.
Qed.

Lemma bearing_colour_scale_covers_balls_witness :
  innerRadius scenarioC < outerRadius scenarioC
  /\ 0 <= radialLoad scenarioC
  /\ In (ballElement scenarioC 9) (calculateBearingPhysics scenarioC)
  /\ In (ballMeshPoint (ballElement scenarioC 9) visualizerResolution 0 0)
        (generateBallMesh (ballElement scenarioC 9) visualizerResolution)
  /\ 10 <= globalMaxStress (calculateBearingPhysics scenarioC).
Proof.
  assert (H1 : innerRadius scenarioC < outerRadius scenarioC) by (cbn; lra).
  assert (H2 : 0 <= radialLoad scenarioC) by (cbn; lra).
  assert (H3 : In (ballElement scenarioC 9) (calculateBearingPhysics scenarioC)).
  { unfold calculateBearingPhysics. apply in_map. apply in_seq. cbn. lia. }
  assert (H4 : In (ballMeshPoint (ballElement scenarioC 9) visualizerResolution 0 0)
                  (generateBallMesh (ballElement scenarioC 9) visualizerResolution))
    by apply mesh_centre_in_list.
  split; [exact H1|]. split; [exact H2|]. split; [exact H3|]. split; [exact H4|].
  pose proof (bearing_colour_scale_covers_balls scenarioC _ _ H1 H2 H3 H4) as W.
  cbv zeta in W. exact (proj1 W).
Defined.

End BallMeshProofs.
